(** * SocialGraph: a shallow embedding of [SocialGraph.h] / [SocialGraph.cpp]

    The C++ class keeps two vectors, [nodes] (people, in insertion order) and
    [edgeList] (friendships, in insertion order).  Vectors are modelled as
    lists, [push_back] as appending at the end, the erase/remove idiom as a
    filter.  [int] values are integers in [Z]; an out-of-range subscript or a
    loop that exhausts its fuel makes the embedded function return [None]. *)

From Stdlib Require Import ZArith Lia Ascii String.
From stdpp Require Import base decidable option list strings gmap fin_maps sorting.

Local Open Scope Z_scope.

(** ** Entity model *)

(** [class Node]: a single field [name]; [operator==] compares the names. *)
Abbreviation Node := string.

Definition node_eqb (a b : Node) : bool := bool_decide (a = b).

(** [class Edge]: two nodes, [connects] ignores the order. *)
Record Edge : Type := mkEdge { getFirstNode : Node; getSecondNode : Node }.

Definition connects (e : Edge) (a b : Node) : bool :=
  (node_eqb (getFirstNode e) a && node_eqb (getSecondNode e) b)
  || (node_eqb (getFirstNode e) b && node_eqb (getSecondNode e) a).

(** [class SocialGraph]: the two private vectors. *)
Record SocialGraph : Type := mkGraph { nodes : list Node; edgeList : list Edge }.

Definition empty_graph : SocialGraph := mkGraph [] [].

(** ** Graph store *)

(** [nodeExists]: [find(nodes.begin(), nodes.end(), node) != nodes.end()]. *)
Definition nodeExists (g : SocialGraph) (node : Node) : bool :=
  existsb (fun n => node_eqb n node) (nodes g).

Definition addPerson (g : SocialGraph) (name : string) : SocialGraph :=
  if negb (nodeExists g name) then mkGraph (nodes g ++ [name]) (edgeList g) else g.

(** [removePerson] returns its boolean together with the new store. *)
Definition removePerson (g : SocialGraph) (name : string) : bool * SocialGraph :=
  if negb (nodeExists g name) then (false, g)
  else
    let edges' :=
      filter (fun e => negb (node_eqb (getFirstNode e) name || node_eqb (getSecondNode e) name) = true)
             (edgeList g) in
    let nodes' := filter (fun n => negb (node_eqb n name) = true) (nodes g) in
    (true, mkGraph nodes' edges').

(** The [alreadyFriends] loop of [addFriend] and the loop of [areConnected]:
    scan the edge list and stop at the first edge connecting the two nodes. *)
Fixpoint some_edge_connects (es : list Edge) (a b : Node) : bool :=
  match es with
  | [] => false
  | edge :: rest => if connects edge a b then true else some_edge_connects rest a b
  end.

Definition addFriend (g : SocialGraph) (name1 name2 : string) : SocialGraph :=
  if nodeExists g name1 && nodeExists g name2 && negb (bool_decide (name1 = name2)) then
    let alreadyFriends := some_edge_connects (edgeList g) name1 name2 in
    if negb alreadyFriends then mkGraph (nodes g) (edgeList g ++ [mkEdge name1 name2])
    else g
  else g.

Definition removeFriend (g : SocialGraph) (name1 name2 : string) : SocialGraph :=
  mkGraph (nodes g) (filter (fun e => negb (connects e name1 name2) = true) (edgeList g)).

Definition areConnected (g : SocialGraph) (name1 name2 : string) : bool :=
  some_edge_connects (edgeList g) name1 name2.

(** [getFriends]: one pass over [edgeList], pushing the other endpoint. *)
Fixpoint getFriends_loop (es : list Edge) (node : Node) (friends : list Node) : list Node :=
  match es with
  | [] => friends
  | edge :: rest =>
      if node_eqb (getFirstNode edge) node then
        getFriends_loop rest node (friends ++ [getSecondNode edge])
      else if node_eqb (getSecondNode edge) node then
        getFriends_loop rest node (friends ++ [getFirstNode edge])
      else getFriends_loop rest node friends
  end.

Definition getFriends (g : SocialGraph) (node : Node) : list Node :=
  getFriends_loop (edgeList g) node [].

(** ** The structural invariant of the store *)

(** No two friendships connect the same unordered pair. *)
Fixpoint edges_distinct (es : list Edge) : Prop :=
  match es with
  | [] => True
  | e :: rest =>
      some_edge_connects rest (getFirstNode e) (getSecondNode e) = false
      /\ edges_distinct rest
  end.

Record store_ok (g : SocialGraph) : Prop := mkStoreOk {
  ok_nodes : NoDup (nodes g);
  ok_edges : edges_distinct (edgeList g);
  ok_ends : forall e, e ∈ edgeList g ->
      getFirstNode e ∈ nodes g /\ getSecondNode e ∈ nodes g
      /\ getFirstNode e <> getSecondNode e
}.

(** The four mutators as commands, and the stores reachable from the empty
    one by running any sequence of them. *)
Inductive mutator : Type :=
| AddPerson (name : string)
| RemovePerson (name : string)
| AddFriend (name1 name2 : string)
| RemoveFriend (name1 name2 : string).

Definition run_mutator (g : SocialGraph) (m : mutator) : SocialGraph :=
  match m with
  | AddPerson n => addPerson g n
  | RemovePerson n => snd (removePerson g n)
  | AddFriend a b => addFriend g a b
  | RemoveFriend a b => removeFriend g a b
  end.

Definition run_mutators (ms : list mutator) : SocialGraph :=
  fold_left run_mutator ms empty_graph.

(** The friends of [p] read off the edge list declaratively: keep the
    friendships incident to [p], in edge-list order, and take the endpoint
    that is not the one matched. *)
Definition incident (p : Node) (e : Edge) : bool :=
  node_eqb (getFirstNode e) p || node_eqb (getSecondNode e) p.

Definition opposite (p : Node) (e : Edge) : Node :=
  if node_eqb (getFirstNode e) p then getSecondNode e else getFirstNode e.

Definition incident_edges (g : SocialGraph) (p : Node) : list Edge :=
  filter (fun e => incident p e = true) (edgeList g).

(** The same neighbourhood listed in the order of the Person collection. *)
Definition friends_in_person_order (g : SocialGraph) (p : Node) : list Node :=
  filter (fun n => areConnected g p n = true) (nodes g).

(** ** Recommendation ranker *)

(** Integer conversions of the LP64 data model: [int] is 32 bits, [size_t]
    is 64 bits.  [to_size_t] is the implicit conversion applied to an [int]
    compared with a [size()]; [to_int] is the conversion of a [size_t]
    stored into an [int]. *)
Definition INT_MAX : Z := 2147483647.
Definition INT_MIN : Z := -2147483648.
Definition to_size_t (k : Z) : Z := k mod 2 ^ 64.
Definition to_int (n : Z) : Z := (n + 2 ^ 31) mod 2 ^ 32 - 2 ^ 31.

(** A scan with [break] for a node equal to [x]: the inner loop of
    [countMutualFriends] and the [isAlreadyFriend] loop. *)
Fixpoint has_node (l : list Node) (x : Node) : bool :=
  match l with
  | [] => false
  | y :: rest => if node_eqb x y then true else has_node rest x
  end.

Fixpoint countMutual_loop (aFriends bFriends : list Node) (count : Z) : Z :=
  match aFriends with
  | [] => count
  | aFriend :: rest =>
      if has_node bFriends aFriend then countMutual_loop rest bFriends (count + 1)
      else countMutual_loop rest bFriends count
  end.

Definition countMutualFriends (g : SocialGraph) (a b : Node) : Z :=
  countMutual_loop (getFriends g a) (getFriends g b) 0.

(** The loop over [nodes] that fills [potentialFriends]. *)
Fixpoint potential_loop (g : SocialGraph) (source : Node) (currentFriends : list Node)
    (ns : list Node) (potentialFriends : list (Node * Z)) : list (Node * Z) :=
  match ns with
  | [] => potentialFriends
  | node :: rest =>
      if node_eqb node source then
        potential_loop g source currentFriends rest potentialFriends
      else
        let isAlreadyFriend := has_node currentFriends node in
        if negb isAlreadyFriend then
          let mutualCount := countMutualFriends g source node in
          if 0 <? mutualCount then
            potential_loop g source currentFriends rest
                           (potentialFriends ++ [(node, mutualCount)])
          else potential_loop g source currentFriends rest potentialFriends
        else potential_loop g source currentFriends rest potentialFriends
  end.

(** The test that one iteration of that loop applies to [node]. *)
Definition loop_keeps (g : SocialGraph) (source : Node) (cf : list Node) (p : Node) : bool :=
  negb (node_eqb p source) && negb (has_node cf p) && (0 <? countMutualFriends g source p).

(** [std::sort] belongs to the C++ library, not to this repository, so
    [recommendFriends] takes it as a parameter.  What the language standard
    promises for [sort(first, last, comp)] with
    [comp a b := a.second > b.second] is recorded in [std_sort]: the result
    is a rearrangement of the input in which no later element compares before
    an earlier one.  The relative order of elements with equal counts is left
    open by the standard.  The implementation of GNU libstdc++ is modelled
    further down, as [GnuSort.sort] and [gnu_sort]. *)
Definition count_desc (a b : Node * Z) : Prop := snd b <= snd a.

Record std_sort (sort : list (Node * Z) -> list (Node * Z)) : Prop := mkStdSort {
  sort_permutation : forall l, sort l ≡ₚ l;
  sort_sorted : forall l, StronglySorted count_desc (sort l)
}.

Definition recommendFriends (sort : list (Node * Z) -> list (Node * Z))
    (g : SocialGraph) (name : string) (k : Z) : list string :=
  if negb (nodeExists g name) then []
  else
    let currentFriends := getFriends g name in
    let potentialFriends := sort (potential_loop g name currentFriends (nodes g) []) in
    let size := Z.of_nat (length potentialFriends) in
    let limit := if to_size_t k <? size then k else to_int size in
    map fst (take (Z.to_nat limit) potentialFriends).

(** Two sorting functions meeting the [std::sort] contract: insertion sorts
    that place a new element before, respectively after, the elements with
    the same count. *)
Fixpoint insert_before_ties (x : Node * Z) (l : list (Node * Z)) : list (Node * Z) :=
  match l with
  | [] => [x]
  | y :: rest => if snd x <? snd y then y :: insert_before_ties x rest else x :: y :: rest
  end.

Fixpoint sort_keep_ties (l : list (Node * Z)) : list (Node * Z) :=
  match l with
  | [] => []
  | x :: rest => insert_before_ties x (sort_keep_ties rest)
  end.

Fixpoint insert_after_ties (x : Node * Z) (l : list (Node * Z)) : list (Node * Z) :=
  match l with
  | [] => [x]
  | y :: rest => if snd x <=? snd y then y :: insert_after_ties x rest else x :: y :: rest
  end.

Fixpoint sort_flip_ties (l : list (Node * Z)) : list (Node * Z) :=
  match l with
  | [] => []
  | x :: rest => insert_after_ties x (sort_flip_ties rest)
  end.

(** The ranking as the specification words it: the mutual-friend count is
    the size of the intersection of the two neighbour sets; the candidates
    are the other Persons that are not friends and have a positive count, in
    Person order; they are sorted by count, descending, ties staying in
    Person order; the first [k] are returned. *)
Definition mutual_friends (g : SocialGraph) (a b : Node) : list Node :=
  filter (fun m => areConnected g a m && areConnected g b m = true) (nodes g).

Definition mutual_count (g : SocialGraph) (a b : Node) : Z :=
  Z.of_nat (length (mutual_friends g a b)).

Definition qualifies (g : SocialGraph) (name p : Node) : bool :=
  negb (bool_decide (p = name)) && negb (areConnected g name p)
  && (0 <? mutual_count g name p).

Definition candidates (g : SocialGraph) (name : Node) : list (Node * Z) :=
  map (fun p => (p, mutual_count g name p))
      (filter (fun p => qualifies g name p = true) (nodes g)).

Definition recommend_spec (g : SocialGraph) (name : string) (k : Z) : list string :=
  map fst (take (Z.to_nat k) (sort_keep_ties (candidates g name))).

(** ** Path search *)

(** Vector subscripts.  Reading or writing outside the vector is undefined
    behaviour in C++; here it yields [None]. *)
Definition vget {A : Type} (v : list A) (i : Z) : option A :=
  if decide (0 <= i) then v !! Z.to_nat i else None.

Definition vset {A : Type} (v : list A) (i : Z) (x : A) : option (list A) :=
  if decide (0 <= i < Z.of_nat (length v)) then Some (<[Z.to_nat i := x]> v) else None.

(** The "find index of neighbor" loop: the first [j] with [nodes[j] == x],
    or [-1]. *)
Fixpoint index_from (ns : list Node) (x : Node) (j : Z) : Z :=
  match ns with
  | [] => -1
  | n :: rest => if node_eqb n x then j else index_from rest x (j + 1)
  end.

Definition index_of (ns : list Node) (x : Node) : Z := index_from ns x 0.

(** The loop that looks up [start_index] and [end_index] together and
    leaves as soon as both are set. *)
Fixpoint find_endpoints (ns : list Node) (i : Z) (start end_ : Node)
    (start_index end_index : Z) : Z * Z :=
  match ns with
  | [] => (start_index, end_index)
  | n :: rest =>
      let start_index := if node_eqb n start then i else start_index in
      let end_index := if node_eqb n end_ then i else end_index in
      if negb (start_index =? -1) && negb (end_index =? -1) then (start_index, end_index)
      else find_endpoints rest (i + 1) start end_ start_index end_index
  end.

(** The local state of the search in [shortestPath]. *)
Record bfs_state : Type := mkBfs {
  st_parent : list Z;
  st_distance : list Z;
  st_queue : list Z
}.

(** The [for] loop over [neighbors] inside the [while] loop. *)
Fixpoint visit_neighbors (ns : list Node) (neighbors : list Node) (current : Z)
    (st : bfs_state) : option bfs_state :=
  match neighbors with
  | [] => Some st
  | nb :: rest =>
      let neighbor_index := index_of ns nb in
      d ← vget (st_distance st) neighbor_index;
      if d =? INT_MAX then
        dc ← vget (st_distance st) current;
        if decide (dc + 1 <= INT_MAX) then
          distance' ← vset (st_distance st) neighbor_index (dc + 1);
          parent' ← vset (st_parent st) neighbor_index current;
          visit_neighbors ns rest current
            (mkBfs parent' distance' (st_queue st ++ [neighbor_index]))
        else None
      else visit_neighbors ns rest current st
  end.

(** The [while (!q.empty() && !found)] loop; the result carries [found]. *)
Fixpoint bfs_loop (fuel : nat) (g : SocialGraph) (end_index : Z) (st : bfs_state)
    : option (bool * bfs_state) :=
  match fuel with
  | O => None
  | S fuel' =>
      match st_queue st with
      | [] => Some (false, st)
      | current :: q' =>
          let st := mkBfs (st_parent st) (st_distance st) q' in
          if current =? end_index then Some (true, st)
          else
            cur_node ← vget (nodes g) current;
            st' ← visit_neighbors (nodes g) (getFriends g cur_node) current st;
            bfs_loop fuel' g end_index st'
      end
  end.

(** [for (int v = end_index; v != -1; v = parent[v]) index_path.push_back(v)]. *)
Fixpoint walk_parents (fuel : nat) (parent : list Z) (v : Z) (index_path : list Z)
    : option (list Z) :=
  match fuel with
  | O => None
  | S fuel' =>
      if v =? -1 then Some index_path
      else
        p ← vget parent v;
        walk_parents fuel' parent p (index_path ++ [v])
  end.

Definition shortestPath (g : SocialGraph) (from to : string) : option (list string) :=
  if negb (nodeExists g from) || negb (nodeExists g to) then Some []
  else
    let n := length (nodes g) in
    let '(start_index, end_index) := find_endpoints (nodes g) 0 from to (-1) (-1) in
    parent ← vset (replicate n (-1)) start_index (-1);
    distance ← vset (replicate n INT_MAX) start_index 0;
    '(found, st) ← bfs_loop (S n) g end_index (mkBfs parent distance [start_index]);
    if found : bool then
      index_path ← walk_parents (S n) (st_parent st) end_index [];
      mapM (vget (nodes g)) (reverse index_path)
    else Some [].

(** The search of [shortestPathAvoiding]: a [visited] vector instead of the
    distances, and the indices of the blacklisted names. *)
Record avoid_state : Type := mkAvoid {
  av_parent : list Z;
  av_visited : list bool;
  av_queue : list Z
}.

Fixpoint blacklist_indices (ns : list Node) (blacklist : list string) (acc : list Z) : list Z :=
  match blacklist with
  | [] => acc
  | name :: rest =>
      let i := index_of ns name in
      if i =? -1 then blacklist_indices ns rest acc
      else blacklist_indices ns rest (acc ++ [i])
  end.

Fixpoint is_blacklisted (blacklistIndices : list Z) (neighbor_index : Z) : bool :=
  match blacklistIndices with
  | [] => false
  | blackIndex :: rest =>
      if neighbor_index =? blackIndex then true else is_blacklisted rest neighbor_index
  end.

Fixpoint visit_neighbors_avoiding (ns : list Node) (blacklistIndices : list Z)
    (neighbors : list Node) (current : Z) (st : avoid_state) : option avoid_state :=
  match neighbors with
  | [] => Some st
  | nb :: rest =>
      let neighbor_index := index_of ns nb in
      let isBlacklisted := is_blacklisted blacklistIndices neighbor_index in
      if isBlacklisted then visit_neighbors_avoiding ns blacklistIndices rest current st
      else
        seen ← vget (av_visited st) neighbor_index;
        if negb seen then
          visited' ← vset (av_visited st) neighbor_index true;
          parent' ← vset (av_parent st) neighbor_index current;
          visit_neighbors_avoiding ns blacklistIndices rest current
            (mkAvoid parent' visited' (av_queue st ++ [neighbor_index]))
        else visit_neighbors_avoiding ns blacklistIndices rest current st
  end.

Fixpoint avoid_loop (fuel : nat) (g : SocialGraph) (blacklistIndices : list Z)
    (end_index : Z) (st : avoid_state) : option (bool * avoid_state) :=
  match fuel with
  | O => None
  | S fuel' =>
      match av_queue st with
      | [] => Some (false, st)
      | current :: q' =>
          let st := mkAvoid (av_parent st) (av_visited st) q' in
          if current =? end_index then Some (true, st)
          else
            cur_node ← vget (nodes g) current;
            st' ← visit_neighbors_avoiding (nodes g) blacklistIndices
                     (getFriends g cur_node) current st;
            avoid_loop fuel' g blacklistIndices end_index st'
      end
  end.

Definition shortestPathAvoiding (g : SocialGraph) (from to : string)
    (blacklist : list string) : option (list string) :=
  if negb (nodeExists g from) || negb (nodeExists g to) then Some []
  else
    let n := length (nodes g) in
    let '(start_index, end_index) := find_endpoints (nodes g) 0 from to (-1) (-1) in
    let blacklistIndices := blacklist_indices (nodes g) blacklist [] in
    parent ← vset (replicate n (-1)) start_index (-1);
    visited ← vset (replicate n false) start_index true;
    '(found, st) ← avoid_loop (S n) g blacklistIndices end_index
                      (mkAvoid parent visited [start_index]);
    if found : bool then
      index_path ← walk_parents (S n) (av_parent st) end_index [];
      mapM (vget (nodes g)) (reverse index_path)
    else Some [].

(** ** Reference search over names *)

(** A breadth-first search as the specification describes it: a queue of
    Persons, each Person entered at most once, a parent recorded when a
    Person is first reached, the path rebuilt from the parents when [to]
    leaves the queue.  [nbrs] lists the neighbours of a Person in the order
    in which they are expanded. *)
Record ref_state : Type := mkRef {
  rq : list Node;
  rdist : gmap Node nat;
  rparent : gmap Node Node
}.

Fixpoint ref_expand (neighbors : list Node) (cur : Node) (d : nat) (st : ref_state)
    : ref_state :=
  match neighbors with
  | [] => st
  | y :: rest =>
      match rdist st !! y with
      | Some _ => ref_expand rest cur d st
      | None =>
          ref_expand rest cur d
            (mkRef (rq st ++ [y]) (<[y := S d]> (rdist st)) (<[y := cur]> (rparent st)))
      end
  end.

Fixpoint ref_loop (nbrs : Node -> list Node) (fuel : nat) (to : Node) (st : ref_state)
    : option (bool * ref_state) :=
  match fuel with
  | O => None
  | S fuel' =>
      match rq st with
      | [] => Some (false, st)
      | cur :: rest =>
          let st := mkRef rest (rdist st) (rparent st) in
          if bool_decide (cur = to) then Some (true, st)
          else ref_loop nbrs fuel' to
                 (ref_expand (nbrs cur) cur (default 0%nat (rdist st !! cur)) st)
      end
  end.

Fixpoint ref_walk (fuel : nat) (par : gmap Node Node) (v : Node) (acc : list Node)
    : option (list Node) :=
  match fuel with
  | O => None
  | S fuel' =>
      match par !! v with
      | None => Some (v :: acc)
      | Some u => ref_walk fuel' par u (v :: acc)
      end
  end.

Definition ref_init (from : Node) : ref_state :=
  mkRef [from] {[ from := 0%nat ]} ∅.

Definition bfs_path (nbrs : Node -> list Node) (g : SocialGraph) (from to : string)
    : option (list string) :=
  if negb (nodeExists g from) || negb (nodeExists g to) then Some []
  else
    '(found, st) ← ref_loop nbrs (S (length (nodes g))) to (ref_init from);
    if found : bool then ref_walk (S (length (nodes g))) (rparent st) to []
    else Some [].

(** Paths in the friendship relation. *)
Fixpoint linked (g : SocialGraph) (w : list Node) : Prop :=
  match w with
  | x :: ((y :: _) as rest) => areConnected g x y = true /\ linked g rest
  | _ => True
  end.

Definition is_path (g : SocialGraph) (from to : Node) (w : list Node) : Prop :=
  head w = Some from /\ last w = Some to /\ linked g w.

(** The invariant of the reference search from [s] to [t].  [F] is the list
    of open Persons (the queue, with the Person being expanded in front),
    [d] the recorded depths, [p] the recorded parents. *)
Record search_inv (g : SocialGraph) (s t : Node)
    (F : list Node) (d : gmap Node nat) (p : gmap Node Node) : Prop := mkSearchInv {
  inv_start : d !! s = Some 0%nat;
  inv_open : forall x, x ∈ F -> is_Some (d !! x);
  inv_nodes : forall x, is_Some (d !! x) -> x ∈ nodes g;
  inv_levels : exists (k : nat) (A B : list Node),
      F = A ++ B
      /\ (forall x, x ∈ A -> d !! x = Some k)
      /\ (forall x, x ∈ B -> d !! x = Some (S k))
      /\ (forall x dx, d !! x = Some dx -> (dx <= S k)%nat)
      /\ (A = [] -> B = []);
  inv_parent : forall x dx, d !! x = Some dx ->
      match p !! x with
      | None => x = s /\ dx = 0%nat
      | Some u => exists du, d !! u = Some du /\ dx = S du /\ areConnected g u x = true
      end;
  inv_closed : forall x y, is_Some (d !! x) -> x ∉ F ->
      areConnected g x y = true -> is_Some (d !! y);
  inv_step : forall x y dx dy, d !! x = Some dx -> d !! y = Some dy ->
      areConnected g x y = true -> (dy <= S dx)%nat;
  inv_target : is_Some (d !! t) -> t ∈ F;
  inv_count : forall x dx, d !! x = Some dx -> (dx < size d)%nat
}.

(** The number of queue entries plus the number of Persons not yet reached:
    it drops by one in every round of the loop. *)
Definition unreached (g : SocialGraph) (d : gmap Node nat) : nat :=
  length (filter (fun x => d !! x = None) (nodes g)).

Definition search_measure (g : SocialGraph) (st : ref_state) : nat :=
  (length (rq st) + unreached g (rdist st))%nat.

(** How the vectors of [shortestPath] represent the state of the reference
    search: an unreached Person has distance [INT_MAX], the start has
    parent [-1], every other entry is the index of the parent. *)
Definition dist_code (o : option nat) : Z :=
  match o with None => INT_MAX | Some d => Z.of_nat d end.

Definition parent_code (ns : list Node) (o : option Node) : Z :=
  match o with None => -1 | Some u => index_of ns u end.

Record sim (g : SocialGraph) (st : bfs_state) (r : ref_state) : Prop := mkSim {
  sim_parent_len : length (st_parent st) = length (nodes g);
  sim_distance_len : length (st_distance st) = length (nodes g);
  sim_queue : st_queue st = map (index_of (nodes g)) (rq r);
  sim_distance : forall (i : nat) x, nodes g !! i = Some x ->
      st_distance st !! i = Some (dist_code (rdist r !! x));
  sim_parent : forall (i : nat) x, nodes g !! i = Some x ->
      st_parent st !! i = Some (parent_code (nodes g) (rparent r !! x))
}.

(** ** The textual adjacency format *)

(** The file is modelled by its contents, a string; both functions are
    modelled for a stream that opened successfully. *)
Definition newline : ascii := "010"%char.
Definition endl : string := String newline EmptyString.

(** The inner loop of [saveToFile]: the names with one space between them
    and none after the last. *)
Fixpoint write_friends (friends : list Node) : string :=
  match friends with
  | [] => EmptyString
  | f :: rest =>
      match rest with
      | [] => f
      | _ :: _ => f +:+ " " +:+ write_friends rest
      end
  end.

Definition saveToFile (g : SocialGraph) : string :=
  fold_left (fun out current =>
               out +:+ current +:+ ": " +:+ write_friends (getFriends g current) +:+ endl)
            (nodes g) EmptyString.

(** [while (getline(inFile, line))]: a line ends at a newline or at the end
    of the text; at the end of the text with nothing read the loop stops. *)
Fixpoint read_lines (text : string) (line : string) : list string :=
  match text with
  | EmptyString => if decide (line = EmptyString) then [] else [line]
  | String c rest =>
      if Ascii.eqb c newline then line :: read_lines rest EmptyString
      else read_lines rest (line +:+ String c EmptyString)
  end.

(** [s.find(c)]: the position of the first [c], or [npos]. *)
Definition npos : Z := 2 ^ 64 - 1.

Fixpoint string_find (c : ascii) (s : string) (pos : Z) : Z :=
  match s with
  | EmptyString => npos
  | String a rest => if Ascii.eqb a c then pos else string_find c rest (pos + 1)
  end.

Fixpoint drop_chars (n : nat) (s : string) : string :=
  match n, s with
  | O, _ => s
  | S n', String _ rest => drop_chars n' rest
  | S _, EmptyString => EmptyString
  end.

Fixpoint take_chars (n : nat) (s : string) : string :=
  match n, s with
  | S n', String a rest => String a (take_chars n' rest)
  | _, _ => EmptyString
  end.

(** [s.substr(pos)] and [s.substr(pos, count)], the [int] arguments being
    converted to [size_t].  A position past the end throws
    [std::out_of_range]: the result is [None]. *)
Definition substr_from (s : string) (pos : Z) : option string :=
  if Z.of_nat (String.length s) <? to_size_t pos then None
  else Some (drop_chars (Z.to_nat (to_size_t pos)) s).

Definition substr (s : string) (pos count : Z) : option string :=
  tail ← substr_from s pos;
  if Z.of_nat (String.length tail) <=? to_size_t count then Some tail
  else Some (take_chars (Z.to_nat (to_size_t count)) tail).

(** The characters of [" \t"], and those for which [isspace] holds. *)
Definition is_blank (c : ascii) : bool :=
  Ascii.eqb c " " || Ascii.eqb c "009".

Definition is_space (c : ascii) : bool :=
  Ascii.eqb c " " || Ascii.eqb c "009" || Ascii.eqb c "010"
  || Ascii.eqb c "011" || Ascii.eqb c "012" || Ascii.eqb c "013".

(** [s.erase(0, s.find_first_not_of(" \t"))]. *)
Fixpoint erase_leading_blanks (s : string) : string :=
  match s with
  | EmptyString => EmptyString
  | String c rest => if is_blank c then erase_leading_blanks rest else s
  end.

(** [s.erase(s.find_last_not_of(" \t") + 1)]. *)
Fixpoint erase_trailing_blanks (s : string) : string :=
  match s with
  | EmptyString => EmptyString
  | String c rest =>
      match erase_trailing_blanks rest with
      | EmptyString => if is_blank c then EmptyString else String c EmptyString
      | kept => String c kept
      end
  end.

(** [while (iss >> neighbor)]: skip white space, read up to the next white
    space or the end. *)
Fixpoint read_words (s : string) (word : string) : list string :=
  match s with
  | EmptyString => if decide (word = EmptyString) then [] else [word]
  | String c rest =>
      if is_space c then
        if decide (word = EmptyString) then read_words rest EmptyString
        else word :: read_words rest EmptyString
      else read_words rest (word +:+ String c EmptyString)
  end.

(** The body of the [getline] loop; [colonPos] is an [int], and so is
    [colonPos + 1]: the sum is formed in [int] before it is converted for
    [substr], and overflows, which is undefined behaviour, when [colonPos]
    is [INT_MAX]. *)
Definition load_line (g : SocialGraph) (line : string) : option SocialGraph :=
  if decide (line = EmptyString) then Some g
  else
    let colonPos := to_int (string_find ":" line 0) in
    before ← substr line 0 colonPos;
    let sourceName := erase_trailing_blanks (erase_leading_blanks before) in
    let g := addPerson g sourceName in
    if decide (colonPos + 1 <= INT_MAX) then
      after ← substr_from line (colonPos + 1);
      Some (fold_left (fun g neighbor => addFriend (addPerson g neighbor) sourceName neighbor)
                      (read_words after EmptyString) g)
    else None.

Fixpoint load_lines (g : SocialGraph) (lines : list string) : option SocialGraph :=
  match lines with
  | [] => Some g
  | line :: rest => g' ← load_line g line; load_lines g' rest
  end.

(** [loadFromFile] clears the store it is called on before reading. *)
Definition loadFromFile (g : SocialGraph) (text : string) : option SocialGraph :=
  let g := mkGraph [] [] in
  load_lines g (read_lines text EmptyString).

(** The text [saveToFile] would write if the friends of each Person were
    listed in another order: [friends_of] gives the list for each line. *)
Definition write_line (friends_of : Node -> list Node) (current : Node) : string :=
  current +:+ ": " +:+ write_friends (friends_of current).

Fixpoint unlines (ls : list string) : string :=
  match ls with
  | [] => EmptyString
  | l :: rest => l +:+ endl +:+ unlines rest
  end.

Definition write_lines (friends_of : Node -> list Node) (ns : list Node) : string :=
  unlines (map (write_line friends_of) ns).

(** Connectivity of a store after loading, [false] if loading fails. *)
Definition connected_after (o : option SocialGraph) (x y : Node) : bool :=
  match o with
  | Some g => areConnected g x y
  | None => false
  end.

(** Names that survive the format: no colon, no white space, and short
    enough for the position after the colon to fit an [int]. *)
Fixpoint all_chars (P : ascii -> bool) (s : string) : bool :=
  match s with
  | EmptyString => true
  | String c rest => P c && all_chars P rest
  end.

Definition clean_char (c : ascii) : bool := negb (Ascii.eqb c ":") && negb (is_space c).

Definition clean_name (s : string) : Prop :=
  all_chars clean_char s = true /\ Z.of_nat (String.length s) < INT_MAX.

(** What the inner loop of [load_line] does with the words of one line. *)
Definition add_links (g : SocialGraph) (sourceName : Node) (words : list string) : SocialGraph :=
  fold_left (fun g neighbor => addFriend (addPerson g neighbor) sourceName neighbor) words g.

(** [x] and [y] are the two different names [n] and [w], in some order. *)
Definition is_pair (n w x y : Node) : Prop :=
  n <> w /\ ((x = n /\ y = w) \/ (x = w /\ y = n)).

(** ** The store seen by shortestPathAvoiding *)

(** A name is passable for a search from [from] when it is [from] itself or
    is not on the blacklist; [restrict] keeps the friendships between
    passable names. *)
Definition allowed (from : Node) (blacklist : list string) (x : Node) : bool :=
  node_eqb x from || negb (has_node blacklist x).

Definition restrict (g : SocialGraph) (from : Node) (blacklist : list string) : SocialGraph :=
  mkGraph (nodes g)
    (filter (fun e => allowed from blacklist (getFirstNode e)
                      && allowed from blacklist (getSecondNode e) = true)
            (edgeList g)).

(** Every name of the sequence other than [from] is off the blacklist. *)
Definition avoids (from : Node) (blacklist : list string) (w : list Node) : Prop :=
  forall x, x ∈ w -> x = from \/ x ∉ blacklist.

(** How the vectors of [shortestPathAvoiding] represent the state of the
    reference search. *)
Record sim_avoid (g : SocialGraph) (st : avoid_state) (r : ref_state) : Prop := mkSimAvoid {
  sima_parent_len : length (av_parent st) = length (nodes g);
  sima_visited_len : length (av_visited st) = length (nodes g);
  sima_queue : av_queue st = map (index_of (nodes g)) (rq r);
  sima_visited : forall (i : nat) x, nodes g !! i = Some x ->
      av_visited st !! i = Some (bool_decide (is_Some (rdist r !! x)));
  sima_parent : forall (i : nat) x, nodes g !! i = Some x ->
      av_parent st !! i = Some (parent_code (nodes g) (rparent r !! x))
}.

(** ** Console helpers of main.cpp *)

(** The file name computed in [saveToFile(SocialGraph&)] of main.cpp:
    [".txt"] is appended unless the name already ends with it. *)
Definition save_filename (filename : string) : string :=
  if (Z.of_nat (String.length filename) <? 4)
     || negb (String.eqb (drop_chars (String.length filename - 4) filename) ".txt")
  then filename +:+ ".txt"
  else filename.

(** What [displayAllFriendships] sends to [cout]. *)
Definition friendships_header : string :=
  String newline ("Friendships in the network:" +:+ endl).

Definition no_friendships_note : string := "No friendships in the network." +:+ endl.

Definition displayAllFriendships (g : SocialGraph) : string :=
  let '(out, hasFriendships) :=
    fold_left (fun '(out, hasFriendships) current =>
                 let friends := getFriends g current in
                 let hasFriendships :=
                   if negb (bool_decide (friends = [])) then true else hasFriendships in
                 (out +:+ current +:+ ": " +:+ write_friends friends +:+ endl,
                  hasFriendships))
              (nodes g) (friendships_header, false) in
  if negb hasFriendships then out +:+ no_friendships_note else out.

(** ** The sort of the C++ library *)

(** [std::sort] as GNU libstdc++ implements it ([bits/stl_algo.h] and
    [bits/stl_heap.h]): an introsort, that is a quicksort with a
    median-of-three pivot that leaves ranges of at most 16 elements alone
    and falls back to heap sort when its depth limit is used up, followed by
    one insertion sort over the whole range.  Iterators are indices into the
    vector; a read or write outside the vector, or a loop that outlasts its
    fuel, yields [None]. *)
Module GnuSort.
Section Sort.
Context {A : Type} (comp : A -> A -> bool).

(** [_S_threshold]: ranges up to this length are left to insertion sort. *)
Definition S_threshold : Z := 16.

(** [std::iter_swap(a, b)]. *)
Definition iter_swap (v : list A) (a b : Z) : option (list A) :=
  x ← vget v a; y ← vget v b; v ← vset v a y; vset v b x.

(** [__move_median_to_first(result, a, b, c, comp)]: swaps the median of
    the elements at [a], [b], [c] into [result]. *)
Definition move_median_to_first (v : list A) (result a b c : Z) : option (list A) :=
  va ← vget v a; vb ← vget v b; vc ← vget v c;
  if comp va vb then
    if comp vb vc then iter_swap v result b
    else if comp va vc then iter_swap v result c
    else iter_swap v result a
  else if comp va vc then iter_swap v result a
  else if comp vb vc then iter_swap v result c
  else iter_swap v result b.

(** [while (comp(first, pivot)) ++first;] *)
Fixpoint scan_up (fuel : nat) (v : list A) (first pivot : Z) : option Z :=
  match fuel with
  | O => None
  | S fuel' =>
      x ← vget v first; p ← vget v pivot;
      if comp x p then scan_up fuel' v (first + 1) pivot else Some first
  end.

(** [while (comp(pivot, last)) --last;] *)
Fixpoint scan_down (fuel : nat) (v : list A) (last pivot : Z) : option Z :=
  match fuel with
  | O => None
  | S fuel' =>
      p ← vget v pivot; x ← vget v last;
      if comp p x then scan_down fuel' v (last - 1) pivot else Some last
  end.

(** [__unguarded_partition(first, last, pivot, comp)]. *)
Fixpoint unguarded_partition (fuel : nat) (v : list A) (first last pivot : Z)
    : option (Z * list A) :=
  match fuel with
  | O => None
  | S fuel' =>
      first ← scan_up (S (length v)) v first pivot;
      last ← scan_down (S (length v)) v (last - 1) pivot;
      if negb (first <? last) then Some (first, v)
      else
        v ← iter_swap v first last;
        unguarded_partition fuel' v (first + 1) last pivot
  end.

(** [__unguarded_partition_pivot(first, last, comp)]. *)
Definition unguarded_partition_pivot (v : list A) (first last : Z) : option (Z * list A) :=
  let mid := first + Z.quot (last - first) 2 in
  v ← move_median_to_first v first (first + 1) mid (last - 1);
  unguarded_partition (S (length v)) v (first + 1) last first.

(** [__push_heap(first, holeIndex, topIndex, value, comp)]; the division of
    [ptrdiff_t] truncates towards zero. *)
Fixpoint push_heap (fuel : nat) (v : list A) (first holeIndex topIndex : Z) (value : A)
    : option (list A) :=
  match fuel with
  | O => None
  | S fuel' =>
      let parent := Z.quot (holeIndex - 1) 2 in
      if holeIndex >? topIndex then
        p ← vget v (first + parent);
        if comp p value then
          v ← vset v (first + holeIndex) p;
          push_heap fuel' v first parent topIndex value
        else vset v (first + holeIndex) value
      else vset v (first + holeIndex) value
  end.

(** The [while (secondChild < (len - 1) / 2)] loop of [__adjust_heap]. *)
Fixpoint adjust_heap_descend (fuel : nat) (v : list A) (first holeIndex secondChild len : Z)
    : option (list A * Z * Z) :=
  match fuel with
  | O => None
  | S fuel' =>
      if secondChild <? Z.quot (len - 1) 2 then
        let secondChild := 2 * (secondChild + 1) in
        x ← vget v (first + secondChild);
        y ← vget v (first + (secondChild - 1));
        let secondChild := if comp x y then secondChild - 1 else secondChild in
        c ← vget v (first + secondChild);
        v ← vset v (first + holeIndex) c;
        adjust_heap_descend fuel' v first secondChild secondChild len
      else Some (v, holeIndex, secondChild)
  end.

(** [__adjust_heap(first, holeIndex, len, value, comp)]. *)
Definition adjust_heap (v : list A) (first holeIndex len : Z) (value : A) : option (list A) :=
  let topIndex := holeIndex in
  '(v, holeIndex, secondChild) ←
     adjust_heap_descend (S (length v)) v first holeIndex holeIndex len;
  '(v, holeIndex) ←
     (if (Z.land len 1 =? 0) && (secondChild =? Z.quot (len - 2) 2) then
        let secondChild := 2 * (secondChild + 1) in
        c ← vget v (first + (secondChild - 1));
        v ← vset v (first + holeIndex) c;
        Some (v, secondChild - 1)
      else Some (v, holeIndex));
  push_heap (S (length v)) v first holeIndex topIndex value.

(** [__pop_heap(first, last, result, comp)]. *)
Definition pop_heap (v : list A) (first last result : Z) : option (list A) :=
  value ← vget v result;
  f ← vget v first;
  v ← vset v result f;
  adjust_heap v first 0 (last - first) value.

(** [__make_heap(first, last, comp)]. *)
Fixpoint make_heap_loop (fuel : nat) (v : list A) (first len parent : Z) : option (list A) :=
  match fuel with
  | O => None
  | S fuel' =>
      value ← vget v (first + parent);
      v ← adjust_heap v first parent len value;
      if parent =? 0 then Some v else make_heap_loop fuel' v first len (parent - 1)
  end.

Definition make_heap (v : list A) (first last : Z) : option (list A) :=
  if last - first <? 2 then Some v
  else
    let len := last - first in
    make_heap_loop (S (length v)) v first len (Z.quot (len - 2) 2).

(** [__sort_heap(first, last, comp)]. *)
Fixpoint sort_heap (fuel : nat) (v : list A) (first last : Z) : option (list A) :=
  match fuel with
  | O => None
  | S fuel' =>
      if last - first >? 1 then
        let last := last - 1 in
        v ← pop_heap v first last last;
        sort_heap fuel' v first last
      else Some v
  end.

(** [__heap_select(first, middle, last, comp)]. *)
Fixpoint heap_select_loop (fuel : nat) (v : list A) (first middle last i : Z)
    : option (list A) :=
  match fuel with
  | O => None
  | S fuel' =>
      if i <? last then
        x ← vget v i; f ← vget v first;
        v ← (if comp x f then pop_heap v first middle i else Some v);
        heap_select_loop fuel' v first middle last (i + 1)
      else Some v
  end.

Definition heap_select (v : list A) (first middle last : Z) : option (list A) :=
  v ← make_heap v first middle;
  heap_select_loop (S (length v)) v first middle last middle.

(** [__partial_sort(first, middle, last, comp)], the fallback of
    [__introsort_loop] when the depth limit is used up. *)
Definition partial_sort (v : list A) (first middle last : Z) : option (list A) :=
  v ← heap_select v first middle last;
  sort_heap (S (length v)) v first middle.

(** [__introsort_loop(first, last, depth_limit, comp)]: the [while] loop
    continues on [first, cut) after the recursive call on [cut, last). *)
Fixpoint introsort_loop (fuel : nat) (v : list A) (first last depth_limit : Z)
    : option (list A) :=
  match fuel with
  | O => None
  | S fuel' =>
      if last - first >? S_threshold then
        if depth_limit =? 0 then partial_sort v first last last
        else
          let depth_limit := depth_limit - 1 in
          '(cut, v) ← unguarded_partition_pivot v first last;
          v ← introsort_loop fuel' v cut last depth_limit;
          introsort_loop fuel' v first cut depth_limit
      else Some v
  end.

(** [__unguarded_linear_insert(last, comp)]. *)
Fixpoint unguarded_linear_insert_loop (fuel : nat) (v : list A) (last next : Z) (val : A)
    : option (list A) :=
  match fuel with
  | O => None
  | S fuel' =>
      x ← vget v next;
      if comp val x then
        v ← vset v last x;
        unguarded_linear_insert_loop fuel' v next (next - 1) val
      else vset v last val
  end.

Definition unguarded_linear_insert (v : list A) (last : Z) : option (list A) :=
  val ← vget v last;
  unguarded_linear_insert_loop (S (length v)) v last (last - 1) val.

(** [std::move_backward(first, last, last + 1)]: shifts [first, last) one
    place to the right; [n] is [last - first]. *)
Fixpoint move_backward (n : nat) (v : list A) (first last : Z) : option (list A) :=
  match n with
  | O => Some v
  | S n' =>
      x ← vget v (last - 1);
      v ← vset v last x;
      move_backward n' v first (last - 1)
  end.

(** [__insertion_sort(first, last, comp)]. *)
Fixpoint insertion_sort_loop (fuel : nat) (v : list A) (first last i : Z) : option (list A) :=
  match fuel with
  | O => None
  | S fuel' =>
      if i =? last then Some v
      else
        x ← vget v i; f ← vget v first;
        v ← (if comp x f then
               v ← move_backward (Z.to_nat (i - first)) v first i;
               vset v first x
             else unguarded_linear_insert v i);
        insertion_sort_loop fuel' v first last (i + 1)
  end.

Definition insertion_sort (v : list A) (first last : Z) : option (list A) :=
  if first =? last then Some v
  else insertion_sort_loop (S (length v)) v first last (first + 1).

(** [__unguarded_insertion_sort(first, last, comp)]. *)
Fixpoint unguarded_insertion_sort (fuel : nat) (v : list A) (i last : Z) : option (list A) :=
  match fuel with
  | O => None
  | S fuel' =>
      if i =? last then Some v
      else
        v ← unguarded_linear_insert v i;
        unguarded_insertion_sort fuel' v (i + 1) last
  end.

(** [__final_insertion_sort(first, last, comp)]. *)
Definition final_insertion_sort (v : list A) (first last : Z) : option (list A) :=
  if last - first >? S_threshold then
    v ← insertion_sort v first (first + S_threshold);
    unguarded_insertion_sort (S (length v)) v (first + S_threshold) last
  else insertion_sort v first last.

(** [std::__lg(n)]: the position of the highest set bit. *)
Definition lg (n : Z) : Z := Z.log2 n.

(** [std::__sort(first, last, comp)] on the whole vector. *)
Definition sort (v : list A) : option (list A) :=
  let first := 0 in
  let last := Z.of_nat (length v) in
  if first =? last then Some v
  else
    v ← introsort_loop (S (length v)) v first last (lg (last - first) * 2);
    final_insertion_sort v first last.

End Sort.
End GnuSort.

(** The comparator [recommendFriends] passes to [sort]. *)
Definition count_gt (a b : Node * Z) : bool := snd a >? snd b.

(** The sorting step of [recommendFriends] with the libstdc++ [std::sort].
    A run of the model that yields [None] would leave the vector as it is;
    the evaluations in the property part all yield [Some]. *)
Definition gnu_sort (l : list (Node * Z)) : list (Node * Z) :=
  default l (GnuSort.sort count_gt l).

(** ** Example stores *)

(** A, B, C, D with A-B, A-C, D-B, D-C: D shares two friends with A. *)
Definition square_graph : SocialGraph :=
  run_mutators [AddPerson "A"; AddPerson "B"; AddPerson "C"; AddPerson "D";
                AddFriend "A" "B"; AddFriend "A" "C"; AddFriend "D" "B"; AddFriend "D" "C"].

(** A, B, C, D with A-B, C-B, D-B: C and D each share one friend with A. *)
Definition star_graph : SocialGraph :=
  run_mutators [AddPerson "A"; AddPerson "B"; AddPerson "C"; AddPerson "D";
                AddFriend "A" "B"; AddFriend "C" "B"; AddFriend "D" "B"].

(** A, B, C, D with edges entered as A-C, A-B, B-D, C-D: two shortest
    paths from A to D. *)
Definition diamond_graph : SocialGraph :=
  run_mutators [AddPerson "A"; AddPerson "B"; AddPerson "C"; AddPerson "D";
                AddFriend "A" "C"; AddFriend "A" "B"; AddFriend "B" "D"; AddFriend "C" "D"].

(** A and B, friends. *)
Definition pair_graph : SocialGraph :=
  run_mutators [AddPerson "A"; AddPerson "B"; AddFriend "A" "B"].

(** Two friends whose names contain a colon. *)
Definition colon_graph : SocialGraph :=
  run_mutators [AddPerson "a:b"; AddPerson "c:d"; AddFriend "a:b" "c:d"].

(** A and twenty others, P01 to P20, each friends with B only: every P is a
    candidate for A with one mutual friend. *)
Definition crowd_names : list string :=
  ["P01"; "P02"; "P03"; "P04"; "P05"; "P06"; "P07"; "P08"; "P09"; "P10";
   "P11"; "P12"; "P13"; "P14"; "P15"; "P16"; "P17"; "P18"; "P19"; "P20"]%string.

Definition crowd_graph : SocialGraph :=
  run_mutators ([AddPerson "A"; AddPerson "B"] ++ map AddPerson crowd_names
                ++ [AddFriend "A" "B"] ++ map (fun p => AddFriend p "B") crowd_names).

(** * Properties *)

(** ** Basic facts about the entity model *)

Lemma node_eqb_true (a b : Node) : node_eqb a b = true <-> a = b.
Proof. unfold node_eqb. apply bool_decide_eq_true. Qed.

Lemma node_eqb_false (a b : Node) : node_eqb a b = false <-> a <> b.
Proof. unfold node_eqb. apply bool_decide_eq_false. Qed.

Lemma node_eqb_refl (a : Node) : node_eqb a a = true.
Proof. by apply node_eqb_true. Qed.

Lemma connects_spec e a b :
  connects e a b = true <->
  (getFirstNode e = a /\ getSecondNode e = b) \/ (getFirstNode e = b /\ getSecondNode e = a).
Proof.
  unfold connects.
  rewrite orb_true_iff, !andb_true_iff, !node_eqb_true. tauto.
Qed.

Lemma connects_sym e a b : connects e a b = connects e b a.
Proof.
  apply eq_true_iff_eq. rewrite !connects_spec. tauto.
Qed.

Lemma connects_swap e e' :
  connects e (getFirstNode e') (getSecondNode e')
  = connects e' (getFirstNode e) (getSecondNode e).
Proof.
  apply eq_true_iff_eq. rewrite !connects_spec.
  intuition congruence.
Qed.

Lemma some_edge_connects_spec es a b :
  some_edge_connects es a b = true <-> exists e, e ∈ es /\ connects e a b = true.
Proof.
  induction es as [|e es IH]; simpl.
  - split; [discriminate|]. intros (e & He & _). by apply elem_of_nil in He.
  - destruct (connects e a b) eqn:E.
    + split; [|done]. intros _. exists e. split; [left|done].
    + rewrite IH. split.
      * intros (e' & He' & Hc). exists e'. split; [by right|done].
      * intros (e' & He' & Hc). apply elem_of_cons in He' as [->|He']; [congruence|].
        eauto.
Qed.

Lemma some_edge_connects_false es a b :
  some_edge_connects es a b = false <-> forall e, e ∈ es -> connects e a b = false.
Proof.
  rewrite <- not_true_iff_false, some_edge_connects_spec. split.
  - intros H e He. apply not_true_iff_false. intros Hc. apply H. eauto.
  - intros H (e & He & Hc). rewrite (H e He) in Hc. discriminate.
Qed.

Lemma some_edge_connects_sym es a b :
  some_edge_connects es a b = some_edge_connects es b a.
Proof.
  apply eq_true_iff_eq. rewrite !some_edge_connects_spec.
  split; intros (e & He & Hc); exists e; (split; [done|]); by rewrite connects_sym.
Qed.

Lemma nodeExists_spec g n : nodeExists g n = true <-> n ∈ nodes g.
Proof.
  unfold nodeExists. rewrite existsb_exists. split.
  - intros (x & Hx & Heq). apply node_eqb_true in Heq as ->. by apply list_elem_of_In.
  - intros H. exists n. split; [by apply list_elem_of_In | apply node_eqb_refl].
Qed.

Lemma nodeExists_false g n : nodeExists g n = false <-> n ∉ nodes g.
Proof. rewrite <- not_true_iff_false, nodeExists_spec. done. Qed.

Lemma areConnected_sym g a b : areConnected g a b = areConnected g b a.
Proof. apply some_edge_connects_sym. Qed.

(** ** getFriends *)

Lemma getFriends_loop_acc es p acc :
  getFriends_loop es p acc = acc ++ getFriends_loop es p [].
Proof.
  revert acc. induction es as [|e es IH]; intros acc; simpl.
  - by rewrite app_nil_r.
  - destruct (node_eqb (getFirstNode e) p); [|destruct (node_eqb (getSecondNode e) p)].
    + rewrite (IH (acc ++ _)), (IH [_]). by rewrite <- app_assoc.
    + rewrite (IH (acc ++ _)), (IH [_]). by rewrite <- app_assoc.
    + apply IH.
Qed.

Lemma getFriends_loop_cons e es p :
  getFriends_loop (e :: es) p [] =
  (if incident p e then [opposite p e] else []) ++ getFriends_loop es p [].
Proof.
  simpl. unfold incident, opposite.
  destruct (node_eqb (getFirstNode e) p); simpl.
  - apply getFriends_loop_acc.
  - destruct (node_eqb (getSecondNode e) p); simpl; [apply getFriends_loop_acc|done].
Qed.

Lemma getFriends_loop_map es p :
  getFriends_loop es p [] = map (opposite p) (filter (fun e => incident p e = true) es).
Proof.
  induction es as [|e es IH]; [done|].
  rewrite getFriends_loop_cons, IH, filter_cons.
  destruct (incident p e) eqn:E.
  - rewrite decide_True by done. done.
  - rewrite decide_False by congruence. done.
Qed.

(** The edge order is in general not the order of the Person collection. *)
Example getFriends_not_person_order :
  let g := addFriend (addFriend (addPerson (addPerson (addPerson empty_graph "A") "B") "C")
                                "A" "C") "A" "B" in
  getFriends g "A" = ["C"; "B"]%string /\ friends_in_person_order g "A" = ["B"; "C"]%string.
Proof. split; reflexivity. Qed.

Lemma elem_of_getFriends g p x :
  x ∈ getFriends g p <-> areConnected g p x = true.
Proof.
  unfold getFriends, areConnected. rewrite getFriends_loop_map.
  rewrite some_edge_connects_spec, list_elem_of_fmap. split.
  - intros (e & -> & He). apply list_elem_of_filter in He as [Hi He].
    exists e. split; [done|]. apply connects_spec.
    unfold incident, opposite in *.
    destruct (node_eqb (getFirstNode e) p) eqn:E1.
    + apply node_eqb_true in E1. left. done.
    + simpl in Hi. apply node_eqb_true in Hi. right. done.
  - intros (e & He & Hc). exists e. split.
    + unfold opposite. apply connects_spec in Hc as [[H1 H2]|[H1 H2]].
      * rewrite H1, node_eqb_refl. done.
      * destruct (node_eqb (getFirstNode e) p) eqn:E1; [|done].
        apply node_eqb_true in E1. congruence.
    + apply list_elem_of_filter. split; [|done].
      unfold incident. apply orb_true_iff. rewrite !node_eqb_true.
      apply connects_spec in Hc. tauto.
Qed.

(** ** The mutators keep the store well formed *)

Lemma some_edge_connects_filter (P : Edge -> Prop) `{!forall e, Decision (P e)} es a b :
  some_edge_connects es a b = false -> some_edge_connects (filter P es) a b = false.
Proof.
  rewrite !some_edge_connects_false. intros Hall e He.
  apply list_elem_of_filter in He as [_ He]. auto.
Qed.

Lemma edges_distinct_filter (P : Edge -> Prop) `{!forall e, Decision (P e)} es :
  edges_distinct es -> edges_distinct (filter P es).
Proof.
  induction es as [|e es IH]; [done|].
  intros [H1 H2]. rewrite filter_cons. destruct (decide (P e)); simpl; auto.
  split; [by apply some_edge_connects_filter | auto].
Qed.

Lemma edges_distinct_snoc es e :
  edges_distinct es ->
  some_edge_connects es (getFirstNode e) (getSecondNode e) = false ->
  edges_distinct (es ++ [e]).
Proof.
  induction es as [|e' es IH]; simpl.
  - intros _ _. done.
  - intros [H1 H2] Hc.
    destruct (connects e' (getFirstNode e) (getSecondNode e)) eqn:E; [discriminate|].
    split; [|by apply IH].
    apply some_edge_connects_false. intros x Hx.
    apply elem_of_app in Hx as [Hx|Hx].
    + rewrite some_edge_connects_false in H1. auto.
    + apply list_elem_of_singleton in Hx as ->. by rewrite connects_swap.
Qed.

Lemma addPerson_ok g n : store_ok g -> store_ok (addPerson g n).
Proof.
  intros [Hn He Hi]. unfold addPerson.
  destruct (nodeExists g n) eqn:E; simpl; [by constructor|].
  apply nodeExists_false in E.
  constructor; simpl; [|done|].
  - apply NoDup_app. split; [done|]. split; [|apply NoDup_singleton].
    intros x Hx Hx'. apply list_elem_of_singleton in Hx' as ->. done.
  - intros e Hin. destruct (Hi e Hin) as (H1 & H2 & H3).
    repeat split; [apply elem_of_app; by left | apply elem_of_app; by left | done].
Qed.

Lemma removePerson_ok g n : store_ok g -> store_ok (snd (removePerson g n)).
Proof.
  intros [Hn He Hi]. unfold removePerson.
  destruct (nodeExists g n) eqn:E; simpl; [|by constructor].
  constructor; simpl.
  - by apply NoDup_filter.
  - by apply edges_distinct_filter.
  - intros e Hin. apply list_elem_of_filter in Hin as [Hk Hin].
    apply negb_true_iff, orb_false_iff in Hk as [K1 K2].
    apply node_eqb_false in K1, K2.
    destruct (Hi e Hin) as (H1 & H2 & H3).
    repeat split; [| |done]; apply list_elem_of_filter;
      (split; [apply negb_true_iff, node_eqb_false; done | done]).
Qed.

Lemma addFriend_ok g a b : store_ok g -> store_ok (addFriend g a b).
Proof.
  intros [Hn He Hi]. unfold addFriend.
  destruct (nodeExists g a) eqn:Ea; simpl; [|by constructor].
  destruct (nodeExists g b) eqn:Eb; simpl; [|by constructor].
  destruct (bool_decide (a = b)) eqn:Eab; simpl; [by constructor|].
  destruct (some_edge_connects (edgeList g) a b) eqn:Ec; simpl; [by constructor|].
  apply nodeExists_spec in Ea, Eb. apply bool_decide_eq_false in Eab.
  constructor; simpl; [done| |].
  - by apply edges_distinct_snoc.
  - intros e Hin. apply elem_of_app in Hin as [Hin|Hin]; [auto|].
    apply list_elem_of_singleton in Hin as ->. simpl. done.
Qed.

Lemma removeFriend_ok g a b : store_ok g -> store_ok (removeFriend g a b).
Proof.
  intros [Hn He Hi]. unfold removeFriend.
  constructor; simpl; [done| |].
  - by apply edges_distinct_filter.
  - intros e Hin. apply list_elem_of_filter in Hin as [_ Hin]. auto.
Qed.

Lemma run_mutator_ok g m : store_ok g -> store_ok (run_mutator g m).
Proof.
  destruct m; simpl;
    auto using addPerson_ok, removePerson_ok, addFriend_ok, removeFriend_ok.
Qed.

Lemma empty_graph_ok : store_ok empty_graph.
Proof.
  constructor; simpl; [apply NoDup_nil_2 | done |].
  intros e He. by apply elem_of_nil in He.
Qed.

Lemma fold_mutators_ok ms g : store_ok g -> store_ok (fold_left run_mutator ms g).
Proof.
  revert g. induction ms as [|m ms IH]; intros g Hg; simpl; [done|].
  apply IH. by apply run_mutator_ok.
Qed.

(** C7: every store built from the empty one by a sequence of [addPerson],
    [removePerson], [addFriend] and [removeFriend] calls has no two Persons
    with the same name, no two Friendships on the same unordered pair, and
    only Friendships whose two endpoints are distinct Persons of the store. *)
Theorem mutators_preserve_invariant (ms : list mutator) :
  let g := run_mutators ms in
  NoDup (nodes g)
  /\ edges_distinct (edgeList g)
  /\ (forall e, e ∈ edgeList g ->
        getFirstNode e ∈ nodes g /\ getSecondNode e ∈ nodes g
        /\ getFirstNode e <> getSecondNode e).
Proof.
  destruct (fold_mutators_ok ms empty_graph empty_graph_ok) as [H1 H2 H3].
  simpl. unfold run_mutators. auto.
Qed.

(** [edges_distinct] says what it should: two different positions of the
    edge list never hold the same unordered pair. *)
Lemma edges_distinct_lookup es i j e1 e2 :
  edges_distinct es -> es !! i = Some e1 -> es !! j = Some e2 ->
  connects e1 (getFirstNode e2) (getSecondNode e2) = true -> i = j.
Proof.
  revert i j. induction es as [|e es IH]; intros i j Hd Hi Hj Hc; [done|].
  destruct Hd as [Hd1 Hd2]. rewrite some_edge_connects_false in Hd1.
  destruct i as [|i], j as [|j]; simpl in *; simplify_eq; [done| | |].
  - apply list_elem_of_lookup_2 in Hj. rewrite connects_swap in Hc.
    rewrite (Hd1 _ Hj) in Hc. discriminate.
  - apply list_elem_of_lookup_2 in Hi.
    rewrite (Hd1 _ Hi) in Hc. discriminate.
  - f_equal. eauto.
Qed.

(** ** removePerson *)

(** C8: removing a present Person [p] returns [true] and leaves a store in
    which [p] is connected to nobody and is nobody's friend; removing an
    absent Person returns [false] and the store is unchanged. *)
Theorem removePerson_spec (g : SocialGraph) (p : string) :
  (p ∈ nodes g ->
     fst (removePerson g p) = true
     /\ (forall q, areConnected (snd (removePerson g p)) p q = false)
     /\ (forall x, p ∉ getFriends (snd (removePerson g p)) x))
  /\ (p ∉ nodes g -> removePerson g p = (false, g)).
Proof.
  split.
  - intros Hp. apply nodeExists_spec in Hp.
    assert (Hq : forall q, areConnected (snd (removePerson g p)) p q = false).
    { intros q. unfold removePerson, areConnected. rewrite Hp. simpl.
      apply some_edge_connects_false. intros e He.
      apply list_elem_of_filter in He as [Hk _].
      apply negb_true_iff, orb_false_iff in Hk as [K1 K2].
      apply node_eqb_false in K1, K2.
      apply not_true_iff_false. rewrite connects_spec. tauto. }
    split; [unfold removePerson; by rewrite Hp|]. split; [done|].
    intros x Hx. apply elem_of_getFriends in Hx.
    rewrite areConnected_sym, Hq in Hx. discriminate.
  - intros Hp. apply nodeExists_false in Hp. unfold removePerson. by rewrite Hp.
Qed.

Lemma removePerson_spec_witness :
  let g := mkGraph ["A"; "B"]%string [mkEdge "A" "B"] in
  (fst (removePerson g "A") = true
   /\ (forall q, areConnected (snd (removePerson g "A")) "A" q = false)
   /\ (forall x, "A"%string ∉ getFriends (snd (removePerson g "A")) x))
  /\ removePerson g "Z" = (false, g).
Proof.
  intros g. split.
  - apply (removePerson_spec g "A"). vm_compute. left.
  - apply (removePerson_spec g "Z"). vm_compute.
    intros H. repeat (apply elem_of_cons in H as [H|H]; [discriminate|]).
    by apply elem_of_nil in H.
Defined.

(** ** Recommendation ranker *)

Lemma has_node_spec l x : has_node l x = true <-> x ∈ l.
Proof.
  induction l as [|y l IH]; simpl.
  - split; [discriminate|]. intros H. by apply elem_of_nil in H.
  - destruct (node_eqb x y) eqn:E.
    + apply node_eqb_true in E as ->. split; [left|done].
    + apply node_eqb_false in E. rewrite IH, elem_of_cons. intuition congruence.
Qed.

Lemma has_node_getFriends g a x : has_node (getFriends g a) x = areConnected g a x.
Proof. apply eq_true_iff_eq. by rewrite has_node_spec, elem_of_getFriends. Qed.

Lemma countMutual_loop_filter aF bF c :
  countMutual_loop aF bF c
  = c + Z.of_nat (length (filter (fun x => has_node bF x = true) aF)).
Proof.
  revert c. induction aF as [|x aF IH]; intros c; simpl; [lia|].
  rewrite filter_cons. destruct (has_node bF x) eqn:E.
  - rewrite decide_True by done. rewrite IH. simpl length. lia.
  - rewrite decide_False by congruence. apply IH.
Qed.

Lemma incident_connects p e :
  incident p e = true -> connects e p (opposite p e) = true.
Proof.
  unfold incident, opposite. intros H. apply connects_spec.
  destruct (node_eqb (getFirstNode e) p) eqn:E1.
  - apply node_eqb_true in E1. by left.
  - simpl in H. apply node_eqb_true in H. by right.
Qed.

Lemma getFriends_NoDup g a : edges_distinct (edgeList g) -> NoDup (getFriends g a).
Proof.
  unfold getFriends. induction (edgeList g) as [|e es IH]; intros Hd.
  - apply NoDup_nil_2.
  - destruct Hd as [Hd1 Hd2]. rewrite getFriends_loop_cons.
    destruct (incident a e) eqn:E; simpl; [|auto].
    apply NoDup_cons. split; [|auto].
    intros Hin. change (opposite a e ∈ getFriends (mkGraph [] es) a) in Hin.
    apply elem_of_getFriends in Hin. unfold areConnected in Hin. simpl in Hin.
    apply some_edge_connects_spec in Hin as (e' & He' & Hc).
    rewrite some_edge_connects_false in Hd1. specialize (Hd1 e' He').
    apply incident_connects in E. apply connects_spec in E, Hc.
    apply not_true_iff_false in Hd1. apply Hd1, connects_spec.
    intuition congruence.
Qed.

Lemma areConnected_in_nodes g a b :
  store_ok g -> areConnected g a b = true -> a ∈ nodes g /\ b ∈ nodes g /\ a <> b.
Proof.
  intros Hok Hc. apply some_edge_connects_spec in Hc as (e & He & Hc).
  destruct (ok_ends g Hok e He) as (H1 & H2 & H3).
  apply connects_spec in Hc as [[<- <-]|[<- <-]]; auto.
Qed.

Lemma countMutualFriends_mutual_count g a b :
  store_ok g -> countMutualFriends g a b = mutual_count g a b.
Proof.
  intros Hok. unfold countMutualFriends, mutual_count, mutual_friends.
  rewrite countMutual_loop_filter. rewrite Z.add_0_l. f_equal.
  apply Permutation_length, NoDup_Permutation.
  - apply NoDup_filter, getFriends_NoDup, Hok.
  - apply NoDup_filter, Hok.
  - intros x. rewrite !list_elem_of_filter, has_node_spec, !elem_of_getFriends.
    rewrite andb_true_iff. split.
    + intros [H1 H2]. split; [done|]. by eapply areConnected_in_nodes.
    + tauto.
Qed.

Lemma potential_loop_filter g s cf ns acc :
  potential_loop g s cf ns acc
  = acc ++ map (fun p => (p, countMutualFriends g s p))
               (filter (fun p => loop_keeps g s cf p = true) ns).
Proof.
  revert acc. induction ns as [|n ns IH]; intros acc; simpl.
  - by rewrite app_nil_r.
  - rewrite filter_cons. destruct (loop_keeps g s cf n) eqn:K.
    + rewrite decide_True by done. unfold loop_keeps in K.
      apply andb_true_iff in K as [K K3]. apply andb_true_iff in K as [K1 K2].
      apply negb_true_iff in K1. rewrite K1, K2, K3.
      rewrite IH. simpl. by rewrite <- app_assoc.
    + rewrite decide_False by congruence. unfold loop_keeps in K.
      destruct (node_eqb n s); simpl in *; [apply IH|].
      destruct (has_node cf n); simpl in *; [apply IH|].
      rewrite K. apply IH.
Qed.

Lemma potential_loop_candidates g name :
  store_ok g ->
  potential_loop g name (getFriends g name) (nodes g) [] = candidates g name.
Proof.
  intros Hok. rewrite potential_loop_filter. simpl. unfold candidates.
  assert (Hq : forall p, loop_keeps g name (getFriends g name) p = qualifies g name p).
  { intros p. unfold loop_keeps, qualifies, node_eqb.
    by rewrite has_node_getFriends, countMutualFriends_mutual_count. }
  rewrite (list_filter_iff _ (fun p => qualifies g name p = true))
    by (intros p; by rewrite Hq).
  apply map_ext. intros p. by rewrite countMutualFriends_mutual_count.
Qed.

(** The [limit] computation for a positive [k]: the loop copies the first
    [k] entries, or all of them when there are fewer. *)
Lemma limit_positive {A} (l : list A) k :
  0 < k <= INT_MAX ->
  take (Z.to_nat (if to_size_t k <? Z.of_nat (length l) then k
                  else to_int (Z.of_nat (length l)))) l
  = take (Z.to_nat k) l.
Proof.
  unfold INT_MAX. intros Hk.
  assert (Hs : to_size_t k = k) by (unfold to_size_t; apply Z.mod_small; lia).
  rewrite Hs. destruct (k <? Z.of_nat (length l)) eqn:E; [done|].
  apply Z.ltb_ge in E.
  assert (Hi : to_int (Z.of_nat (length l)) = Z.of_nat (length l)).
  { unfold to_int. rewrite Z.mod_small; lia. }
  rewrite Hi, Nat2Z.id, firstn_all. symmetry. apply take_ge. lia.
Qed.

(** For [k = 0] the same computation copies nothing. *)
Lemma limit_zero {A} (l : list A) :
  take (Z.to_nat (if to_size_t 0 <? Z.of_nat (length l) then 0
                  else to_int (Z.of_nat (length l)))) l = [].
Proof.
  change (to_size_t 0) with 0.
  destruct (0 <? Z.of_nat (length l)) eqn:E; [done|].
  apply Z.ltb_ge in E. destruct l; [|simpl in E; lia]. done.
Qed.

(** A negative [k] is converted to a huge unsigned value before it is
    compared with the size, so the limit is the size and every candidate is
    returned. *)
Lemma limit_negative {A} (l : list A) k :
  INT_MIN <= k < 0 -> Z.of_nat (length l) <= INT_MAX ->
  take (Z.to_nat (if to_size_t k <? Z.of_nat (length l) then k
                  else to_int (Z.of_nat (length l)))) l = l.
Proof.
  unfold INT_MIN, INT_MAX. intros Hk Hl.
  assert (Hs : to_size_t k = k + 2 ^ 64).
  { unfold to_size_t. rewrite <- (Z.mod_add k 1 (2 ^ 64)) by lia.
    apply Z.mod_small. lia. }
  rewrite Hs. destruct (k + 2 ^ 64 <? Z.of_nat (length l)) eqn:E.
  { apply Z.ltb_lt in E. lia. }
  assert (Hi : to_int (Z.of_nat (length l)) = Z.of_nat (length l)).
  { unfold to_int. rewrite Z.mod_small; lia. }
  by rewrite Hi, Nat2Z.id, firstn_all.
Qed.

Lemma recommendFriends_zero sort g name : recommendFriends sort g name 0 = [].
Proof.
  unfold recommendFriends. destruct (nodeExists g name); simpl; [|done].
  by rewrite limit_zero.
Qed.

Lemma recommendFriends_unknown sort g name k :
  name ∉ nodes g -> recommendFriends sort g name k = [].
Proof.
  intros H. apply nodeExists_false in H. unfold recommendFriends. by rewrite H.
Qed.

Lemma recommendFriends_negative sort g name k :
  std_sort sort -> store_ok g -> name ∈ nodes g ->
  INT_MIN <= k < 0 -> Z.of_nat (length (nodes g)) <= INT_MAX ->
  recommendFriends sort g name k = map fst (sort (candidates g name)).
Proof.
  intros Hs Hok Hin Hk Hn. apply nodeExists_spec in Hin.
  unfold recommendFriends. rewrite Hin. simpl.
  rewrite potential_loop_candidates by done.
  rewrite limit_negative; [done|done|].
  rewrite (Permutation_length (sort_permutation _ Hs _)).
  unfold candidates. rewrite length_map.
  pose proof (length_filter (fun p => qualifies g name p = true) (nodes g)). lia.
Qed.

(** The two insertion sorts meet the [std::sort] contract. *)
Lemma insert_before_ties_perm x l : insert_before_ties x l ≡ₚ x :: l.
Proof.
  induction l as [|y l IH]; simpl; [done|].
  destruct (snd x <? snd y); [|done]. rewrite IH. apply Permutation_swap.
Qed.

Lemma insert_after_ties_perm x l : insert_after_ties x l ≡ₚ x :: l.
Proof.
  induction l as [|y l IH]; simpl; [done|].
  destruct (snd x <=? snd y); [|done]. rewrite IH. apply Permutation_swap.
Qed.

Lemma count_desc_trans a b c : count_desc a b -> count_desc b c -> count_desc a c.
Proof. unfold count_desc. lia. Qed.

Lemma insert_before_ties_sorted x l :
  StronglySorted count_desc l -> StronglySorted count_desc (insert_before_ties x l).
Proof.
  induction 1 as [|y l Hs IH Hall]; simpl.
  - repeat constructor.
  - destruct (snd x <? snd y) eqn:E.
    + apply Z.ltb_lt in E. constructor; [done|].
      rewrite insert_before_ties_perm. constructor; [unfold count_desc; lia | done].
    + apply Z.ltb_ge in E. constructor; [by constructor|].
      constructor; [done|].
      eapply Forall_impl; [exact Hall|]. intros z Hz. unfold count_desc in *. lia.
Qed.

Lemma insert_after_ties_sorted x l :
  StronglySorted count_desc l -> StronglySorted count_desc (insert_after_ties x l).
Proof.
  induction 1 as [|y l Hs IH Hall]; simpl.
  - repeat constructor.
  - destruct (snd x <=? snd y) eqn:E.
    + apply Z.leb_le in E. constructor; [done|].
      rewrite insert_after_ties_perm. constructor; [done | done].
    + apply Z.leb_gt in E. constructor; [by constructor|].
      constructor; [unfold count_desc; lia|].
      eapply Forall_impl; [exact Hall|]. intros z Hz. unfold count_desc in *. lia.
Qed.

Lemma sort_keep_ties_std : std_sort sort_keep_ties.
Proof.
  split; intros l; induction l as [|x l IH]; simpl.
  - done.
  - by rewrite insert_before_ties_perm, IH.
  - constructor.
  - by apply insert_before_ties_sorted.
Qed.

Lemma sort_flip_ties_std : std_sort sort_flip_ties.
Proof.
  split; intros l; induction l as [|x l IH]; simpl.
  - done.
  - by rewrite insert_after_ties_perm, IH.
  - constructor.
  - by apply insert_after_ties_sorted.
Qed.

Lemma run_mutators_ok ms : store_ok (run_mutators ms).
Proof. apply fold_mutators_ok, empty_graph_ok. Qed.

(** C2 (the code departs from it): for a negative [k] the comparison
    [k < potentialFriends.size()] is made on unsigned values, the limit
    becomes the number of candidates, and the call returns every candidate
    instead of the empty sequence.  In the store A-B, A-C, D-B, D-C the call
    [recommendFriends("A", -1)] returns [D]. *)
Theorem recommendFriends_negative_k_returns_candidates
    (sort : list (Node * Z) -> list (Node * Z)) :
  std_sort sort -> recommendFriends sort square_graph "A" (-1) = ["D"]%string.
Proof.
  intros Hs.
  rewrite recommendFriends_negative; [|done|apply run_mutators_ok|..].
  - change (candidates square_graph "A") with [("D"%string, 2)].
    pose proof (sort_permutation _ Hs [("D"%string, 2)]) as Hp.
    apply Permutation_singleton_r in Hp. by rewrite Hp.
  - vm_compute. left.
  - vm_compute. split; [discriminate|done].
  - vm_compute. discriminate.
Qed.

Lemma recommendFriends_negative_k_returns_candidates_witness :
  recommendFriends sort_keep_ties square_graph "A" (-1) = ["D"]%string.
Proof.
  apply (recommendFriends_negative_k_returns_candidates sort_keep_ties).
  exact sort_keep_ties_std.
Defined.

(** C3, as the code has it: for a present Person and [0 < k], the result
    lists the first [k] names of a ranking of exactly the qualifying
    candidates (other Persons, not friends, at least one mutual friend) by
    mutual-friend count, descending.  The order among candidates with equal
    counts is whatever [std::sort] leaves; the contract of [std::sort] does
    not fix it. *)
Theorem recommendFriends_ranked
    (sort : list (Node * Z) -> list (Node * Z)) (g : SocialGraph) (name : string) (k : Z) :
  std_sort sort -> store_ok g -> name ∈ nodes g -> 0 < k <= INT_MAX ->
  exists ranked,
    ranked ≡ₚ candidates g name
    /\ StronglySorted count_desc ranked
    /\ recommendFriends sort g name k = map fst (take (Z.to_nat k) ranked).
Proof.
  intros Hs Hok Hin Hk. exists (sort (candidates g name)).
  split; [apply (sort_permutation _ Hs)|]. split; [apply (sort_sorted _ Hs)|].
  apply nodeExists_spec in Hin. unfold recommendFriends. rewrite Hin. simpl.
  rewrite potential_loop_candidates by done. by rewrite limit_positive.
Qed.

Lemma recommendFriends_ranked_witness :
  exists ranked,
    ranked ≡ₚ candidates star_graph "A"
    /\ StronglySorted count_desc ranked
    /\ recommendFriends sort_keep_ties star_graph "A" 5 = map fst (take (Z.to_nat 5) ranked).
Proof.
  apply (recommendFriends_ranked sort_keep_ties star_graph "A" 5).
  - exact sort_keep_ties_std.
  - apply run_mutators_ok.
  - vm_compute. left.
  - vm_compute. split; [done|discriminate].
Defined.

Example recommendFriends_square_then_leaf :
  recommendFriends sort_keep_ties
    (run_mutators [AddPerson "A"; AddPerson "B"; AddPerson "C"; AddPerson "E"; AddPerson "D";
                   AddFriend "A" "B"; AddFriend "A" "C"; AddFriend "D" "B";
                   AddFriend "D" "C"; AddFriend "E" "B"])
    "A" 5 = ["D"; "E"]%string.
Proof. vm_compute. reflexivity. Qed.

Example recommendFriends_star :
  recommendFriends sort_keep_ties star_graph "A" 5 = ["C"; "D"]%string
  /\ recommendFriends sort_flip_ties star_graph "A" 5 = ["D"; "C"]%string
  /\ recommend_spec star_graph "A" 5 = ["C"; "D"]%string.
Proof. repeat split; vm_compute; reflexivity. Qed.

(** With a sort that keeps ties in their input order the ranking is the one
    the specification describes. *)
Lemma recommendFriends_keep_ties g name k :
  store_ok g -> name ∈ nodes g -> 0 < k <= INT_MAX ->
  recommendFriends sort_keep_ties g name k = recommend_spec g name k.
Proof.
  intros Hok Hin Hk.
  apply nodeExists_spec in Hin. unfold recommendFriends, recommend_spec. rewrite Hin. simpl.
  rewrite potential_loop_candidates by done. by rewrite limit_positive.
Qed.

(** The contract of [std::sort] alone does not fix the order of ties: in
    the store A-B, C-B, D-B the candidates for A are C and D, both with one
    mutual friend, and a sort that meets the contract may return D before
    C. *)
Lemma std_sort_leaves_ties_open :
  ~ (forall (sort : list (Node * Z) -> list (Node * Z)) g name k,
       std_sort sort -> store_ok g -> name ∈ nodes g -> 0 < k <= INT_MAX ->
       recommendFriends sort g name k = recommend_spec g name k).
Proof.
  intros H.
  specialize (H sort_flip_ties star_graph "A"%string 5 sort_flip_ties_std
                (run_mutators_ok _)).
  assert (Hin : "A"%string ∈ nodes star_graph) by (vm_compute; left).
  assert (Hk : 0 < 5 <= INT_MAX) by (vm_compute; split; [done|discriminate]).
  specialize (H Hin Hk). vm_compute in H. discriminate.
Qed.

(** ** The ranking with the sort of libstdc++ *)

(** Up to 16 candidates the library sort is a plain insertion sort, which
    leaves ties where they are: in the store A-B, C-B, D-B the call returns
    C before D. *)
Example recommendFriends_star_gnu :
  recommendFriends gnu_sort star_graph "A" 5 = ["C"; "D"]%string.
Proof. vm_compute. reflexivity. Qed.

(** With twenty candidates of equal count the partitioning step runs once:
    the middle element P11 is swapped to the front as pivot and the others
    are exchanged end for end around it. *)
Example gnu_sort_crowd :
  potential_loop crowd_graph "A" (getFriends crowd_graph "A") (nodes crowd_graph) []
  = map (fun p => (p, 1)) crowd_names
  /\ GnuSort.sort count_gt (map (fun p => (p, 1)) crowd_names)
    = Some (map (fun p => (p, 1))
              ["P11"; "P20"; "P19"; "P18"; "P17"; "P16"; "P15"; "P14"; "P13"; "P12";
               "P01"; "P10"; "P09"; "P08"; "P07"; "P06"; "P05"; "P04"; "P03"; "P02"]%string).
Proof. split; vm_compute; reflexivity. Qed.

Example recommendFriends_crowd :
  recommendFriends gnu_sort crowd_graph "A" 3 = ["P11"; "P20"; "P19"]%string
  /\ recommend_spec crowd_graph "A" 3 = ["P01"; "P02"; "P03"]%string
  /\ recommendFriends gnu_sort crowd_graph "A" 20
     = ["P11"; "P20"; "P19"; "P18"; "P17"; "P16"; "P15"; "P14"; "P13"; "P12";
        "P01"; "P10"; "P09"; "P08"; "P07"; "P06"; "P05"; "P04"; "P03"; "P02"]%string
  /\ recommend_spec crowd_graph "A" 20 = crowd_names.
Proof. repeat split; vm_compute; reflexivity. Qed.

(** C3 as stated fails: ties do not always come out in Person insertion
    order.  In the store where A and twenty others, P01 to P20 in that
    order, are each friends with B only, the twenty are candidates for A
    with one mutual friend each; [recommendFriends("A", 3)], run with the
    [std::sort] of libstdc++, returns P11, P20, P19, where insertion order
    asks for P01, P02, P03. *)
Lemma recommendFriends_gnu_tie_order_counterexample :
  ~ (forall g name k,
       store_ok g -> name ∈ nodes g -> 0 < k <= INT_MAX ->
       recommendFriends gnu_sort g name k = recommend_spec g name k).
Proof.
  intros H.
  specialize (H crowd_graph "A"%string 3 (run_mutators_ok _)).
  assert (Hin : "A"%string ∈ nodes crowd_graph) by (vm_compute; left).
  assert (Hk : 0 < 3 <= INT_MAX) by (vm_compute; split; [done|discriminate]).
  specialize (H Hin Hk). vm_compute in H. discriminate.
Qed.

(** ** Path search: evaluation on small stores *)

Example shortestPath_chain :
  shortestPath (run_mutators [AddPerson "A"; AddPerson "B"; AddPerson "C"; AddPerson "D";
                              AddFriend "A" "B"; AddFriend "B" "C"; AddFriend "C" "D"])
               "A" "D" = Some ["A"; "B"; "C"; "D"]%string.
Proof. vm_compute. reflexivity. Qed.

Example shortestPathAvoiding_chain :
  let g := run_mutators [AddPerson "A"; AddPerson "B"; AddPerson "C"; AddPerson "D";
                         AddFriend "A" "B"; AddFriend "B" "C"; AddFriend "C" "D"] in
  shortestPathAvoiding g "A" "D" ["C"]%string = Some []
  /\ shortestPathAvoiding (addFriend g "A" "D") "A" "D" ["C"]%string
     = Some ["A"; "D"]%string.
Proof. split; vm_compute; reflexivity. Qed.

Example shortestPath_diamond :
  shortestPath diamond_graph "A" "D" = Some ["A"; "C"; "D"]%string
  /\ bfs_path (getFriends diamond_graph) diamond_graph "A" "D" = Some ["A"; "C"; "D"]%string
  /\ bfs_path (friends_in_person_order diamond_graph) diamond_graph "A" "D"
     = Some ["A"; "B"; "D"]%string.
Proof. repeat split; vm_compute; reflexivity. Qed.

(** C1 (the code departs from it): the start node is put into the queue
    without being compared with the blacklist, so an excluded [from] still
    heads the returned path.  In the store A-B, avoiding A, the search from A
    to B returns [A; B] and the search from A to A returns [A]; the
    specification wants both to be empty. *)
Theorem shortestPathAvoiding_excluded_start :
  shortestPathAvoiding pair_graph "A" "B" ["A"]%string = Some ["A"; "B"]%string
  /\ shortestPathAvoiding pair_graph "A" "A" ["A"]%string = Some ["A"]%string.
Proof. split; vm_compute; reflexivity. Qed.

(** An excluded [to] different from [from] is never entered into the queue. *)
Example shortestPathAvoiding_excluded_end :
  shortestPathAvoiding pair_graph "A" "B" ["B"]%string = Some [].
Proof. vm_compute. reflexivity. Qed.

(** C4 as stated fails: with edges entered as A-C, A-B, B-D, C-D the search
    from A to D returns [A; C; D], whereas expanding neighbours in Person
    insertion order selects [A; B; D]. *)
Lemma shortestPath_person_order_counterexample :
  ~ (forall g from to, store_ok g -> from ∈ nodes g -> to ∈ nodes g ->
       shortestPath g from to = bfs_path (friends_in_person_order g) g from to).
Proof.
  intros H.
  specialize (H diamond_graph "A"%string "D"%string (run_mutators_ok _)).
  assert (H1 : "A"%string ∈ nodes diamond_graph) by (vm_compute; left).
  assert (H2 : "D"%string ∈ nodes diamond_graph)
    by (vm_compute; do 3 right; left).
  specialize (H H1 H2). vm_compute in H. discriminate.
Qed.

(** ** shortestPath from a Person to itself *)

Lemma vget_lookup {A} (v : list A) (i : nat) : vget v (Z.of_nat i) = v !! i.
Proof. unfold vget. rewrite decide_True by lia. by rewrite Nat2Z.id. Qed.

Lemma vset_insert {A} (v : list A) (i : nat) x :
  (i < length v)%nat -> vset v (Z.of_nat i) x = Some (<[i := x]> v).
Proof. intros H. unfold vset. rewrite decide_True by lia. by rewrite Nat2Z.id. Qed.

Lemma find_endpoints_same ns j x :
  0 <= j -> x ∈ ns ->
  exists i : nat, ns !! i = Some x
    /\ find_endpoints ns j x x (-1) (-1) = (j + Z.of_nat i, j + Z.of_nat i).
Proof.
  revert j. induction ns as [|n ns IH]; intros j Hj Hin.
  - by apply elem_of_nil in Hin.
  - simpl. destruct (node_eqb n x) eqn:E.
    + apply node_eqb_true in E as ->. exists 0%nat. split; [done|].
      replace (j =? -1) with false by (symmetry; apply Z.eqb_neq; lia).
      simpl. by rewrite Z.add_0_r.
    + apply node_eqb_false in E. simpl.
      apply elem_of_cons in Hin as [->|Hin]; [done|].
      destruct (IH (j + 1) ltac:(lia) Hin) as (i & Hi & Hf).
      exists (S i). split; [done|]. rewrite Hf. f_equal; lia.
Qed.

(** C6: the search from a Person to itself returns that single name when
    the Person is in the store, and nothing otherwise. *)
Theorem shortestPath_self (g : SocialGraph) (x : string) :
  (x ∈ nodes g -> shortestPath g x x = Some [x])
  /\ (x ∉ nodes g -> shortestPath g x x = Some []).
Proof.
  split; intros Hx.
  - destruct (find_endpoints_same (nodes g) 0 x ltac:(lia) Hx) as (i & Hi & Hf).
    pose proof (lookup_lt_Some _ _ _ Hi) as Hlt.
    apply nodeExists_spec in Hx. unfold shortestPath. rewrite Hx. simpl negb. simpl orb.
    cbv iota. rewrite Hf. rewrite !Z.add_0_l.
    rewrite !vset_insert by (by rewrite length_replicate).
    destruct (length (nodes g)) as [|n] eqn:En; [lia|].
    cbn [mbind option_bind bfs_loop st_queue]. rewrite Z.eqb_refl.
    cbn [mbind option_bind walk_parents st_parent].
    replace (Z.of_nat i =? -1) with false by (symmetry; apply Z.eqb_neq; lia).
    rewrite vget_lookup, list_lookup_insert_eq by (rewrite length_replicate; lia).
    cbn [mbind option_bind walk_parents]. change (-1 =? -1) with true. cbv iota.
    cbn [mbind option_bind app]. change (reverse [Z.of_nat i]) with [Z.of_nat i].
    cbn [mapM]. rewrite vget_lookup, Hi. done.
  - apply nodeExists_false in Hx. unfold shortestPath. by rewrite Hx.
Qed.

Lemma shortestPath_self_witness :
  shortestPath pair_graph "B" "B" = Some ["B"]%string
  /\ shortestPath pair_graph "Z" "Z" = Some [].
Proof.
  split.
  - apply (shortestPath_self pair_graph "B"). vm_compute. right. left.
  - apply (shortestPath_self pair_graph "Z"). vm_compute.
    intros H. repeat (apply elem_of_cons in H as [H|H]; [discriminate|]).
    by apply elem_of_nil in H.
Defined.

(** ** The reference search is correct *)

Lemma linked_snoc g w u v :
  linked g w -> last w = Some u -> areConnected g u v = true -> linked g (w ++ [v]).
Proof.
  induction w as [|x w IH]; [done|].
  intros Hl Hlast Hc. destruct w as [|y w].
  - simpl in Hlast. simplify_eq. simpl. done.
  - destruct Hl as [Hxy Hl]. simpl. split; [done|].
    apply IH; [done| |done]. by rewrite last_cons_cons in Hlast.
Qed.

Lemma unreached_insert g (d : gmap Node nat) y v :
  d !! y = None -> y ∈ nodes g ->
  (S (unreached g (<[y := v]> d)) <= unreached g d)%nat.
Proof.
  unfold unreached. intros Hy. induction (nodes g) as [|x l IH]; intros Hin.
  - by apply elem_of_nil in Hin.
  - rewrite !filter_cons. destruct (decide (x = y)) as [->|Hne].
    + rewrite lookup_insert_eq. rewrite decide_False by done.
      rewrite decide_True by done. simpl.
      apply le_n_S. clear IH Hin. induction l as [|z l IH]; [done|].
      rewrite !filter_cons. destruct (decide (z = y)) as [->|Hz].
      * rewrite lookup_insert_eq, decide_False by done.
        rewrite decide_True by done. simpl. lia.
      * rewrite lookup_insert_ne by done.
        destruct (decide (d !! z = None)); simpl; lia.
    + apply elem_of_cons in Hin as [->|Hin]; [done|].
      rewrite lookup_insert_ne by done. specialize (IH Hin).
      destruct (decide (d !! x = None)); simpl; lia.
Qed.

Lemma visited_size_le g (d : gmap Node nat) :
  NoDup (nodes g) -> (forall x, is_Some (d !! x) -> x ∈ nodes g) ->
  (size d <= length (nodes g))%nat.
Proof.
  intros Hnd Hsub. rewrite <- size_dom.
  rewrite <- (size_list_to_set (C := gset Node) (nodes g)) by done.
  apply subseteq_size. intros x Hx. apply elem_of_dom in Hx.
  apply elem_of_list_to_set. auto.
Qed.

Section RefSearch.
Context (g : SocialGraph) (s t : Node).
Hypothesis Hok : store_ok g.

Lemma search_inv_init : s ∈ nodes g -> search_inv g s t [s] {[ s := 0%nat ]} ∅.
Proof.
  intros Hs. constructor.
  - apply lookup_singleton_eq.
  - intros x Hx. apply list_elem_of_singleton in Hx as ->.
    rewrite lookup_singleton_eq. eauto.
  - intros x [dx Hx]. apply lookup_singleton_Some in Hx as [<- _]. done.
  - exists 0%nat, [s], []. split; [done|]. split.
    { intros x Hx. apply list_elem_of_singleton in Hx as ->. apply lookup_singleton_eq. }
    split; [intros x Hx; by apply elem_of_nil in Hx|].
    split; [|done]. intros x dx Hx. apply lookup_singleton_Some in Hx as [_ <-]. lia.
  - intros x dx Hx. apply lookup_singleton_Some in Hx as [<- <-].
    rewrite lookup_empty. done.
  - intros x y [dx Hx] Hnin _. apply lookup_singleton_Some in Hx as [<- _].
    exfalso. apply Hnin. left.
  - intros x y dx dy Hx Hy _.
    apply lookup_singleton_Some in Hx as [_ <-].
    apply lookup_singleton_Some in Hy as [_ <-]. lia.
  - intros [dt Ht]. apply lookup_singleton_Some in Ht as [<- _]. left.
  - intros x dx Hx. apply lookup_singleton_Some in Hx as [_ <-].
    rewrite map_size_singleton. lia.
Qed.

(** One new Person [y] is reached from the Person [cur] being expanded. *)
Lemma search_inv_reach cur q d p dc y :
  search_inv g s t (cur :: q) d p ->
  d !! cur = Some dc -> d !! y = None -> areConnected g cur y = true ->
  search_inv g s t (cur :: (q ++ [y])) (<[y := S dc]> d) (<[y := cur]> p).
Proof.
  intros [I1 I2 I3 I4 I5 I6 I7 I8 I9] Hcur Hy Hadj.
  destruct I4 as (k & A & B & HF & HA & HB & Hmax & HAB).
  assert (Hk : dc = k).
  { destruct A as [|a A]; [rewrite (HAB eq_refl) in HF; discriminate|].
    simpl in HF. injection HF as <- _.
    specialize (HA cur ltac:(left)). congruence. }
  subst k.
  assert (Hne : forall x, is_Some (d !! x) -> x <> y).
  { intros x [dx Hx] ->. congruence. }
  constructor.
  - rewrite lookup_insert_ne; [done|]. intros ->. congruence.
  - intros x Hx. destruct (decide (x = y)) as [->|Hxy].
    + rewrite lookup_insert_eq. eauto.
    + rewrite lookup_insert_ne by done. apply I2.
      rewrite app_comm_cons in Hx. apply elem_of_app in Hx as [Hx|Hx]; [done|].
      apply list_elem_of_singleton in Hx. done.
  - intros x Hx. destruct (decide (x = y)) as [->|Hxy].
    + by eapply areConnected_in_nodes.
    + rewrite lookup_insert_ne in Hx by done. auto.
  - exists dc, A, (B ++ [y]). split.
    { rewrite app_comm_cons, HF. by rewrite app_assoc. }
    split.
    { intros x Hx. rewrite lookup_insert_ne; [auto|].
      intros ->. rewrite (HA _ Hx) in Hy. discriminate. }
    split.
    { intros x Hx. apply elem_of_app in Hx as [Hx|Hx].
      - rewrite lookup_insert_ne; [auto|].
        intros ->. rewrite (HB _ Hx) in Hy. discriminate.
      - apply list_elem_of_singleton in Hx as ->. apply lookup_insert_eq. }
    split.
    { intros x dx Hx. destruct (decide (x = y)) as [->|Hxy].
      - rewrite lookup_insert_eq in Hx. injection Hx as <-. lia.
      - rewrite lookup_insert_ne in Hx by done. eauto. }
    intros ->. rewrite (HAB eq_refl) in HF. discriminate.
  - intros x dx Hx. destruct (decide (x = y)) as [->|Hxy].
    + rewrite lookup_insert_eq in Hx. injection Hx as <-.
      rewrite lookup_insert_eq. exists dc. split; [|done].
      rewrite lookup_insert_ne; [done|]. intros ->. congruence.
    + rewrite lookup_insert_ne in Hx by done.
      rewrite lookup_insert_ne by done.
      specialize (I5 x dx Hx). destruct (p !! x) as [u|]; [|done].
      destruct I5 as (du & Hu & Hd & Ha). exists du.
      split; [|done]. rewrite lookup_insert_ne; [done|].
      intros ->. congruence.
  - intros x z Hx Hnin Hxz.
    assert (Hxy : x <> y).
    { intros ->. apply Hnin. right. apply elem_of_app. right. left. }
    rewrite lookup_insert_ne in Hx by done.
    assert (Hz : is_Some (d !! z)).
    { apply (I6 x z Hx); [|done]. intros Hin. apply Hnin.
      rewrite app_comm_cons. apply elem_of_app. by left. }
    rewrite lookup_insert_ne; [done|]. intros ->. by apply (Hne _ Hz).
  - intros x z dx dz Hx Hz Hxz.
    destruct (decide (x = y)) as [->|Hxy]; destruct (decide (z = y)) as [->|Hzy].
    + rewrite Hx in Hz. injection Hz as <-. lia.
    + rewrite lookup_insert_eq in Hx. injection Hx as <-.
      rewrite lookup_insert_ne in Hz by done. specialize (Hmax _ _ Hz). lia.
    + rewrite lookup_insert_eq in Hz. injection Hz as <-.
      rewrite lookup_insert_ne in Hx by done.
      destruct (decide (dc <= dx)%nat) as [|Hlt]; [lia|]. exfalso.
      assert (Hnin : x ∉ cur :: q).
      { rewrite HF. intros Hin. apply elem_of_app in Hin as [Hin|Hin].
        - rewrite (HA _ Hin) in Hx. injection Hx as <-. lia.
        - rewrite (HB _ Hin) in Hx. injection Hx as <-. lia. }
      destruct (I6 x y ltac:(eauto) Hnin Hxz) as [dy' Hy']. congruence.
    + rewrite lookup_insert_ne in Hx, Hz by done. eauto.
  - intros Ht. destruct (decide (t = y)) as [->|Hty].
    + right. apply elem_of_app. right. left.
    + rewrite lookup_insert_ne in Ht by done.
      specialize (I8 Ht). rewrite app_comm_cons. apply elem_of_app. by left.
  - intros x dx Hx. rewrite map_size_insert_None by done.
    destruct (decide (x = y)) as [->|Hxy].
    + rewrite lookup_insert_eq in Hx. injection Hx as <-.
      specialize (I9 _ _ Hcur). lia.
    + rewrite lookup_insert_ne in Hx by done. specialize (I9 _ _ Hx). lia.
Qed.
End RefSearch.

Section RefLoop.
Context (g : SocialGraph) (s t : Node).
Hypothesis Hok : store_ok g.

(** Once all its neighbours are reached, the expanded Person is closed. *)
Lemma search_inv_close cur q d p :
  search_inv g s t (cur :: q) d p -> cur <> t ->
  (forall y, areConnected g cur y = true -> is_Some (d !! y)) ->
  search_inv g s t q d p.
Proof.
  intros [I1 I2 I3 I4 I5 I6 I7 I8 I9] Hct Hall.
  constructor; try done.
  - intros x Hx. apply I2. by right.
  - destruct I4 as (k & A & B & HF & HA & HB & Hmax & HAB).
    destruct A as [|a A]; [rewrite (HAB eq_refl) in HF; discriminate|].
    simpl in HF. injection HF as <- ->.
    destruct A as [|a' A].
    + exists (S k), B, []. rewrite app_nil_r. split; [done|].
      split; [done|]. split; [intros x Hx; by apply elem_of_nil in Hx|].
      split; [|done]. intros x dx Hx. specialize (Hmax _ _ Hx). lia.
    + exists k, (a' :: A), B. split; [done|]. split.
      { intros x Hx. apply HA. by right. }
      split; [done|]. split; [done|]. discriminate.
  - intros x y Hx Hnin Hxy. destruct (decide (x = cur)) as [->|Hne]; [auto|].
    apply (I6 x y Hx); [|done]. intros Hin.
    apply elem_of_cons in Hin as [?|?]; done.
  - intros Ht. specialize (I8 Ht). apply elem_of_cons in I8 as [?|?]; [congruence|done].
Qed.

Lemma ref_expand_inv neighbors : forall cur dc r,
  search_inv g s t (cur :: rq r) (rdist r) (rparent r) ->
  rdist r !! cur = Some dc ->
  (forall y, y ∈ neighbors -> areConnected g cur y = true) ->
  let r' := ref_expand neighbors cur dc r in
  search_inv g s t (cur :: rq r') (rdist r') (rparent r')
  /\ (forall x, is_Some (rdist r !! x) -> rdist r' !! x = rdist r !! x)
  /\ (forall y, y ∈ neighbors -> is_Some (rdist r' !! y))
  /\ (search_measure g r' <= search_measure g r)%nat.
Proof.
  induction neighbors as [|y rest IH]; intros cur dc r Hinv Hcur Hadj; simpl.
  - split; [done|]. split; [done|]. split; [|done].
    intros y Hy. by apply elem_of_nil in Hy.
  - assert (Hrest : forall z, z ∈ rest -> areConnected g cur z = true)
      by (intros z Hz; apply Hadj; by right).
    destruct (rdist r !! y) as [dy|] eqn:Ey.
    + destruct (IH cur dc r Hinv Hcur Hrest) as (H1 & H2 & H3 & H4).
      split; [done|]. split; [done|]. split; [|done].
      intros z Hz. apply elem_of_cons in Hz as [->|Hz]; [|auto].
      rewrite H2; eauto.
    + set (r1 := mkRef (rq r ++ [y]) (<[y := S dc]> (rdist r)) (<[y := cur]> (rparent r))).
      assert (Hy : areConnected g cur y = true) by (apply Hadj; left).
      assert (Hinv1 : search_inv g s t (cur :: rq r1) (rdist r1) (rparent r1)).
      { simpl. by apply search_inv_reach. }
      assert (Hcur1 : rdist r1 !! cur = Some dc).
      { simpl. rewrite lookup_insert_ne; [done|]. intros ->. congruence. }
      destruct (IH cur dc r1 Hinv1 Hcur1 Hrest) as (H1 & H2 & H3 & H4).
      split; [done|]. split; [|split].
      * intros x Hx. rewrite H2.
        -- simpl. rewrite lookup_insert_ne; [done|]. intros ->.
           destruct Hx as [? Hx]. congruence.
        -- simpl. rewrite lookup_insert_ne; [done|]. intros ->.
           destruct Hx as [? Hx]. congruence.
      * intros z Hz. apply elem_of_cons in Hz as [->|Hz]; [|auto].
        rewrite H2; simpl; rewrite lookup_insert_eq; eauto.
      * etransitivity; [exact H4|]. unfold search_measure. simpl.
        rewrite length_app. simpl.
        pose proof (unreached_insert g (rdist r) y (S dc) Ey) as Hu.
        destruct (areConnected_in_nodes g cur y Hok Hy) as (_ & Hyn & _).
        specialize (Hu Hyn). lia.
Qed.

(** Along a walk that starts at a reached Person and stays below the
    depth of every open Person, every Person is reached, at a depth that
    grows by at most one per step. *)
Lemma walk_depth F d p (bound : nat) :
  search_inv g s t F d p ->
  (forall z dz, z ∈ F -> d !! z = Some dz -> (bound <= dz)%nat) ->
  forall w x dx, linked g (x :: w) -> d !! x = Some dx ->
    (dx + length w < bound)%nat ->
    exists y dy, last (x :: w) = Some y /\ d !! y = Some dy
                 /\ (dy <= dx + length w)%nat.
Proof.
  intros Hinv Hb. induction w as [|y w IH]; intros x dx Hl Hx Hlen.
  - exists x, dx. simpl. split; [done|]. split; [done|lia].
  - destruct Hl as [Hxy Hl]. simpl in Hlen.
    assert (Hnin : x ∉ F).
    { intros Hin. specialize (Hb _ _ Hin Hx). lia. }
    destruct (inv_closed _ _ _ _ _ _ Hinv x y ltac:(eauto) Hnin Hxy) as [dy Hy].
    pose proof (inv_step _ _ _ _ _ _ Hinv x y dx dy Hx Hy Hxy) as Hs.
    destruct (IH y dy Hl Hy ltac:(lia)) as (z & dz & Hz1 & Hz2 & Hz3).
    exists z, dz. rewrite last_cons_cons. split; [done|]. split; [done|simpl; lia].
Qed.

Lemma ref_loop_correct (nbrs : Node -> list Node) :
  (forall x y, y ∈ nbrs x <-> areConnected g x y = true) ->
  forall fuel r,
    search_inv g s t (rq r) (rdist r) (rparent r) ->
    (search_measure g r < fuel)%nat ->
    exists b r', ref_loop nbrs fuel t r = Some (b, r')
      /\ if b : bool then
           exists k F, rdist r' !! t = Some k
             /\ search_inv g s t F (rdist r') (rparent r')
             /\ (forall w, is_path g s t w -> (S k <= length w)%nat)
         else forall w, ~ is_path g s t w.
Proof.
  intros Hn. induction fuel as [|fuel IH]; intros r Hinv Hm; [lia|].
  simpl. destruct (rq r) as [|cur rest] eqn:Eq.
  - exists false, r. split; [done|].
    intros w (Hh & Hlast & Hl). destruct w as [|x w]; [done|].
    simpl in Hh. injection Hh as ->.
    destruct (walk_depth [] _ _ (S (length w)) Hinv) with (w := w) (x := s) (dx := 0%nat)
      as (y & dy & Hy1 & Hy2 & _); [|done|apply Hinv|lia|].
    { intros z dz Hz. by apply elem_of_nil in Hz. }
    rewrite Hlast in Hy1. injection Hy1 as <-.
    pose proof (inv_target _ _ _ _ _ _ Hinv ltac:(eauto)) as Ht.
    by apply elem_of_nil in Ht.
  - destruct (bool_decide (cur = t)) eqn:Ect.
    + apply bool_decide_eq_true in Ect as ->.
      exists true, (mkRef rest (rdist r) (rparent r)). split; [done|].
      destruct (inv_levels _ _ _ _ _ _ Hinv) as (k & A & B & HF & HA & HB & Hmax & HAB).
      destruct A as [|a A]; [rewrite (HAB eq_refl) in HF; discriminate|].
      simpl in HF. injection HF as <- ->.
      exists k, (t :: A ++ B). simpl. split; [apply HA; left|]. split; [done|].
      intros w (Hh & Hlast & Hl). destruct w as [|x w]; [done|].
      simpl in Hh. injection Hh as ->. simpl.
      destruct (decide (length w < k)%nat) as [Hlt|]; [exfalso|lia].
      destruct (walk_depth _ _ _ k Hinv) with (w := w) (x := s) (dx := 0%nat)
        as (y & dy & Hy1 & Hy2 & Hy3); [|done|apply Hinv|lia|].
      { intros z dz Hz Hdz. rewrite app_comm_cons in Hz.
        apply elem_of_app in Hz as [Hz|Hz].
        - rewrite (HA _ Hz) in Hdz. injection Hdz as <-. lia.
        - rewrite (HB _ Hz) in Hdz. injection Hdz as <-. lia. }
      rewrite Hlast in Hy1. injection Hy1 as <-.
      rewrite (HA t ltac:(left)) in Hy2. injection Hy2 as <-. lia.
    + apply bool_decide_eq_false in Ect.
      destruct (inv_open _ _ _ _ _ _ Hinv cur ltac:(left)) as [dc Hdc].
      simpl. rewrite Hdc. simpl.
      set (r0 := mkRef rest (rdist r) (rparent r)).
      destruct (ref_expand_inv (nbrs cur) cur dc r0) as (H1 & H2 & H3 & H4);
        [done|done|intros y Hy; by apply Hn|].
      apply IH.
      * eapply search_inv_close; [exact H1|done|].
        intros y Hy. apply H3. by apply Hn.
      * unfold search_measure in *. rewrite Eq in Hm. simpl in *. lia.
Qed.

(** Following the recorded parents from a reached Person leads back to
    the start along friendships, in as many steps as the recorded depth. *)
Lemma ref_walk_ok F d p :
  search_inv g s t F d p ->
  forall dv v acc fuel, d !! v = Some dv -> (dv < fuel)%nat ->
    exists w, ref_walk fuel p v acc = Some (w ++ acc)
      /\ head w = Some s /\ last w = Some v /\ linked g w /\ length w = S dv.
Proof.
  intros Hinv. induction dv as [|dv IH]; intros v acc fuel Hv Hf;
    (destruct fuel as [|fuel]; [lia|]); simpl;
    pose proof (inv_parent _ _ _ _ _ _ Hinv v _ Hv) as Hp;
    destruct (p !! v) as [u|].
  - destruct Hp as (du & _ & ? & _). lia.
  - destruct Hp as [-> _]. exists [s]. done.
  - destruct Hp as (du & Hu & Hd & Ha). injection Hd as <-.
    destruct (IH u (v :: acc) fuel Hu ltac:(lia)) as (w & Hw & Hh & Hl & Hlk & Hlen).
    exists (w ++ [v]). rewrite <- app_assoc. split; [done|].
    split; [destruct w; [done|done]|]. split; [apply last_snoc|].
    split; [by eapply linked_snoc|]. rewrite length_app. simpl. lia.
  - destruct Hp as [_ ?]. lia.
Qed.

Lemma search_measure_init : s ∈ nodes g ->
  (search_measure g (ref_init s) <= length (nodes g))%nat.
Proof.
  intros Hs. unfold search_measure, ref_init. simpl.
  rewrite <- insert_empty.
  pose proof (unreached_insert g ∅ s 0%nat (lookup_empty _) Hs) as Hu.
  assert (unreached g ∅ <= length (nodes g))%nat by apply length_filter.
  lia.
Qed.

(** The reference search returns a shortest path between [s] and [t], and
    nothing exactly when an endpoint is missing or no path exists; this
    does not depend on the order in which neighbours are listed. *)
Lemma bfs_path_correct (nbrs : Node -> list Node) :
  (forall x y, y ∈ nbrs x <-> areConnected g x y = true) ->
  exists path, bfs_path nbrs g s t = Some path
    /\ (path = [] <-> s ∉ nodes g \/ t ∉ nodes g \/ forall w, ~ is_path g s t w)
    /\ (path <> [] -> is_path g s t path
          /\ forall w, is_path g s t w -> (length path <= length w)%nat).
Proof.
  intros Hn. unfold bfs_path.
  destruct (nodeExists g s) eqn:Es; cbn [negb orb].
  2:{ apply nodeExists_false in Es. exists []. split; [done|].
      split; [tauto|done]. }
  destruct (nodeExists g t) eqn:Et; cbn [negb orb].
  2:{ apply nodeExists_false in Et. exists []. split; [done|].
      split; [tauto|done]. }
  apply nodeExists_spec in Es, Et.
  destruct (ref_loop_correct nbrs Hn (S (length (nodes g))) (ref_init s))
    as (b & r' & Hloop & Hres).
  { apply search_inv_init; done. }
  { pose proof (search_measure_init Es). lia. }
  rewrite Hloop. cbn [mbind option_bind]. destruct b.
  - destruct Hres as (k & F & Hk & Hinv & Hmin).
    assert (Hkn : (k < S (length (nodes g)))%nat).
    { pose proof (inv_count _ _ _ _ _ _ Hinv _ _ Hk).
      pose proof (visited_size_le g (rdist r') (ok_nodes g Hok)
                    (inv_nodes _ _ _ _ _ _ Hinv)). lia. }
    destruct (ref_walk_ok _ _ _ Hinv k t [] _ Hk Hkn) as (w & Hw & Hh & Hl & Hlk & Hlen).
    rewrite app_nil_r in Hw. exists w. split; [done|].
    assert (Hpath : is_path g s t w) by done.
    split.
    + split; [intros ->; discriminate|].
      intros [?|[?|Hno]]; [done|done|]. exfalso. by apply (Hno w).
    + intros _. split; [done|]. intros w' Hw'. rewrite Hlen. by apply Hmin.
  - exists []. split; [done|]. split; [|done]. split; [|done]. intros _. auto.
Qed.
End RefLoop.

(** ** shortestPath refines the reference search *)

Lemma index_from_lookup ns : forall (i : nat) j x,
  NoDup ns -> ns !! i = Some x -> index_from ns x j = j + Z.of_nat i.
Proof.
  induction ns as [|n ns IH]; intros i j x Hnd Hi; [done|].
  apply NoDup_cons in Hnd as [Hn Hnd]. simpl.
  destruct i as [|i]; simpl in Hi.
  - injection Hi as ->. rewrite node_eqb_refl. lia.
  - destruct (node_eqb n x) eqn:E.
    + apply node_eqb_true in E as ->.
      exfalso. apply Hn. by eapply list_elem_of_lookup_2.
    + rewrite (IH i (j + 1) x Hnd Hi). lia.
Qed.

Lemma index_of_lookup ns (i : nat) x :
  NoDup ns -> ns !! i = Some x -> index_of ns x = Z.of_nat i.
Proof. intros Hnd Hi. unfold index_of. by rewrite (index_from_lookup ns i 0 x). Qed.

Lemma index_of_elem ns x :
  NoDup ns -> x ∈ ns -> exists i : nat, ns !! i = Some x /\ index_of ns x = Z.of_nat i.
Proof.
  intros Hnd Hx. apply list_elem_of_lookup in Hx as [i Hi].
  exists i. split; [done|]. by apply index_of_lookup.
Qed.

Lemma find_endpoints_index ns : forall j a b si ei,
  NoDup ns -> 0 <= j ->
  (si = -1 -> a ∈ ns) -> (si <> -1 -> a ∉ ns) ->
  (ei = -1 -> b ∈ ns) -> (ei <> -1 -> b ∉ ns) ->
  find_endpoints ns j a b si ei
  = (if decide (si = -1) then index_from ns a j else si,
     if decide (ei = -1) then index_from ns b j else ei).
Proof.
  induction ns as [|n ns IH]; intros j a b si ei Hnd Hj Ha1 Ha2 Hb1 Hb2.
  - simpl. destruct (decide (si = -1)) as [Hs|Hs].
    { specialize (Ha1 Hs). by apply elem_of_nil in Ha1. }
    destruct (decide (ei = -1)) as [He|He]; [|done].
    specialize (Hb1 He). by apply elem_of_nil in Hb1.
  - apply NoDup_cons in Hnd as [Hn Hnd]. simpl.
    set (si' := if node_eqb n a then j else si).
    set (ei' := if node_eqb n b then j else ei).
    assert (Hsi : (if decide (si = -1) then
                     if node_eqb n a then j else index_from ns a (j + 1) else si)
                  = if decide (si' = -1) then index_from ns a (j + 1) else si').
    { subst si'. destruct (node_eqb n a) eqn:E.
      - apply node_eqb_true in E as ->.
        destruct (decide (si = -1)) as [Hs|Hs].
        + rewrite decide_False by lia. done.
        + exfalso. apply (Ha2 Hs). left.
      - done. }
    assert (Hei : (if decide (ei = -1) then
                     if node_eqb n b then j else index_from ns b (j + 1) else ei)
                  = if decide (ei' = -1) then index_from ns b (j + 1) else ei').
    { subst ei'. destruct (node_eqb n b) eqn:E.
      - apply node_eqb_true in E as ->.
        destruct (decide (ei = -1)) as [He|He].
        + rewrite decide_False by lia. done.
        + exfalso. apply (Hb2 He). left.
      - done. }
    rewrite Hsi, Hei.
    destruct (negb (si' =? -1) && negb (ei' =? -1)) eqn:Eboth.
    + apply andb_true_iff in Eboth as [E1 E2].
      apply negb_true_iff, Z.eqb_neq in E1, E2.
      by rewrite !decide_False.
    + apply IH; [done|lia|..]; subst si' ei'.
      * destruct (node_eqb n a) eqn:E; [lia|]. apply node_eqb_false in E.
        intros Hs. specialize (Ha1 Hs). apply elem_of_cons in Ha1 as [?|?]; congruence.
      * destruct (node_eqb n a) eqn:E.
        -- apply node_eqb_true in E as <-. done.
        -- intros Hs Hin. apply (Ha2 Hs). by right.
      * destruct (node_eqb n b) eqn:E; [lia|]. apply node_eqb_false in E.
        intros He. specialize (Hb1 He). apply elem_of_cons in Hb1 as [?|?]; congruence.
      * destruct (node_eqb n b) eqn:E.
        -- apply node_eqb_true in E as <-. done.
        -- intros He Hin. apply (Hb2 He). by right.
Qed.

Lemma find_endpoints_ok ns a b :
  NoDup ns -> a ∈ ns -> b ∈ ns ->
  find_endpoints ns 0 a b (-1) (-1) = (index_of ns a, index_of ns b).
Proof.
  intros Hnd Ha Hb. rewrite find_endpoints_index; [done|done|lia|done|done|done|done].
Qed.

Lemma ref_walk_mono par fuel : forall v acc w,
  ref_walk fuel par v acc = Some w -> ref_walk (S fuel) par v acc = Some w.
Proof.
  induction fuel as [|fuel IH]; intros v acc w H; [done|].
  simpl in H. cbn [ref_walk]. destruct (par !! v) as [u|]; [|done].
  by apply IH.
Qed.

Section Refinement.
Context (g : SocialGraph) (s t : Node).
Hypothesis Hok : store_ok g.
Hypothesis Hsize : Z.of_nat (length (nodes g)) < INT_MAX.

Lemma visit_neighbors_sim cur (c : nat) dc neighbors : forall st r,
  sim g st r -> nodes g !! c = Some cur -> rdist r !! cur = Some dc ->
  (forall y, y ∈ neighbors -> y ∈ nodes g) ->
  (forall x dx, rdist r !! x = Some dx -> Z.of_nat dx < INT_MAX) ->
  Z.of_nat (S dc) < INT_MAX ->
  exists st', visit_neighbors (nodes g) neighbors (Z.of_nat c) st = Some st'
    /\ sim g st' (ref_expand neighbors cur dc r).
Proof.
  pose proof (ok_nodes g Hok) as Hnd.
  induction neighbors as [|y rest IH]; intros st r Hsim Hc Hdc Hin Hb Hbc.
  - exists st. done.
  - assert (Hrest : forall z, z ∈ rest -> z ∈ nodes g) by (intros z Hz; apply Hin; by right).
    destruct (index_of_elem (nodes g) y Hnd (Hin y ltac:(left))) as (j & Hj & Hidx).
    pose proof (lookup_lt_Some _ _ _ Hj) as Hjn.
    cbn [visit_neighbors ref_expand]. rewrite Hidx, !vget_lookup.
    rewrite (sim_distance _ _ _ Hsim j y Hj). cbn [mbind option_bind].
    destruct (rdist r !! y) as [dy|] eqn:Ey; cbn [dist_code].
    + pose proof (Hb _ _ Ey) as Hby.
      replace (Z.of_nat dy =? INT_MAX) with false by (symmetry; apply Z.eqb_neq; lia).
      by apply IH.
    + rewrite Z.eqb_refl.
      rewrite (sim_distance _ _ _ Hsim c cur Hc), Hdc. cbn [mbind option_bind dist_code].
      rewrite decide_True by lia.
      rewrite !vset_insert
        by (rewrite ?(sim_distance_len _ _ _ Hsim), ?(sim_parent_len _ _ _ Hsim); done).
      cbn [mbind option_bind].
      assert (Hcy : cur <> y) by (intros ->; congruence).
      apply IH; [|done| | done | |done].
      * destruct Hsim as [S1 S2 S3 S4 S5]. constructor; simpl.
        -- by rewrite length_insert.
        -- by rewrite length_insert.
        -- rewrite S3, map_app. simpl. by rewrite Hidx.
        -- intros i x Hi. destruct (decide (i = j)) as [->|Hij].
           ++ rewrite Hj in Hi. injection Hi as <-.
              rewrite list_lookup_insert_eq by lia. rewrite lookup_insert_eq.
              simpl. f_equal. lia.
           ++ rewrite list_lookup_insert_ne by done.
              rewrite lookup_insert_ne; [auto|].
              intros <-. apply Hij. by eapply NoDup_lookup.
        -- intros i x Hi. destruct (decide (i = j)) as [->|Hij].
           ++ rewrite Hj in Hi. injection Hi as <-.
              rewrite list_lookup_insert_eq by lia. rewrite lookup_insert_eq.
              simpl. f_equal. symmetry. by apply index_of_lookup.
           ++ rewrite list_lookup_insert_ne by done.
              rewrite lookup_insert_ne; [auto|].
              intros <-. apply Hij. by eapply NoDup_lookup.
      * simpl. by rewrite lookup_insert_ne.
      * simpl. intros x dx Hx. destruct (decide (x = y)) as [->|Hxy].
        -- rewrite lookup_insert_eq in Hx. injection Hx as <-. done.
        -- rewrite lookup_insert_ne in Hx by done. eauto.
Qed.

Lemma depth_bound F d p x dx :
  search_inv g s t F d p -> d !! x = Some dx -> (dx < length (nodes g))%nat.
Proof.
  intros Hinv Hx.
  pose proof (inv_count _ _ _ _ _ _ Hinv _ _ Hx).
  pose proof (visited_size_le g d (ok_nodes g Hok) (inv_nodes _ _ _ _ _ _ Hinv)). lia.
Qed.

Lemma bfs_loop_sim : t ∈ nodes g -> forall fuel st r b r',
  sim g st r -> search_inv g s t (rq r) (rdist r) (rparent r) ->
  ref_loop (getFriends g) fuel t r = Some (b, r') ->
  exists st', bfs_loop fuel g (index_of (nodes g) t) st = Some (b, st')
    /\ sim g st' r'.
Proof.
  intros Ht. pose proof (ok_nodes g Hok) as Hnd.
  destruct (index_of_elem _ _ Hnd Ht) as (ti & Hti & Htidx).
  induction fuel as [|fuel IH]; intros st r b r' Hsim Hinv Hloop; [done|].
  cbn [ref_loop bfs_loop] in *. rewrite (sim_queue _ _ _ Hsim).
  destruct (rq r) as [|cur rest] eqn:Eq; simpl map; cbv iota.
  - injection Hloop as <- <-. exists st. done.
  - destruct (inv_open _ _ _ _ _ _ Hinv cur ltac:(left)) as [dc Hdc].
    pose proof (inv_nodes _ _ _ _ _ _ Hinv cur ltac:(eauto)) as Hcn.
    destruct (index_of_elem _ _ Hnd Hcn) as (c & Hc & Hcidx).
    rewrite Hcidx, Htidx.
    assert (Hsim0 : sim g (mkBfs (st_parent st) (st_distance st) (map (index_of (nodes g)) rest))
                        (mkRef rest (rdist r) (rparent r))).
    { destruct Hsim as [S1 S2 S3 S4 S5]. by constructor. }
    destruct (bool_decide (cur = t)) eqn:Ect.
    + apply bool_decide_eq_true in Ect as ->.
      assert (c = ti) as -> by (by eapply NoDup_lookup).
      rewrite Z.eqb_refl. injection Hloop as <- <-. eauto.
    + apply bool_decide_eq_false in Ect.
      replace (Z.of_nat c =? Z.of_nat ti) with false.
      2:{ symmetry. apply Z.eqb_neq. intros Heq. apply Nat2Z.inj in Heq as ->.
          apply Ect. congruence. }
      rewrite vget_lookup, Hc. cbn [mbind option_bind].
      simpl in Hloop. rewrite Hdc in Hloop. simpl in Hloop.
      set (r0 := mkRef rest (rdist r) (rparent r)) in *.
      destruct (ref_expand_inv g s t Hok (getFriends g cur) cur dc r0) as (H1 & H2 & H3 & H4);
        [done|done|intros y Hy; by apply elem_of_getFriends|].
      destruct (visit_neighbors_sim cur c dc (getFriends g cur) _ r0 Hsim0 Hc Hdc)
        as (st1 & Hv & Hsim1).
      * intros y Hy. apply elem_of_getFriends in Hy.
        by eapply areConnected_in_nodes.
      * intros x dx Hx. pose proof (depth_bound _ _ _ _ _ Hinv Hx). lia.
      * pose proof (depth_bound _ _ _ _ _ Hinv Hdc). lia.
      * rewrite Hv. cbn [mbind option_bind]. rewrite <- Htidx.
        apply (IH st1 _ b r' Hsim1); [|done].
        eapply search_inv_close; [exact H1|done|].
        intros y Hy. apply H3. by apply elem_of_getFriends.
Qed.

Lemma walk_parents_sim F st r :
  sim g st r -> search_inv g s t F (rdist r) (rparent r) ->
  forall fuel v acc w ipath,
    ref_walk fuel (rparent r) v acc = Some w ->
    is_Some (rdist r !! v) ->
    mapM (vget (nodes g)) (reverse ipath) = Some acc ->
    exists ip, walk_parents (S fuel) (st_parent st) (index_of (nodes g) v) ipath = Some ip
      /\ mapM (vget (nodes g)) (reverse ip) = Some w.
Proof.
  intros Hsim Hinv. pose proof (ok_nodes g Hok) as Hnd.
  induction fuel as [|fuel IH]; intros v acc w ipath Hw [dv Hv] Hacc; [done|].
  pose proof (inv_nodes _ _ _ _ _ _ Hinv v ltac:(eauto)) as Hvn.
  destruct (index_of_elem _ _ Hnd Hvn) as (j & Hj & Hjidx).
  assert (Hstep : mapM (vget (nodes g)) (reverse (ipath ++ [Z.of_nat j])) = Some (v :: acc)).
  { rewrite reverse_snoc. cbn [mapM]. rewrite vget_lookup, Hj. cbn [mbind option_bind].
    rewrite Hacc. done. }
  cbn [walk_parents]. rewrite Hjidx.
  replace (Z.of_nat j =? -1) with false by (symmetry; apply Z.eqb_neq; lia).
  rewrite vget_lookup, (sim_parent _ _ _ Hsim j v Hj). cbn [mbind option_bind].
  simpl in Hw. pose proof (inv_parent _ _ _ _ _ _ Hinv v dv Hv) as Hp.
  destruct (rparent r !! v) as [u|]; cbn [parent_code].
  - destruct Hp as (du & Hu & _). apply (IH u (v :: acc) w); [done|eauto|done].
  - injection Hw as <-. exists (ipath ++ [Z.of_nat j]).
    split; [|done]. destruct fuel; done.
Qed.

Lemma shortestPath_refines : shortestPath g s t = bfs_path (getFriends g) g s t.
Proof.
  pose proof (ok_nodes g Hok) as Hnd.
  unfold shortestPath, bfs_path.
  destruct (nodeExists g s) eqn:Es; cbn [negb orb]; [|done].
  destruct (nodeExists g t) eqn:Et; cbn [negb orb]; [|done].
  apply nodeExists_spec in Es, Et.
  rewrite (find_endpoints_ok _ _ _ Hnd Es Et).
  destruct (index_of_elem _ _ Hnd Es) as (si & Hsi & Hsidx).
  pose proof (lookup_lt_Some _ _ _ Hsi) as Hsn.
  rewrite Hsidx, !vset_insert by (by rewrite length_replicate).
  cbn [mbind option_bind].
  destruct (ref_loop_correct g s t Hok (getFriends g)
              (fun x y => elem_of_getFriends g x y)
              (S (length (nodes g))) (ref_init s))
    as (b & r' & Hloop & Hres).
  { by apply search_inv_init. }
  { pose proof (search_measure_init g s Es). lia. }
  rewrite Hloop. cbn [mbind option_bind].
  assert (Hsim0 : sim g (mkBfs (<[si := -1]> (replicate (length (nodes g)) (-1)))
                               (<[si := 0]> (replicate (length (nodes g)) INT_MAX))
                               [Z.of_nat si])
                        (ref_init s)).
  { constructor; simpl.
    - by rewrite length_insert, length_replicate.
    - by rewrite length_insert, length_replicate.
    - by rewrite Hsidx.
    - intros i x Hi. pose proof (lookup_lt_Some _ _ _ Hi).
      destruct (decide (i = si)) as [->|Hne].
      + rewrite Hsi in Hi. injection Hi as <-.
        rewrite list_lookup_insert_eq by (by rewrite length_replicate).
        by rewrite lookup_singleton_eq.
      + rewrite list_lookup_insert_ne by done.
        rewrite lookup_replicate_2 by done.
        rewrite lookup_singleton_ne; [done|].
        intros <-. apply Hne. by eapply NoDup_lookup.
    - intros i x Hi. pose proof (lookup_lt_Some _ _ _ Hi).
      rewrite lookup_empty. simpl.
      destruct (decide (i = si)) as [->|Hne].
      + by rewrite list_lookup_insert_eq by (by rewrite length_replicate).
      + rewrite list_lookup_insert_ne by done. by rewrite lookup_replicate_2. }
  destruct (bfs_loop_sim Et _ _ _ _ _ Hsim0 (search_inv_init g s t Es) Hloop)
    as (st' & Hcode & Hsim').
  rewrite Hcode. cbn [mbind option_bind]. destruct b; [|done].
  destruct Hres as (k & F & Hk & Hinv & _).
  pose proof (depth_bound _ _ _ _ _ Hinv Hk) as Hkn.
  destruct (ref_walk_ok g s t _ _ _ Hinv k t [] (length (nodes g)) Hk Hkn)
    as (w & Hw & _).
  rewrite (ref_walk_mono _ _ _ _ _ Hw).
  destruct (walk_parents_sim _ _ _ Hsim' Hinv _ _ _ _ [] Hw ltac:(eauto) eq_refl)
    as (ip & Hip & Hmap).
  rewrite Hip. cbn [mbind option_bind]. done.
Qed.
End Refinement.

(** ** The textual format: evaluation *)

Example saveToFile_square :
  saveToFile square_graph
  = ("A: B C" +:+ endl +:+ "B: A D" +:+ endl +:+ "C: A D" +:+ endl +:+ "D: B C" +:+ endl)%string.
Proof. vm_compute. reflexivity. Qed.

Example loadFromFile_square :
  loadFromFile pair_graph (saveToFile square_graph)
  = Some (mkGraph ["A"; "B"; "C"; "D"]%string
                  [mkEdge "A" "B"; mkEdge "A" "C"; mkEdge "B" "D"; mkEdge "C" "D"]).
Proof. vm_compute. reflexivity. Qed.

Example loadFromFile_colon :
  saveToFile colon_graph = ("a:b: c:d" +:+ endl +:+ "c:d: a:b" +:+ endl)%string
  /\ loadFromFile empty_graph (saveToFile colon_graph)
     = Some (mkGraph ["a"; "b:"; "c:d"; "c"; "d:"; "a:b"]%string
               [mkEdge "a" "b:"; mkEdge "a" "c:d"; mkEdge "c" "d:"; mkEdge "c" "a:b"]).
Proof. split; vm_compute; reflexivity. Qed.

(** ** shortestPath: neighbour order and minimality *)

(** C4, as the code has it: the path returned is the one a breadth-first
    search selects when, at each step, the neighbours are expanded in the
    order [getFriends] lists them, which is the insertion order of the
    Friendships and not that of the Persons. *)
Theorem shortestPath_edge_order (g : SocialGraph) (from to : string) :
  store_ok g -> Z.of_nat (length (nodes g)) < INT_MAX ->
  shortestPath g from to = bfs_path (getFriends g) g from to.
Proof. intros Hok Hsize. by apply shortestPath_refines. Qed.

Lemma shortestPath_edge_order_witness :
  shortestPath diamond_graph "A" "D" = bfs_path (getFriends diamond_graph) diamond_graph "A" "D".
Proof.
  apply (shortestPath_edge_order diamond_graph "A" "D").
  - apply run_mutators_ok.
  - vm_compute. reflexivity.
Defined.

(** C5: [shortestPath] returns a result; when the result is not empty it
    starts with [from], ends with [to], links consecutive names by
    Friendships and is no longer than any other such sequence; it is empty
    exactly when [from] or [to] is not in the store or no path joins them. *)
Theorem shortestPath_shortest (g : SocialGraph) (from to : string) :
  store_ok g -> Z.of_nat (length (nodes g)) < INT_MAX ->
  exists path, shortestPath g from to = Some path
    /\ (path = [] <->
          from ∉ nodes g \/ to ∉ nodes g \/ forall w, ~ is_path g from to w)
    /\ (path <> [] ->
          is_path g from to path
          /\ forall w, is_path g from to w -> (length path <= length w)%nat).
Proof.
  intros Hok Hsize. rewrite shortestPath_refines by done.
  apply bfs_path_correct; [done|]. intros x y. apply elem_of_getFriends.
Qed.

Lemma shortestPath_shortest_witness :
  exists path, shortestPath diamond_graph "A" "D" = Some path
    /\ (path = [] <->
          "A"%string ∉ nodes diamond_graph \/ "D"%string ∉ nodes diamond_graph
          \/ forall w, ~ is_path diamond_graph "A" "D" w)
    /\ (path <> [] ->
          is_path diamond_graph "A" "D" path
          /\ forall w, is_path diamond_graph "A" "D" w -> (length path <= length w)%nat).
Proof.
  apply (shortestPath_shortest diamond_graph "A" "D").
  - apply run_mutators_ok.
  - vm_compute. reflexivity.
Defined.

Example load_line_no_colon :
  load_line empty_graph "A B"
  = Some (mkGraph ["A B"; "A"; "B"]%string [mkEdge "A B" "A"; mkEdge "A B" "B"]).
Proof. vm_compute. reflexivity. Qed.

(** ** The textual format: saving then loading *)

Lemma str_app_nil_l (b : string) : EmptyString +:+ b = b.
Proof. reflexivity. Qed.

Lemma str_app_cons x (a b : string) : String x a +:+ b = String x (a +:+ b).
Proof. reflexivity. Qed.

Ltac str_norm := repeat (rewrite str_app_cons || rewrite str_app_nil_l).

Lemma str_app_assoc (a b c : string) : (a +:+ b) +:+ c = a +:+ (b +:+ c).
Proof. induction a as [|x a IH]; str_norm; [done|]. by rewrite IH. Qed.

Lemma str_app_nil_r (a : string) : a +:+ EmptyString = a.
Proof. induction a as [|x a IH]; str_norm; [done|]. by rewrite IH. Qed.

Lemma str_length_app (a b : string) :
  String.length (a +:+ b) = (String.length a + String.length b)%nat.
Proof. induction a as [|x a IH]; str_norm; simpl; [done|]. by rewrite IH. Qed.

Lemma all_chars_impl (P Q : ascii -> bool) s :
  (forall c, P c = true -> Q c = true) -> all_chars P s = true -> all_chars Q s = true.
Proof.
  intros HPQ. induction s as [|c s IH]; simpl; [done|].
  intros H. apply andb_true_iff in H as [H1 H2]. apply andb_true_iff. auto.
Qed.

Lemma all_chars_app P a b :
  all_chars P (a +:+ b) = all_chars P a && all_chars P b.
Proof. induction a as [|x a IH]; str_norm; simpl; [done|]. by rewrite IH, andb_assoc. Qed.

Lemma clean_not_newline c : clean_char c = true -> negb (Ascii.eqb c newline) = true.
Proof.
  unfold clean_char, is_space, newline. intros H.
  apply andb_true_iff in H as [_ H]. apply negb_true_iff in H.
  destruct (Ascii.eqb c "010") eqn:E; [|done].
  rewrite !orb_true_r in H. simpl in H. discriminate.
Qed.

Lemma clean_not_colon c : clean_char c = true -> negb (Ascii.eqb c ":") = true.
Proof. unfold clean_char. intros H. by apply andb_true_iff in H as [H _]. Qed.

Lemma clean_not_space c : clean_char c = true -> is_space c = false.
Proof.
  unfold clean_char. intros H. apply andb_true_iff in H as [_ H].
  by apply negb_true_iff in H.
Qed.

Lemma clean_not_blank c : clean_char c = true -> is_blank c = false.
Proof.
  intros H. apply clean_not_space in H. unfold is_space, is_blank in *.
  destruct (Ascii.eqb c " "); [done|]. destruct (Ascii.eqb c "009"); done.
Qed.

(** Saving writes one line per Person. *)
Lemma saveToFile_fold g ns out :
  fold_left (fun out current =>
               out +:+ current +:+ ": " +:+ write_friends (getFriends g current) +:+ endl)
            ns out
  = out +:+ write_lines (getFriends g) ns.
Proof.
  revert out. induction ns as [|n ns IH]; intros out; simpl.
  - by rewrite str_app_nil_r.
  - rewrite IH. unfold write_lines, write_line. simpl.
    by rewrite !str_app_assoc.
Qed.

Lemma saveToFile_write_lines g : saveToFile g = write_lines (getFriends g) (nodes g).
Proof. unfold saveToFile. by rewrite saveToFile_fold. Qed.

(** Reading the lines back. *)
Lemma read_lines_line l : forall rest cur,
  all_chars (fun c => negb (Ascii.eqb c newline)) l = true ->
  read_lines (l +:+ String newline rest) cur = (cur +:+ l) :: read_lines rest EmptyString.
Proof.
  induction l as [|c l IH]; intros rest cur Hl; str_norm; cbn [read_lines].
  - rewrite Ascii.eqb_refl. by rewrite str_app_nil_r.
  - simpl in Hl. apply andb_true_iff in Hl as [Hc Hl].
    apply negb_true_iff in Hc. rewrite Hc. rewrite IH by done.
    rewrite str_app_assoc. by str_norm.
Qed.

Lemma read_lines_unlines ls :
  Forall (fun l => all_chars (fun c => negb (Ascii.eqb c newline)) l = true) ls ->
  read_lines (unlines ls) EmptyString = ls.
Proof.
  induction 1 as [|l ls Hl _ IH]; simpl; [done|].
  unfold endl. str_norm.
  rewrite read_lines_line by done. str_norm. by rewrite IH.
Qed.

Lemma write_friends_cons2 f f' fs :
  write_friends (f :: f' :: fs) = f +:+ String " " (write_friends (f' :: fs)).
Proof. reflexivity. Qed.

Lemma write_friends_chars P fs :
  P " "%char = true -> Forall (fun f => all_chars P f = true) fs ->
  all_chars P (write_friends fs) = true.
Proof.
  intros Hsp. induction 1 as [|f fs Hf Hfs IH]; [done|].
  destruct fs as [|f' fs]; [done|].
  rewrite write_friends_cons2, all_chars_app. cbn [all_chars]. by rewrite Hf, Hsp, IH.
Qed.

(** The parts of one written line. *)
Lemma string_find_prefix c n : forall rest pos,
  all_chars (fun a => negb (Ascii.eqb a c)) n = true ->
  string_find c (n +:+ String c rest) pos = pos + Z.of_nat (String.length n).
Proof.
  induction n as [|a n IH]; intros rest pos Hn; str_norm; cbn [string_find String.length].
  - rewrite Ascii.eqb_refl. lia.
  - simpl in Hn. apply andb_true_iff in Hn as [Ha Hn].
    apply negb_true_iff in Ha. rewrite Ha, IH by done. lia.
Qed.

Lemma take_chars_prefix n c rest :
  take_chars (String.length n) (n +:+ String c rest) = n.
Proof. induction n as [|a n IH]; str_norm; simpl; [done|]. by rewrite IH. Qed.

Lemma drop_chars_prefix n rest : drop_chars (String.length n) (n +:+ rest) = rest.
Proof. induction n as [|a n IH]; str_norm; simpl; done. Qed.

Lemma erase_leading_blanks_clean n :
  all_chars clean_char n = true -> erase_leading_blanks n = n.
Proof.
  destruct n as [|c n]; simpl; [done|]. intros H.
  apply andb_true_iff in H as [Hc _]. by rewrite (clean_not_blank c Hc).
Qed.

Lemma erase_trailing_blanks_clean n :
  all_chars clean_char n = true -> erase_trailing_blanks n = n.
Proof.
  induction n as [|c n IH]; simpl; [done|]. intros H.
  apply andb_true_iff in H as [Hc Hn]. rewrite (IH Hn).
  destruct n; [|done]. by rewrite (clean_not_blank c Hc).
Qed.

Lemma read_words_word w : forall rest cur,
  all_chars clean_char w = true ->
  read_words (w +:+ rest) cur = read_words rest (cur +:+ w).
Proof.
  induction w as [|c w IH]; intros rest cur Hw; str_norm.
  - by rewrite str_app_nil_r.
  - simpl in Hw. apply andb_true_iff in Hw as [Hc Hw]. cbn [read_words].
    rewrite (clean_not_space c Hc), IH by done. rewrite str_app_assoc. by str_norm.
Qed.

Lemma read_words_end cur :
  read_words EmptyString cur = filter (fun f => f <> EmptyString) [cur].
Proof.
  simpl. rewrite filter_cons, filter_nil.
  destruct (decide (cur = EmptyString)).
  - by rewrite decide_False by tauto.
  - by rewrite decide_True by done.
Qed.

Lemma read_words_space rest cur :
  read_words (String " " rest) cur
  = filter (fun f => f <> EmptyString) [cur] ++ read_words rest EmptyString.
Proof.
  cbn [read_words]. change (is_space " ") with true. cbv iota.
  rewrite filter_cons, filter_nil.
  destruct (decide (cur = EmptyString)).
  - by rewrite decide_False by tauto.
  - by rewrite decide_True by done.
Qed.

Lemma read_words_friends fs :
  Forall (fun f => all_chars clean_char f = true) fs ->
  read_words (write_friends fs) EmptyString = filter (fun f => f <> EmptyString) fs.
Proof.
  induction 1 as [|f fs Hf Hfs IH]; [done|].
  destruct fs as [|f' fs].
  - simpl write_friends. rewrite <- (str_app_nil_r f) at 1.
    rewrite read_words_word by done. str_norm. apply read_words_end.
  - rewrite write_friends_cons2, read_words_word by done. str_norm.
    rewrite read_words_space, IH. by rewrite <- filter_app.
Qed.

Lemma drop_chars_past n c rest :
  drop_chars (S (String.length n)) (n +:+ String c rest) = rest.
Proof. induction n as [|a n IH]; str_norm; simpl; done. Qed.

Lemma write_line_shape friends_of n :
  write_line friends_of n = n +:+ String ":" (String " " (write_friends (friends_of n))).
Proof. unfold write_line. by str_norm. Qed.

Lemma to_int_small z : 0 <= z <= INT_MAX -> to_int z = z.
Proof. unfold INT_MAX, to_int. intros H. rewrite Z.mod_small; lia. Qed.

Lemma to_size_t_small z : 0 <= z <= INT_MAX + 1 -> to_size_t z = z.
Proof. unfold INT_MAX, to_size_t. intros H. rewrite Z.mod_small; lia. Qed.

(** Loading one written line registers the Person and links it with every
    friend that the line names. *)
Lemma load_line_written friends_of g n :
  clean_name n ->
  Forall (fun f => all_chars clean_char f = true) (friends_of n) ->
  load_line g (write_line friends_of n)
  = Some (add_links (addPerson g n) n (filter (fun f => f <> EmptyString) (friends_of n))).
Proof.
  intros [Hn Hlen] Hfs. rewrite write_line_shape.
  set (rest := String " " (write_friends (friends_of n))).
  unfold load_line. rewrite decide_False by (destruct n; discriminate).
  rewrite string_find_prefix
    by (eapply all_chars_impl; [apply clean_not_colon|done]).
  rewrite Z.add_0_l, to_int_small by lia.
  assert (Hll : String.length (n +:+ String ":" rest)
                = (String.length n + S (String.length rest))%nat)
    by (by rewrite str_length_app).
  unfold substr, substr_from.
  change (to_size_t 0) with 0.
  replace (Z.of_nat (String.length (n +:+ String ":" rest)) <? 0) with false
    by (symmetry; apply Z.ltb_ge; lia).
  cbn [mbind option_bind]. change (Z.to_nat 0) with 0%nat. cbn [drop_chars].
  destruct (decide (Z.of_nat (String.length n) + 1 <= INT_MAX)) as [_|Hov]; [|lia].
  rewrite !to_size_t_small by lia.
  replace (Z.of_nat (String.length (n +:+ String ":" rest)) <=? Z.of_nat (String.length n))
    with false by (symmetry; apply Z.leb_gt; lia).
  replace (Z.of_nat (String.length (n +:+ String ":" rest)) <? Z.of_nat (String.length n) + 1)
    with false by (symmetry; apply Z.ltb_ge; lia).
  rewrite Nat2Z.id, take_chars_prefix.
  replace (Z.to_nat (Z.of_nat (String.length n) + 1)) with (S (String.length n)) by lia.
  rewrite drop_chars_past. cbn [mbind option_bind].
  rewrite erase_leading_blanks_clean, erase_trailing_blanks_clean by done.
  subst rest. rewrite read_words_space, read_words_friends by done.
  rewrite filter_cons, decide_False by tauto. done.
Qed.

(** Connectivity after the mutators used by the loader. *)
Lemma addPerson_connected g n x y : areConnected (addPerson g n) x y = areConnected g x y.
Proof. unfold addPerson, areConnected. by destruct (negb (nodeExists g n)). Qed.

Lemma addPerson_keeps g n m : m ∈ nodes g -> m ∈ nodes (addPerson g n).
Proof.
  unfold addPerson. destruct (negb (nodeExists g n)); [|done].
  simpl. intros H. apply elem_of_app. by left.
Qed.

Lemma addPerson_present g n : n ∈ nodes (addPerson g n).
Proof.
  unfold addPerson. destruct (nodeExists g n) eqn:E; simpl.
  - by apply nodeExists_spec.
  - apply elem_of_app. right. left.
Qed.

Lemma addFriend_nodes g a b : nodes (addFriend g a b) = nodes g.
Proof.
  unfold addFriend.
  destruct (nodeExists g a && nodeExists g b && negb (bool_decide (a = b))); [|done].
  by destruct (negb (some_edge_connects (edgeList g) a b)).
Qed.

Lemma some_edge_connects_snoc es e x y :
  some_edge_connects (es ++ [e]) x y = some_edge_connects es x y || connects e x y.
Proof.
  induction es as [|e' es IH]; simpl.
  - by destruct (connects e x y).
  - destruct (connects e' x y); [done|]. apply IH.
Qed.

Lemma is_pair_connects a b x y :
  (x = a /\ y = b) \/ (x = b /\ y = a) -> forall e, connects e a b = connects e x y.
Proof.
  intros [[-> ->]|[-> ->]] e; [done|apply connects_sym].
Qed.

Lemma addFriend_connected g a b x y :
  a ∈ nodes g -> b ∈ nodes g ->
  areConnected (addFriend g a b) x y = true
  <-> areConnected g x y = true \/ is_pair a b x y.
Proof.
  intros Ha Hb. apply nodeExists_spec in Ha, Hb.
  unfold addFriend, is_pair. rewrite Ha, Hb. simpl.
  destruct (bool_decide (a = b)) eqn:Eab; simpl.
  { apply bool_decide_eq_true in Eab. tauto. }
  apply bool_decide_eq_false in Eab.
  destruct (some_edge_connects (edgeList g) a b) eqn:Ec; simpl.
  - split; [tauto|]. intros [H|[_ H]]; [done|].
    unfold areConnected. apply some_edge_connects_spec in Ec as (e & He & Hc).
    apply some_edge_connects_spec. exists e. split; [done|].
    by rewrite <- (is_pair_connects a b x y H).
  - unfold areConnected. simpl. rewrite some_edge_connects_snoc, orb_true_iff.
    rewrite connects_spec. simpl. intuition congruence.
Qed.

Lemma add_links_spec n words : forall g,
  n ∈ nodes g ->
  (forall m, m ∈ nodes g -> m ∈ nodes (add_links g n words))
  /\ (forall x y, areConnected (add_links g n words) x y = true
        <-> areConnected g x y = true \/ exists w, w ∈ words /\ is_pair n w x y).
Proof.
  induction words as [|w words IH]; intros g Hn; simpl.
  - split; [done|]. intros x y. split; [tauto|].
    intros [H|(w & Hw & _)]; [done|]. by apply elem_of_nil in Hw.
  - set (g1 := addFriend (addPerson g w) n w).
    assert (Hkeep : forall m, m ∈ nodes g -> m ∈ nodes g1).
    { intros m Hm. subst g1. rewrite addFriend_nodes. by apply addPerson_keeps. }
    destruct (IH g1 (Hkeep n Hn)) as [IH1 IH2]. split; [auto|].
    intros x y. rewrite IH2. subst g1.
    rewrite addFriend_connected
      by (first [by apply addPerson_keeps | apply addPerson_present]).
    rewrite addPerson_connected. split.
    + intros [[H|H]|(w' & Hw' & H)]; [by left| |].
      * right. exists w. split; [left|done].
      * right. exists w'. split; [by right|done].
    + intros [H|(w' & Hw' & H)]; [by left; left|].
      apply elem_of_cons in Hw' as [->|Hw']; [by left; right|].
      right. eauto.
Qed.

Lemma load_lines_written friends_of ns : forall g,
  (forall n, n ∈ ns -> clean_name n
     /\ Forall (fun f => all_chars clean_char f = true) (friends_of n)) ->
  exists g', load_lines g (map (write_line friends_of) ns) = Some g'
    /\ forall x y, areConnected g' x y = true
         <-> areConnected g x y = true
             \/ exists n w, n ∈ ns /\ w ∈ friends_of n /\ w <> EmptyString /\ is_pair n w x y.
Proof.
  induction ns as [|n ns IH]; intros g Hns; simpl.
  - exists g. split; [done|]. intros x y. split; [tauto|].
    intros [H|(n & w & Hn & _)]; [done|]. by apply elem_of_nil in Hn.
  - destruct (Hns n ltac:(left)) as [Hn Hfs].
    rewrite load_line_written by done. cbn [mbind option_bind].
    set (g1 := add_links (addPerson g n) n _).
    destruct (IH g1) as (g' & Hload & Hconn).
    { intros m Hm. apply Hns. by right. }
    exists g'. split; [done|]. intros x y. rewrite Hconn. subst g1.
    destruct (add_links_spec n (filter (fun f => f <> EmptyString) (friends_of n))
                (addPerson g n) (addPerson_present g n)) as [_ Hl].
    rewrite Hl, addPerson_connected. split.
    + intros [[H|(w & Hw & H)]|(m & w & Hm & Hw & Hne & H)]; [by left| |].
      * apply list_elem_of_filter in Hw as [Hne Hw].
        right. exists n, w. split; [left|done].
      * right. exists m, w. split; [by right|done].
    + intros [H|(m & w & Hm & Hw & Hne & H)]; [by left; left|].
      apply elem_of_cons in Hm as [->|Hm].
      * left. right. exists w. split; [|done]. by apply list_elem_of_filter.
      * right. exists m, w. done.
Qed.

Lemma write_line_no_newline friends_of n :
  clean_name n -> Forall (fun f => all_chars clean_char f = true) (friends_of n) ->
  all_chars (fun c => negb (Ascii.eqb c newline)) (write_line friends_of n) = true.
Proof.
  intros [Hn _] Hfs. rewrite write_line_shape, all_chars_app. cbn [all_chars].
  rewrite (all_chars_impl _ _ _ clean_not_newline Hn). simpl.
  apply write_friends_chars; [done|].
  eapply Forall_impl; [exact Hfs|]. intros f Hf.
  by apply (all_chars_impl _ _ _ clean_not_newline).
Qed.

(** Loading a text that lists, for every Person, its friends in some order. *)
Lemma load_written_connected g g0 (friends_of : Node -> list Node) :
  store_ok g -> (forall n, n ∈ nodes g -> clean_name n) ->
  (forall n, friends_of n ≡ₚ getFriends g n) ->
  exists g', loadFromFile g0 (write_lines friends_of (nodes g)) = Some g'
    /\ forall x y, areConnected g' x y = areConnected g x y.
Proof.
  intros Hok Hclean Hperm.
  assert (Hfs : forall n, n ∈ nodes g ->
             clean_name n /\ Forall (fun f => all_chars clean_char f = true) (friends_of n)).
  { intros n Hn. split; [auto|]. apply Forall_forall. intros f Hf.
    rewrite Hperm in Hf. apply elem_of_getFriends in Hf.
    destruct (areConnected_in_nodes g n f Hok Hf) as (_ & Hfn & _).
    apply (Hclean f Hfn). }
  unfold loadFromFile, write_lines. rewrite read_lines_unlines.
  2:{ apply Forall_forall. intros l Hl. apply list_elem_of_In, in_map_iff in Hl as (n & <- & Hn).
      apply list_elem_of_In in Hn. destruct (Hfs n Hn). by apply write_line_no_newline. }
  destruct (load_lines_written friends_of (nodes g) (mkGraph [] []) Hfs)
    as (g' & Hload & Hconn).
  exists g'. split; [done|]. intros x y. apply eq_true_iff_eq. rewrite Hconn.
  split.
  - intros [H|(n & w & Hn & Hw & Hne & Hneq & Hp)]; [done|].
    rewrite Hperm in Hw. apply elem_of_getFriends in Hw.
    destruct Hp as [[-> ->]|[-> ->]]; [done|by rewrite areConnected_sym].
  - intros Hc. right.
    destruct (areConnected_in_nodes g x y Hok Hc) as (Hx & Hy & Hxy).
    destruct (decide (y = EmptyString)) as [Hye|Hye].
    + exists y, x. split; [done|]. split.
      { rewrite Hperm. apply elem_of_getFriends. by rewrite areConnected_sym. }
      split; [congruence|]. split; [congruence|]. by right.
    + exists x, y. split; [done|]. split.
      { rewrite Hperm. by apply elem_of_getFriends. }
      split; [done|]. split; [done|]. by left.
Qed.

(** C9, as the code has it: for a well-formed store whose Person names
    contain no colon and no white space (and are shorter than 2^31 - 1
    characters, so that the position after the colon fits an [int]),
    loading the text written by [saveToFile] succeeds and gives
    a store with the same connectivity; the same holds for a text that
    lists the friends on each line in any other order. *)
Theorem save_load_connectivity (g g0 : SocialGraph) (friends_of : Node -> list Node) :
  store_ok g -> (forall n, n ∈ nodes g -> clean_name n) ->
  (forall n, friends_of n ≡ₚ getFriends g n) ->
  (exists g', loadFromFile g0 (saveToFile g) = Some g'
     /\ forall x y, areConnected g' x y = areConnected g x y)
  /\ (exists g', loadFromFile g0 (write_lines friends_of (nodes g)) = Some g'
     /\ forall x y, areConnected g' x y = areConnected g x y).
Proof.
  intros Hok Hclean Hperm. split.
  - rewrite saveToFile_write_lines. by apply load_written_connected.
  - by apply load_written_connected.
Qed.

(** C9 as stated fails: a colon inside a name is taken for the separator.
    Two friends named a:b and c:d are written as the lines "a:b: c:d" and
    "c:d: a:b"; after loading they are no longer connected. *)
Lemma save_load_counterexample :
  ~ (forall g x y, store_ok g ->
       connected_after (loadFromFile empty_graph (saveToFile g)) x y = areConnected g x y).
Proof.
  intros H.
  specialize (H colon_graph "a:b"%string "c:d"%string (run_mutators_ok _)).
  vm_compute in H. discriminate.
Qed.

(** ** getFriends lists friends in edge order *)

(** C10: [getFriends p] is the list of opposite endpoints of the friendships
    incident to [p], in the order in which those friendships sit in the
    edge list (edge insertion order); there are well-formed stores in which
    this is not the order of the Person collection. *)
Theorem getFriends_edge_order :
  (forall (g : SocialGraph) (p : Node),
     getFriends g p = map (opposite p) (incident_edges g p))
  /\ (exists (g : SocialGraph) (p : Node),
       store_ok g /\ getFriends g p <> friends_in_person_order g p).
Proof.
  split.
  - intros g p. apply getFriends_loop_map.
  - exists diamond_graph, "A"%string. split; [apply run_mutators_ok|].
    vm_compute. discriminate.
Qed.

Lemma save_load_connectivity_witness :
  (exists g', loadFromFile pair_graph (saveToFile square_graph) = Some g'
     /\ forall x y, areConnected g' x y = areConnected square_graph x y)
  /\ (exists g', loadFromFile pair_graph
                   (write_lines (fun n => reverse (getFriends square_graph n))
                                (nodes square_graph)) = Some g'
     /\ forall x y, areConnected g' x y = areConnected square_graph x y).
Proof.
  apply (save_load_connectivity square_graph pair_graph
           (fun n => reverse (getFriends square_graph n))).
  - apply run_mutators_ok.
  - intros n Hn. apply list_elem_of_In in Hn. vm_compute in Hn.
    destruct Hn as [<-|[<-|[<-|[<-|[]]]]];
      (split; [vm_compute; reflexivity | vm_compute; reflexivity]).
  - intros n. apply reverse_Permutation.
Defined.

(** * Further properties of the store *)

(** ** addPerson, addFriend, removeFriend, removePerson *)

(** X1: adding a Person twice is the same as adding it once; the Person is
    present afterwards and no friendship changes. *)
Theorem addPerson_twice (g : SocialGraph) (p : string) :
  addPerson (addPerson g p) p = addPerson g p
  /\ p ∈ nodes (addPerson g p)
  /\ edgeList (addPerson g p) = edgeList g
  /\ (forall x, x ∈ nodes g -> x ∈ nodes (addPerson g p)).
Proof.
  split; [|split; [apply addPerson_present|split]].
  - pose proof (addPerson_present g p) as Hp. apply nodeExists_spec in Hp.
    unfold addPerson at 1. by rewrite Hp.
  - unfold addPerson. by destruct (negb (nodeExists g p)).
  - intros x. apply addPerson_keeps.
Qed.

(** X2: after [addFriend p q] on two different Persons of the store, each is
    connected to the other and listed among the other's friends; the Person
    collection is untouched. *)
Theorem addFriend_makes_friends (g : SocialGraph) (p q : string) :
  p ∈ nodes g -> q ∈ nodes g -> p <> q ->
  areConnected (addFriend g p q) p q = true
  /\ areConnected (addFriend g p q) q p = true
  /\ q ∈ getFriends (addFriend g p q) p
  /\ p ∈ getFriends (addFriend g p q) q
  /\ nodes (addFriend g p q) = nodes g.
Proof.
  intros Hp Hq Hpq.
  assert (H1 : areConnected (addFriend g p q) p q = true).
  { apply addFriend_connected; [done|done|]. right. split; [done|]. by left. }
  assert (H2 : areConnected (addFriend g p q) q p = true).
  { by rewrite areConnected_sym. }
  split; [done|]. split; [done|].
  split; [by apply elem_of_getFriends|]. split; [by apply elem_of_getFriends|].
  apply addFriend_nodes.
Qed.

Lemma addFriend_makes_friends_witness :
  areConnected (addFriend (addPerson (addPerson empty_graph "A") "B") "A" "B") "A" "B" = true
  /\ areConnected (addFriend (addPerson (addPerson empty_graph "A") "B") "A" "B") "B" "A" = true
  /\ "B"%string ∈ getFriends (addFriend (addPerson (addPerson empty_graph "A") "B") "A" "B") "A"
  /\ "A"%string ∈ getFriends (addFriend (addPerson (addPerson empty_graph "A") "B") "A" "B") "B"
  /\ nodes (addFriend (addPerson (addPerson empty_graph "A") "B") "A" "B")
     = nodes (addPerson (addPerson empty_graph "A") "B").
Proof.
  apply (addFriend_makes_friends (addPerson (addPerson empty_graph "A") "B") "A" "B").
  - vm_compute. left.
  - vm_compute. right. left.
  - discriminate.
Defined.

(** X3: [addFriend] changes nothing when a name is unknown, when the two
    names are equal, or when the two are already friends in either order. *)
Theorem addFriend_unchanged (g : SocialGraph) (p q : string) :
  p ∉ nodes g \/ q ∉ nodes g \/ p = q
  \/ areConnected g p q = true \/ areConnected g q p = true ->
  addFriend g p q = g.
Proof.
  intros H. unfold addFriend.
  destruct (nodeExists g p) eqn:Ep; simpl; [|done].
  destruct (nodeExists g q) eqn:Eq; simpl; [|done].
  destruct (bool_decide (p = q)) eqn:Epq; simpl; [done|].
  destruct (some_edge_connects (edgeList g) p q) eqn:Ec; simpl; [done|].
  exfalso. apply nodeExists_spec in Ep, Eq. apply bool_decide_eq_false in Epq.
  unfold areConnected in H. rewrite (some_edge_connects_sym _ q p), Ec in H.
  destruct H as [?|[?|[?|[?|?]]]]; done.
Qed.

Lemma addFriend_unchanged_witness :
  addFriend pair_graph "B" "A" = pair_graph.
Proof.
  apply (addFriend_unchanged pair_graph "B" "A").
  right. right. right. left. vm_compute. reflexivity.
Defined.

(** X4: a new friendship is entered last: the edge is appended to the edge
    list and each of the two Persons gets the other as its last friend, the
    friends of everybody else staying as they were. *)
Theorem addFriend_appends (g : SocialGraph) (p q : string) :
  p ∈ nodes g -> q ∈ nodes g -> p <> q -> areConnected g p q = false ->
  edgeList (addFriend g p q) = edgeList g ++ [mkEdge p q]
  /\ getFriends (addFriend g p q) p = getFriends g p ++ [q]
  /\ getFriends (addFriend g p q) q = getFriends g q ++ [p]
  /\ (forall x, x <> p -> x <> q -> getFriends (addFriend g p q) x = getFriends g x).
Proof.
  intros Hp Hq Hpq Hc. apply nodeExists_spec in Hp, Hq.
  assert (He : addFriend g p q = mkGraph (nodes g) (edgeList g ++ [mkEdge p q])).
  { unfold addFriend. rewrite Hp, Hq. unfold areConnected in Hc. rewrite Hc.
    simpl. by rewrite bool_decide_eq_false_2. }
  rewrite He. split; [done|].
  assert (Hf : forall x, getFriends (mkGraph (nodes g) (edgeList g ++ [mkEdge p q])) x
                 = getFriends g x ++ (if incident x (mkEdge p q)
                                      then [opposite x (mkEdge p q)] else [])).
  { intros x. unfold getFriends. simpl. rewrite !getFriends_loop_map.
    rewrite filter_app, map_app. f_equal.
    rewrite filter_cons, filter_nil. by destruct (incident x (mkEdge p q)). }
  split; [|split]; [| |intros x Hxp Hxq]; rewrite Hf; unfold incident, opposite; simpl.
  - by rewrite node_eqb_refl.
  - rewrite node_eqb_refl, orb_true_r. by rewrite (proj2 (node_eqb_false p q) Hpq).
  - rewrite (proj2 (node_eqb_false p x)), (proj2 (node_eqb_false q x)) by done.
    simpl. by rewrite app_nil_r.
Qed.

Lemma addFriend_appends_witness :
  edgeList (addFriend star_graph "A" "C") = edgeList star_graph ++ [mkEdge "A" "C"]
  /\ getFriends (addFriend star_graph "A" "C") "A" = getFriends star_graph "A" ++ ["C"]%string
  /\ getFriends (addFriend star_graph "A" "C") "C" = getFriends star_graph "C" ++ ["A"]%string
  /\ (forall x, x <> "A"%string -> x <> "C"%string ->
         getFriends (addFriend star_graph "A" "C") x = getFriends star_graph x).
Proof.
  apply (addFriend_appends star_graph "A" "C").
  - vm_compute. left.
  - vm_compute. do 2 right. left.
  - discriminate.
  - vm_compute. reflexivity.
Defined.

(** X5: after [removeFriend a b] the two are not connected, in either order;
    every other pair is connected exactly when it was before; no Person is
    added or removed. *)
Theorem removeFriend_disconnects (g : SocialGraph) (a b : string) :
  nodes (removeFriend g a b) = nodes g
  /\ areConnected (removeFriend g a b) a b = false
  /\ areConnected (removeFriend g a b) b a = false
  /\ (forall x y, areConnected (removeFriend g a b) x y = true
        <-> areConnected g x y = true /\ ~ ((x = a /\ y = b) \/ (x = b /\ y = a))).
Proof.
  assert (Hall : forall x y, areConnected (removeFriend g a b) x y = true
        <-> areConnected g x y = true /\ ~ ((x = a /\ y = b) \/ (x = b /\ y = a))).
  { intros x y. unfold areConnected, removeFriend. simpl.
    rewrite !some_edge_connects_spec. split.
    - intros (e & He & Hc). apply list_elem_of_filter in He as [Hk He].
      split; [eauto|]. intros Hp. apply negb_true_iff in Hk.
      rewrite (is_pair_connects a b x y Hp e) in Hk. congruence.
    - intros [(e & He & Hc) Hn]. exists e. split; [|done].
      apply list_elem_of_filter. split; [|done]. apply negb_true_iff.
      apply not_true_iff_false. intros Hab. apply Hn.
      apply connects_spec in Hc, Hab. intuition congruence. }
  split; [done|]. split; [|split; [|done]].
  - apply not_true_iff_false. rewrite Hall. intros [_ Hn]. apply Hn. by left.
  - apply not_true_iff_false. rewrite Hall. intros [_ Hn]. apply Hn. by right.
Qed.

(** X6: removing a friendship that was just added gives the store back, and
    removing a friendship that does not exist changes nothing. *)
Theorem removeFriend_after_addFriend (g : SocialGraph) (a b : string) :
  areConnected g a b = false ->
  removeFriend g a b = g /\ removeFriend (addFriend g a b) a b = g.
Proof.
  intros Hc.
  assert (Hkeep : filter (fun e => negb (connects e a b) = true) (edgeList g) = edgeList g).
  { unfold areConnected in Hc. rewrite some_edge_connects_false in Hc.
    induction (edgeList g) as [|e es IH]; [done|].
    rewrite filter_cons, decide_True by (rewrite (Hc e); [done|left]).
    f_equal. apply IH. intros e' He'. apply Hc. by right. }
  assert (H1 : removeFriend g a b = g).
  { unfold removeFriend. rewrite Hkeep. by destruct g. }
  split; [done|]. unfold addFriend.
  destruct (nodeExists g a && nodeExists g b && negb (bool_decide (a = b))) eqn:E; [|done].
  unfold areConnected in Hc. rewrite Hc. simpl.
  unfold removeFriend. simpl. rewrite filter_app, Hkeep.
  rewrite filter_cons, filter_nil.
  assert (Hn : connects (mkEdge a b) a b = true).
  { apply connects_spec. by left. }
  rewrite decide_False by (rewrite Hn; simpl; discriminate).
  rewrite app_nil_r. by destruct g.
Qed.

Lemma removeFriend_after_addFriend_witness :
  removeFriend star_graph "A" "C" = star_graph
  /\ removeFriend (addFriend star_graph "A" "C") "A" "C" = star_graph.
Proof.
  apply (removeFriend_after_addFriend star_graph "A" "C").
  vm_compute. reflexivity.
Defined.

(** X7: [removePerson p] leaves no Person named [p], keeps every other
    Person, and keeps the connectivity of every pair not involving [p]. *)
Theorem removePerson_keeps_others (g : SocialGraph) (p : string) :
  (p ∉ nodes (snd (removePerson g p)))
  /\ (forall x, x <> p -> (x ∈ nodes (snd (removePerson g p)) <-> x ∈ nodes g))
  /\ (forall x y, x <> p -> y <> p ->
        areConnected (snd (removePerson g p)) x y = areConnected g x y).
Proof.
  unfold removePerson. destruct (nodeExists g p) eqn:E; simpl.
  - split; [|split].
    + intros H. apply list_elem_of_filter in H as [H _].
      apply negb_true_iff, node_eqb_false in H. done.
    + intros x Hx. rewrite list_elem_of_filter, negb_true_iff, node_eqb_false. tauto.
    + intros x y Hx Hy. apply eq_true_iff_eq. unfold areConnected. simpl.
      rewrite !some_edge_connects_spec. split.
      * intros (e & He & Hc). apply list_elem_of_filter in He as [_ He]. eauto.
      * intros (e & He & Hc). exists e. split; [|done].
        apply list_elem_of_filter. split; [|done].
        apply negb_true_iff, orb_false_iff. rewrite !node_eqb_false.
        apply connects_spec in Hc. intuition congruence.
  - apply nodeExists_false in E. split; [done|]. split; done.
Qed.

(** X8: in a well-formed store only two different Persons of the store can
    be connected, and connection does not depend on the order of the names. *)
Theorem areConnected_persons (g : SocialGraph) (a b : string) :
  store_ok g -> areConnected g a b = true ->
  a ∈ nodes g /\ b ∈ nodes g /\ a <> b /\ areConnected g b a = true.
Proof.
  intros Hok Hc. destruct (areConnected_in_nodes g a b Hok Hc) as (H1 & H2 & H3).
  repeat split; try done. by rewrite areConnected_sym.
Qed.

Lemma areConnected_persons_witness :
  "A"%string ∈ nodes pair_graph /\ "B"%string ∈ nodes pair_graph
  /\ "A"%string <> "B"%string /\ areConnected pair_graph "B" "A" = true.
Proof.
  apply (areConnected_persons pair_graph "A" "B").
  - apply run_mutators_ok.
  - vm_compute. reflexivity.
Defined.

(** X9: in a well-formed store [getFriends p] lists exactly the Persons
    connected to [p], each once, never [p] itself, all of them Persons of
    the store; it is empty for a name that is not in the store. *)
Theorem getFriends_neighbourhood (g : SocialGraph) (p : string) :
  store_ok g ->
  NoDup (getFriends g p)
  /\ (p ∉ getFriends g p)
  /\ (forall x, x ∈ getFriends g p <-> areConnected g p x = true)
  /\ (forall x, x ∈ getFriends g p -> x ∈ nodes g)
  /\ (p ∉ nodes g -> getFriends g p = []).
Proof.
  intros Hok. split; [apply getFriends_NoDup, Hok|].
  split.
  { intros H. apply elem_of_getFriends in H.
    by destruct (areConnected_in_nodes g p p Hok H) as (_ & _ & ?). }
  split; [intros x; apply elem_of_getFriends|]. split.
  { intros x H. apply elem_of_getFriends in H.
    by destruct (areConnected_in_nodes g p x Hok H) as (_ & ? & _). }
  intros Hp. destruct (getFriends g p) as [|x l] eqn:E; [done|].
  exfalso. assert (Hx : x ∈ getFriends g p) by (rewrite E; left).
  apply elem_of_getFriends in Hx.
  by destruct (areConnected_in_nodes g p x Hok Hx) as (? & _ & _).
Qed.

Lemma getFriends_neighbourhood_witness :
  NoDup (getFriends square_graph "A")
  /\ ("A"%string ∉ getFriends square_graph "A")
  /\ (forall x, x ∈ getFriends square_graph "A" <-> areConnected square_graph "A" x = true)
  /\ (forall x, x ∈ getFriends square_graph "A" -> x ∈ nodes square_graph)
  /\ ("A"%string ∉ nodes square_graph -> getFriends square_graph "A" = []).
Proof.
  apply (getFriends_neighbourhood square_graph "A"). apply run_mutators_ok.
Defined.

(** ** countMutualFriends and recommendFriends *)

Lemma mutual_count_sym g a b : mutual_count g a b = mutual_count g b a.
Proof.
  unfold mutual_count, mutual_friends. do 2 f_equal.
  apply list_filter_iff. intros m. by rewrite andb_comm.
Qed.

(** X10: in a well-formed store the mutual-friend count does not depend on
    the order of the two Persons, is the number of Persons connected to
    both, and lies between zero and the number of friends of either. *)
Theorem countMutualFriends_symmetric (g : SocialGraph) (a b : string) :
  store_ok g ->
  countMutualFriends g a b = countMutualFriends g b a
  /\ countMutualFriends g a b
     = Z.of_nat (length (filter (fun m => areConnected g a m && areConnected g b m = true)
                                (nodes g)))
  /\ 0 <= countMutualFriends g a b <= Z.of_nat (length (getFriends g a))
  /\ countMutualFriends g a b <= Z.of_nat (length (getFriends g b)).
Proof.
  intros Hok.
  assert (Hle : forall x y, 0 <= countMutualFriends g x y <= Z.of_nat (length (getFriends g x))).
  { intros x y. unfold countMutualFriends. rewrite countMutual_loop_filter.
    pose proof (length_filter (fun m => has_node (getFriends g y) m = true) (getFriends g x)).
    lia. }
  assert (Hsym : countMutualFriends g a b = countMutualFriends g b a).
  { by rewrite !countMutualFriends_mutual_count, mutual_count_sym. }
  split; [done|]. split; [by rewrite countMutualFriends_mutual_count|].
  split; [apply Hle|]. rewrite Hsym. apply Hle.
Qed.

Lemma countMutualFriends_symmetric_witness :
  countMutualFriends square_graph "A" "D" = countMutualFriends square_graph "D" "A"
  /\ countMutualFriends square_graph "A" "D"
     = Z.of_nat (length (filter (fun m => areConnected square_graph "A" m
                                         && areConnected square_graph "D" m = true)
                                (nodes square_graph)))
  /\ 0 <= countMutualFriends square_graph "A" "D"
       <= Z.of_nat (length (getFriends square_graph "A"))
  /\ countMutualFriends square_graph "A" "D" <= Z.of_nat (length (getFriends square_graph "D")).
Proof.
  apply (countMutualFriends_symmetric square_graph "A" "D"). apply run_mutators_ok.
Defined.

Lemma recommendFriends_from_loop sort g name k r :
  (forall l, sort l ≡ₚ l) ->
  r ∈ recommendFriends sort g name k ->
  name ∈ nodes g /\ r ∈ nodes g /\ loop_keeps g name (getFriends g name) r = true.
Proof.
  intros Hs Hr. unfold recommendFriends in Hr.
  destruct (nodeExists g name) eqn:E; simpl in Hr; [|by apply elem_of_nil in Hr].
  apply nodeExists_spec in E. split; [done|].
  apply list_elem_of_In, in_map_iff in Hr as ([r' c] & Heq & Hin). simpl in Heq. subst r'.
  apply list_elem_of_In in Hin. apply elem_of_take in Hin as (i & Hin & _).
  apply list_elem_of_lookup_2 in Hin. rewrite Hs in Hin.
  rewrite potential_loop_filter in Hin. simpl in Hin.
  apply list_elem_of_In, in_map_iff in Hin as (x & Heq & Hx).
  injection Heq as -> _. apply list_elem_of_In, list_elem_of_filter in Hx. tauto.
Qed.

(** X11: whatever [k] is, a recommended name is a Person of the store other
    than [name], is not a friend of [name], and shares a friend with
    [name]; nothing is recommended to a name that is not in the store. *)
Theorem recommendFriends_sound
    (sort : list (Node * Z) -> list (Node * Z)) (g : SocialGraph) (name : string) (k : Z)
    (r : string) :
  (forall l, sort l ≡ₚ l) ->
  r ∈ recommendFriends sort g name k ->
  name ∈ nodes g /\ r ∈ nodes g /\ r <> name
  /\ areConnected g name r = false
  /\ exists m, areConnected g name m = true /\ areConnected g r m = true.
Proof.
  intros Hs Hr.
  destruct (recommendFriends_from_loop sort g name k r Hs Hr) as (Hn & Hrn & Hk).
  unfold loop_keeps in Hk.
  apply andb_true_iff in Hk as [Hk K3]. apply andb_true_iff in Hk as [K1 K2].
  apply negb_true_iff in K1, K2. apply node_eqb_false in K1.
  rewrite has_node_getFriends in K2. apply Z.ltb_lt in K3.
  repeat split; try done.
  unfold countMutualFriends in K3. rewrite countMutual_loop_filter in K3.
  destruct (filter (fun x => has_node (getFriends g r) x = true) (getFriends g name))
    as [|m l] eqn:E; [simpl in K3; lia|].
  assert (Hm : m ∈ filter (fun x => has_node (getFriends g r) x = true) (getFriends g name))
    by (rewrite E; left).
  apply list_elem_of_filter in Hm as [Hm1 Hm2].
  exists m. split; [by apply elem_of_getFriends|].
  by rewrite <- has_node_getFriends.
Qed.

Lemma recommendFriends_sound_witness :
  "A"%string ∈ nodes square_graph /\ "D"%string ∈ nodes square_graph
  /\ "D"%string <> "A"%string
  /\ areConnected square_graph "A" "D" = false
  /\ exists m, areConnected square_graph "A" m = true /\ areConnected square_graph "D" m = true.
Proof.
  apply (recommendFriends_sound sort_keep_ties square_graph "A" 3 "D").
  - apply (sort_permutation _ sort_keep_ties_std).
  - vm_compute. left.
Defined.

(** X12: for [0 <= k] at most [k] names are returned, and in a store without
    duplicate Persons no name is returned twice. *)
Theorem recommendFriends_bounded
    (sort : list (Node * Z) -> list (Node * Z)) (g : SocialGraph) (name : string) (k : Z) :
  (forall l, sort l ≡ₚ l) -> 0 <= k <= INT_MAX -> NoDup (nodes g) ->
  (length (recommendFriends sort g name k) <= Z.to_nat k)%nat
  /\ NoDup (recommendFriends sort g name k).
Proof.
  intros Hs Hk Hnd. unfold recommendFriends.
  destruct (nodeExists g name); simpl; [|split; [lia|apply NoDup_nil_2]].
  set (P := sort (potential_loop g name (getFriends g name) (nodes g) [])).
  split.
  - rewrite length_map, length_take.
    assert (Hsz : to_size_t k = k)
      by (unfold to_size_t, INT_MAX in *; apply Z.mod_small; lia).
    rewrite Hsz. destruct (k <? Z.of_nat (length P)) eqn:E; [lia|].
    apply Z.ltb_ge in E. lia.
  - assert (HP : NoDup (map fst P)).
    { subst P. rewrite (Permutation_map fst (Hs _)).
      rewrite potential_loop_filter. simpl. rewrite map_map. simpl. rewrite map_id.
      by apply NoDup_filter. }
    rewrite <- (take_drop (Z.to_nat (if to_size_t k <? Z.of_nat (length P) then k
                                     else to_int (Z.of_nat (length P)))) P) in HP.
    rewrite map_app in HP. by apply NoDup_app in HP as [HP _].
Qed.

Lemma recommendFriends_bounded_witness :
  (length (recommendFriends sort_keep_ties star_graph "A" 1) <= Z.to_nat 1)%nat
  /\ NoDup (recommendFriends sort_keep_ties star_graph "A" 1).
Proof.
  apply (recommendFriends_bounded sort_keep_ties star_graph "A" 1).
  - apply (sort_permutation _ sort_keep_ties_std).
  - vm_compute. split; discriminate.
  - apply (ok_nodes _ (run_mutators_ok _)).
Defined.

(** ** shortestPathAvoiding *)

Lemma index_from_range ns x : forall k,
  index_from ns x k = -1 \/ (k <= index_from ns x k < k + Z.of_nat (length ns)).
Proof.
  induction ns as [|n ns IH]; intros k; simpl; [by left|].
  destruct (node_eqb n x); [right; lia|].
  destruct (IH (k + 1)) as [H|H]; [by left|right; lia].
Qed.

Lemma index_from_inv ns x : forall k (j : nat),
  0 <= k -> index_from ns x k = k + Z.of_nat j -> ns !! j = Some x.
Proof.
  induction ns as [|n ns IH]; intros k j Hk H; simpl in H; [lia|].
  destruct (node_eqb n x) eqn:E.
  - apply node_eqb_true in E as ->. assert (j = 0%nat) as -> by lia. done.
  - destruct j as [|j].
    + destruct (index_from_range ns x (k + 1)) as [H'|H']; lia.
    + simpl. apply (IH (k + 1) j); lia.
Qed.

Lemma index_of_inv ns x (j : nat) : index_of ns x = Z.of_nat j -> ns !! j = Some x.
Proof. intros H. apply (index_from_inv ns x 0 j); [lia|]. by rewrite Z.add_0_l. Qed.

Lemma is_blacklisted_spec B i : is_blacklisted B i = true <-> i ∈ B.
Proof.
  induction B as [|b B IH]; simpl.
  - split; [discriminate|]. intros H. by apply elem_of_nil in H.
  - destruct (i =? b) eqn:E.
    + apply Z.eqb_eq in E as ->. split; [left|done].
    + apply Z.eqb_neq in E. rewrite IH, elem_of_cons. intuition congruence.
Qed.

Lemma blacklist_indices_spec ns bl : forall acc i,
  i ∈ blacklist_indices ns bl acc
  <-> i ∈ acc \/ exists name, name ∈ bl /\ index_of ns name = i /\ i <> -1.
Proof.
  induction bl as [|name bl IH]; intros acc i; simpl.
  - split; [by left|]. intros [H|(n & Hn & _)]; [done|]. by apply elem_of_nil in Hn.
  - destruct (index_of ns name =? -1) eqn:E.
    + apply Z.eqb_eq in E. rewrite IH. split.
      * intros [H|(n & Hn & Hi)]; [by left|]. right. exists n. split; [by right|done].
      * intros [H|(n & Hn & Hi & Hne)]; [by left|].
        apply elem_of_cons in Hn as [->|Hn]; [congruence|]. right. eauto.
    + apply Z.eqb_neq in E. rewrite IH, elem_of_app, list_elem_of_singleton. split.
      * intros [[H|H]|(n & Hn & Hi)]; [by left| |].
        -- right. exists name. split; [left|]. split; congruence.
        -- right. exists n. split; [by right|done].
      * intros [H|(n & Hn & Hi & Hne)]; [by left; left|].
        apply elem_of_cons in Hn as [->|Hn]; [left; right; congruence|]. right. eauto.
Qed.

Lemma is_blacklisted_name ns bl x :
  NoDup ns -> x ∈ ns ->
  is_blacklisted (blacklist_indices ns bl []) (index_of ns x) = has_node bl x.
Proof.
  intros Hnd Hx. apply eq_true_iff_eq.
  rewrite is_blacklisted_spec, blacklist_indices_spec, has_node_spec.
  destruct (index_of_elem ns x Hnd Hx) as (j & Hj & Hidx). split.
  - intros [H|(name & Hn & Hi & _)]; [by apply elem_of_nil in H|].
    rewrite Hidx in Hi. apply index_of_inv in Hi. congruence.
  - intros H. right. exists x. split; [done|]. split; [done|lia].
Qed.

Lemma restrict_ok g from bl : store_ok g -> store_ok (restrict g from bl).
Proof.
  intros [H1 H2 H3]. constructor; simpl; [done| |].
  - by apply edges_distinct_filter.
  - intros e He. apply list_elem_of_filter in He as [_ He]. auto.
Qed.

Lemma restrict_connected g from bl x y :
  areConnected (restrict g from bl) x y = true
  <-> areConnected g x y = true /\ allowed from bl x = true /\ allowed from bl y = true.
Proof.
  unfold areConnected, restrict. simpl. rewrite !some_edge_connects_spec. split.
  - intros (e & He & Hc). apply list_elem_of_filter in He as [Hk He].
    apply andb_true_iff in Hk as [K1 K2]. split; [eauto|].
    apply connects_spec in Hc as [[<- <-]|[<- <-]]; done.
  - intros [(e & He & Hc) [Hx Hy]]. exists e. split; [|done].
    apply list_elem_of_filter. split; [|done]. apply andb_true_iff.
    apply connects_spec in Hc as [[-> ->]|[-> ->]]; done.
Qed.

Lemma restrict_getFriends g from bl cur :
  allowed from bl cur = true ->
  getFriends (restrict g from bl) cur
  = filter (fun y => allowed from bl y = true) (getFriends g cur).
Proof.
  intros Hcur. unfold getFriends, restrict. simpl. rewrite !getFriends_loop_map.
  induction (edgeList g) as [|e es IH]; [done|].
  rewrite (filter_cons _ e). rewrite (filter_cons (fun e => incident cur e = true) e).
  destruct (incident cur e) eqn:Ei.
  - rewrite (decide_True (P := true = true)) by done. simpl map.
    rewrite (filter_cons _ (opposite cur e)).
    assert (Heq : allowed from bl (getFirstNode e) && allowed from bl (getSecondNode e)
                  = allowed from bl (opposite cur e)).
    { unfold incident, opposite in *.
      destruct (node_eqb (getFirstNode e) cur) eqn:E1.
      - apply node_eqb_true in E1. by rewrite E1, Hcur.
      - simpl in Ei. apply node_eqb_true in Ei. by rewrite Ei, Hcur, andb_true_r. }
    rewrite Heq. destruct (allowed from bl (opposite cur e)) eqn:Ea.
    + rewrite !(decide_True (P := true = true)) by done.
      rewrite filter_cons, Ei, (decide_True (P := true = true)) by done.
      simpl. by rewrite IH.
    + rewrite !(decide_False (P := false = true)) by done. apply IH.
  - rewrite (decide_False (P := false = true)) by done.
    destruct (allowed from bl (getFirstNode e) && allowed from bl (getSecondNode e)).
    + rewrite (decide_True (P := true = true)) by done.
      rewrite filter_cons, Ei, (decide_False (P := false = true)) by done. apply IH.
    + rewrite (decide_False (P := false = true)) by done. apply IH.
Qed.

Section AvoidRefinement.
Context (g : SocialGraph) (s t : Node) (bl : list string).
Hypothesis Hok : store_ok g.

Let g' := restrict g s bl.
Let B := blacklist_indices (nodes g) bl [].

Lemma visit_neighbors_avoiding_sim cur (c : nat) d neighbors : forall st r,
  sim_avoid g st r -> nodes g !! c = Some cur ->
  (forall y, y ∈ neighbors -> y ∈ nodes g) ->
  is_Some (rdist r !! s) ->
  exists st', visit_neighbors_avoiding (nodes g) B neighbors (Z.of_nat c) st = Some st'
    /\ sim_avoid g st'
         (ref_expand (filter (fun y => allowed s bl y = true) neighbors) cur d r).
Proof.
  pose proof (ok_nodes g Hok) as Hnd.
  induction neighbors as [|y rest IH]; intros st r Hsim Hc Hin Hs.
  - exists st. done.
  - assert (Hrest : forall z, z ∈ rest -> z ∈ nodes g) by (intros z Hz; apply Hin; by right).
    pose proof (Hin y ltac:(left)) as Hy.
    destruct (index_of_elem (nodes g) y Hnd Hy) as (j & Hj & Hidx).
    pose proof (lookup_lt_Some _ _ _ Hj) as Hjn.
    cbn [visit_neighbors_avoiding]. subst B. rewrite (is_blacklisted_name _ _ _ Hnd Hy).
    destruct (has_node bl y) eqn:Eb.
    + destruct (node_eqb y s) eqn:Eys.
      * rewrite filter_cons_True by (unfold allowed; by rewrite Eys).
        apply node_eqb_true in Eys as ->. cbn [ref_expand].
        destruct Hs as [ds Hs]. rewrite Hs. by apply IH.
      * rewrite filter_cons_False by (unfold allowed; by rewrite Eys, Eb).
        by apply IH.
    + rewrite filter_cons_True by (unfold allowed; by rewrite Eb, orb_true_r).
      cbn [ref_expand].
      rewrite Hidx, vget_lookup, (sima_visited _ _ _ Hsim j y Hj).
      cbn [mbind option_bind].
      destruct (rdist r !! y) as [dy|] eqn:Ey.
      * rewrite bool_decide_eq_true_2 by eauto. simpl. by apply IH.
      * rewrite bool_decide_eq_false_2 by (intros [? ?]; done). simpl.
        rewrite !vset_insert
          by (rewrite ?(sima_visited_len _ _ _ Hsim), ?(sima_parent_len _ _ _ Hsim); done).
        cbn [mbind option_bind].
        apply IH; [|done|done|].
        -- destruct Hsim as [S1 S2 S3 S4 S5]. constructor; simpl.
           ++ by rewrite length_insert.
           ++ by rewrite length_insert.
           ++ rewrite S3, map_app. simpl. by rewrite Hidx.
           ++ intros i x Hi. destruct (decide (i = j)) as [->|Hij].
              ** rewrite Hj in Hi. injection Hi as <-.
                 rewrite list_lookup_insert_eq by lia. rewrite lookup_insert_eq.
                 by rewrite bool_decide_eq_true_2 by eauto.
              ** rewrite list_lookup_insert_ne by done.
                 rewrite lookup_insert_ne; [auto|].
                 intros <-. apply Hij. by eapply NoDup_lookup.
           ++ intros i x Hi. destruct (decide (i = j)) as [->|Hij].
              ** rewrite Hj in Hi. injection Hi as <-.
                 rewrite list_lookup_insert_eq by lia. rewrite lookup_insert_eq.
                 simpl. f_equal. symmetry. by apply index_of_lookup.
              ** rewrite list_lookup_insert_ne by done.
                 rewrite lookup_insert_ne; [auto|].
                 intros <-. apply Hij. by eapply NoDup_lookup.
        -- simpl. destruct Hs as [ds Hs]. rewrite lookup_insert_ne; [eauto|].
           intros ->. congruence.
Qed.

Lemma reached_allowed F d p x :
  search_inv g' s t F d p -> is_Some (d !! x) -> allowed s bl x = true.
Proof.
  intros Hinv [dx Hx]. pose proof (inv_parent _ _ _ _ _ _ Hinv x dx Hx) as Hp.
  destruct (p !! x) as [u|].
  - destruct Hp as (du & _ & _ & Hc). apply restrict_connected in Hc. tauto.
  - destruct Hp as [-> _]. unfold allowed. by rewrite node_eqb_refl.
Qed.

Lemma avoid_loop_sim : t ∈ nodes g -> forall fuel st r b r',
  sim_avoid g st r -> search_inv g' s t (rq r) (rdist r) (rparent r) ->
  ref_loop (getFriends g') fuel t r = Some (b, r') ->
  exists st', avoid_loop fuel g B (index_of (nodes g) t) st = Some (b, st')
    /\ sim_avoid g st' r'.
Proof.
  intros Ht. pose proof (ok_nodes g Hok) as Hnd.
  pose proof (restrict_ok g s bl Hok) as Hok'.
  destruct (index_of_elem _ _ Hnd Ht) as (ti & Hti & Htidx).
  induction fuel as [|fuel IH]; intros st r b r' Hsim Hinv Hloop; [done|].
  cbn [ref_loop avoid_loop] in *. rewrite (sima_queue _ _ _ Hsim).
  destruct (rq r) as [|cur rest] eqn:Eq; simpl map; cbv iota.
  - injection Hloop as <- <-. exists st. done.
  - destruct (inv_open _ _ _ _ _ _ Hinv cur ltac:(left)) as [dc Hdc].
    pose proof (inv_nodes _ _ _ _ _ _ Hinv cur ltac:(eauto)) as Hcn.
    change (nodes g') with (nodes g) in Hcn.
    destruct (index_of_elem _ _ Hnd Hcn) as (c & Hc & Hcidx).
    rewrite Hcidx, Htidx.
    assert (Hsim0 : sim_avoid g
              (mkAvoid (av_parent st) (av_visited st) (map (index_of (nodes g)) rest))
              (mkRef rest (rdist r) (rparent r))).
    { destruct Hsim as [S1 S2 S3 S4 S5]. by constructor. }
    destruct (bool_decide (cur = t)) eqn:Ect.
    + apply bool_decide_eq_true in Ect as ->.
      assert (c = ti) as -> by (by eapply NoDup_lookup).
      rewrite Z.eqb_refl. injection Hloop as <- <-. eauto.
    + apply bool_decide_eq_false in Ect.
      replace (Z.of_nat c =? Z.of_nat ti) with false.
      2:{ symmetry. apply Z.eqb_neq. intros Heq. apply Nat2Z.inj in Heq as ->.
          apply Ect. congruence. }
      rewrite vget_lookup, Hc. cbn [mbind option_bind].
      simpl in Hloop. rewrite Hdc in Hloop. simpl in Hloop.
      set (r0 := mkRef rest (rdist r) (rparent r)) in *.
      assert (Hca : allowed s bl cur = true) by (eapply reached_allowed; eauto).
      pose proof (restrict_getFriends g s bl cur Hca) as Hgf. fold g' in Hgf.
      rewrite Hgf in Hloop.
      destruct (ref_expand_inv g' s t Hok'
                  (filter (fun y => allowed s bl y = true) (getFriends g cur)) cur dc r0)
        as (H1 & H2 & H3 & H4); [done|done| |].
      { intros y Hy. rewrite <- Hgf in Hy. by apply elem_of_getFriends. }
      destruct (visit_neighbors_avoiding_sim cur c dc (getFriends g cur) _ r0 Hsim0 Hc)
        as (st1 & Hv & Hsim1).
      * intros y Hy. apply elem_of_getFriends in Hy.
        by eapply areConnected_in_nodes.
      * exists 0%nat. apply Hinv.
      * rewrite Hv. cbn [mbind option_bind]. rewrite <- Htidx.
        apply (IH st1 _ b r' Hsim1); [|done].
        eapply search_inv_close; [exact H1|done|].
        intros y Hy. apply H3. rewrite <- Hgf. by apply elem_of_getFriends.
Qed.

Lemma walk_parents_avoid_sim F st r :
  sim_avoid g st r -> search_inv g' s t F (rdist r) (rparent r) ->
  forall fuel v acc w ipath,
    ref_walk fuel (rparent r) v acc = Some w ->
    is_Some (rdist r !! v) ->
    mapM (vget (nodes g)) (reverse ipath) = Some acc ->
    exists ip, walk_parents (S fuel) (av_parent st) (index_of (nodes g) v) ipath = Some ip
      /\ mapM (vget (nodes g)) (reverse ip) = Some w.
Proof.
  intros Hsim Hinv. pose proof (ok_nodes g Hok) as Hnd.
  induction fuel as [|fuel IH]; intros v acc w ipath Hw [dv Hv] Hacc; [done|].
  pose proof (inv_nodes _ _ _ _ _ _ Hinv v ltac:(eauto)) as Hvn.
  change (nodes g') with (nodes g) in Hvn.
  destruct (index_of_elem _ _ Hnd Hvn) as (j & Hj & Hjidx).
  assert (Hstep : mapM (vget (nodes g)) (reverse (ipath ++ [Z.of_nat j])) = Some (v :: acc)).
  { rewrite reverse_snoc. cbn [mapM]. rewrite vget_lookup, Hj. cbn [mbind option_bind].
    rewrite Hacc. done. }
  cbn [walk_parents]. rewrite Hjidx.
  replace (Z.of_nat j =? -1) with false by (symmetry; apply Z.eqb_neq; lia).
  rewrite vget_lookup, (sima_parent _ _ _ Hsim j v Hj). cbn [mbind option_bind].
  simpl in Hw. pose proof (inv_parent _ _ _ _ _ _ Hinv v dv Hv) as Hp.
  destruct (rparent r !! v) as [u|]; cbn [parent_code].
  - destruct Hp as (du & Hu & _). apply (IH u (v :: acc) w); [done|eauto|done].
  - injection Hw as <-. exists (ipath ++ [Z.of_nat j]).
    split; [|done]. destruct fuel; done.
Qed.

Lemma shortestPathAvoiding_refines :
  shortestPathAvoiding g s t bl = bfs_path (getFriends g') g' s t.
Proof.
  pose proof (ok_nodes g Hok) as Hnd.
  pose proof (restrict_ok g s bl Hok) as Hok'.
  unfold shortestPathAvoiding, bfs_path.
  change (nodeExists g' s) with (nodeExists g s).
  change (nodeExists g' t) with (nodeExists g t).
  change (nodes g') with (nodes g).
  destruct (nodeExists g s) eqn:Es; cbn [negb orb]; [|done].
  destruct (nodeExists g t) eqn:Et; cbn [negb orb]; [|done].
  apply nodeExists_spec in Es, Et.
  rewrite (find_endpoints_ok _ _ _ Hnd Es Et).
  destruct (index_of_elem _ _ Hnd Es) as (si & Hsi & Hsidx).
  pose proof (lookup_lt_Some _ _ _ Hsi) as Hsn.
  rewrite Hsidx, !vset_insert by (by rewrite length_replicate).
  cbn [mbind option_bind].
  destruct (ref_loop_correct g' s t Hok' (getFriends g')
              (fun x y => elem_of_getFriends g' x y)
              (S (length (nodes g))) (ref_init s))
    as (b & r' & Hloop & Hres).
  { by apply search_inv_init. }
  { pose proof (search_measure_init g' s Es). change (nodes g') with (nodes g) in *. lia. }
  rewrite Hloop. cbn [mbind option_bind].
  assert (Hsim0 : sim_avoid g
            (mkAvoid (<[si := -1]> (replicate (length (nodes g)) (-1)))
                     (<[si := true]> (replicate (length (nodes g)) false))
                     [Z.of_nat si])
            (ref_init s)).
  { constructor; simpl.
    - by rewrite length_insert, length_replicate.
    - by rewrite length_insert, length_replicate.
    - by rewrite Hsidx.
    - intros i x Hi. pose proof (lookup_lt_Some _ _ _ Hi).
      destruct (decide (i = si)) as [->|Hne].
      + rewrite Hsi in Hi. injection Hi as <-.
        rewrite list_lookup_insert_eq by (by rewrite length_replicate).
        by rewrite lookup_singleton_eq, bool_decide_eq_true_2 by eauto.
      + rewrite list_lookup_insert_ne by done.
        rewrite lookup_replicate_2 by done.
        rewrite lookup_singleton_ne.
        * by rewrite bool_decide_eq_false_2 by (intros [? ?]; done).
        * intros <-. apply Hne. by eapply NoDup_lookup.
    - intros i x Hi. pose proof (lookup_lt_Some _ _ _ Hi).
      rewrite lookup_empty. simpl.
      destruct (decide (i = si)) as [->|Hne].
      + by rewrite list_lookup_insert_eq by (by rewrite length_replicate).
      + rewrite list_lookup_insert_ne by done. by rewrite lookup_replicate_2. }
  destruct (avoid_loop_sim Et _ _ _ _ _ Hsim0 (search_inv_init g' s t Es) Hloop)
    as (st' & Hcode & Hsim').
  subst B. rewrite Hcode. cbn [mbind option_bind]. destruct b; [|done].
  destruct Hres as (k & F & Hk & Hinv & _).
  assert (Hkn : (k < length (nodes g))%nat).
  { pose proof (inv_count _ _ _ _ _ _ Hinv _ _ Hk).
    pose proof (visited_size_le g' (rdist r') Hnd (inv_nodes _ _ _ _ _ _ Hinv)).
    change (nodes g') with (nodes g) in *. lia. }
  destruct (ref_walk_ok g' s t _ _ _ Hinv k t [] (length (nodes g)) Hk Hkn)
    as (w & Hw & _).
  rewrite (ref_walk_mono _ _ _ _ _ Hw).
  destruct (walk_parents_avoid_sim _ _ _ Hsim' Hinv _ _ _ _ [] Hw ltac:(eauto) eq_refl)
    as (ip & Hip & Hmap).
  rewrite Hip. cbn [mbind option_bind]. done.
Qed.
End AvoidRefinement.

Lemma allowed_spec from bl x : allowed from bl x = true <-> x = from \/ x ∉ bl.
Proof.
  unfold allowed. rewrite orb_true_iff, node_eqb_true, negb_true_iff.
  rewrite <- not_true_iff_false, has_node_spec. tauto.
Qed.

Lemma linked_restrict g from bl w : forall x,
  allowed from bl x = true ->
  linked (restrict g from bl) (x :: w)
  <-> linked g (x :: w) /\ forall y, y ∈ w -> allowed from bl y = true.
Proof.
  induction w as [|y w IH]; intros x Hx.
  - simpl. split; [|done]. intros _. split; [done|].
    intros y Hy. by apply elem_of_nil in Hy.
  - cbn [linked]. rewrite restrict_connected. split.
    + intros [(Hc & _ & Hy) Hl]. apply (IH y Hy) in Hl as [Hl Hall].
      split; [done|]. intros z Hz. apply elem_of_cons in Hz as [->|Hz]; auto.
    + intros [[Hc Hl] Hall].
      assert (Hy : allowed from bl y = true) by (apply Hall; left).
      split; [done|]. apply (IH y Hy). split; [done|].
      intros z Hz. apply Hall. by right.
Qed.

Lemma is_path_restrict g from to bl w :
  is_path (restrict g from bl) from to w <-> is_path g from to w /\ avoids from bl w.
Proof.
  unfold is_path, avoids. destruct w as [|x w].
  { simpl. split; [intros [? _]; done|intros [[? _] _]; done]. }
  split.
  - intros (Hh & Hl & Hlk). simpl in Hh. injection Hh as ->.
    apply linked_restrict in Hlk as [Hlk Hall];
      [|by apply allowed_spec; left].
    split; [done|]. intros y Hy. apply elem_of_cons in Hy as [->|Hy]; [by left|].
    by apply allowed_spec, Hall.
  - intros [(Hh & Hl & Hlk) Hall]. simpl in Hh. injection Hh as ->.
    split; [done|]. split; [done|].
    apply linked_restrict; [by apply allowed_spec; left|].
    split; [done|]. intros y Hy. apply allowed_spec, Hall. by right.
Qed.

Lemma shortestPathAvoiding_char g from to bl :
  store_ok g ->
  exists path, shortestPathAvoiding g from to bl = Some path
    /\ (path = [] <->
          from ∉ nodes g \/ to ∉ nodes g
          \/ forall w, ~ (is_path g from to w /\ avoids from bl w))
    /\ (path <> [] ->
          is_path g from to path /\ avoids from bl path
          /\ forall w, is_path g from to w -> avoids from bl w ->
               (length path <= length w)%nat).
Proof.
  intros Hok. rewrite shortestPathAvoiding_refines by done.
  destruct (bfs_path_correct (restrict g from bl) from to (restrict_ok g from bl Hok)
              (getFriends (restrict g from bl))
              (fun x y => elem_of_getFriends (restrict g from bl) x y))
    as (path & Hp & Hempty & Hne).
  exists path. split; [done|]. split.
  - rewrite Hempty. simpl.
    split; (intros [?|[?|Hno]]; [by left|by right; left|]);
      right; right; intros w Hw; apply (Hno w); by apply is_path_restrict.
  - intros Hn. destruct (Hne Hn) as [Hpath Hmin].
    apply is_path_restrict in Hpath as [Hpath Hav].
    split; [done|]. split; [done|].
    intros w Hw Haw. apply Hmin. by apply is_path_restrict.
Qed.

(** X13: in a well-formed store [shortestPathAvoiding] returns a result;
    when not empty it is a path from [from] to [to] in which no name other
    than [from] is on the blacklist, and no such path is shorter; it is
    empty exactly when an endpoint is missing or no such path exists.  The
    start itself is never tested against the blacklist. *)
Theorem shortestPathAvoiding_shortest
    (g : SocialGraph) (from to : string) (blacklist : list string) :
  store_ok g ->
  exists path, shortestPathAvoiding g from to blacklist = Some path
    /\ (path = [] <->
          from ∉ nodes g \/ to ∉ nodes g
          \/ forall w, ~ (is_path g from to w /\ avoids from blacklist w))
    /\ (path <> [] ->
          is_path g from to path /\ avoids from blacklist path
          /\ forall w, is_path g from to w -> avoids from blacklist w ->
               (length path <= length w)%nat).
Proof. apply shortestPathAvoiding_char. Qed.

Lemma shortestPathAvoiding_shortest_witness :
  exists path, shortestPathAvoiding diamond_graph "A" "D" ["C"]%string = Some path
    /\ (path = [] <->
          "A"%string ∉ nodes diamond_graph \/ "D"%string ∉ nodes diamond_graph
          \/ forall w, ~ (is_path diamond_graph "A" "D" w /\ avoids "A" ["C"]%string w))
    /\ (path <> [] ->
          is_path diamond_graph "A" "D" path /\ avoids "A" ["C"]%string path
          /\ forall w, is_path diamond_graph "A" "D" w -> avoids "A" ["C"]%string w ->
               (length path <= length w)%nat).
Proof.
  apply (shortestPathAvoiding_shortest diamond_graph "A" "D" ["C"]%string).
  apply run_mutators_ok.
Defined.

(** X14: in a well-formed store the result of [shortestPathAvoiding] holds
    no blacklisted name except possibly [from], and it is empty when [to]
    is blacklisted and different from [from]. *)
Theorem shortestPathAvoiding_excludes
    (g : SocialGraph) (from to : string) (blacklist : list string) :
  store_ok g ->
  exists path, shortestPathAvoiding g from to blacklist = Some path
    /\ (forall x, x ∈ path -> x ∈ blacklist -> x = from)
    /\ (to ∈ blacklist -> to <> from -> path = []).
Proof.
  intros Hok.
  destruct (shortestPathAvoiding_char g from to blacklist Hok) as (path & Hp & _ & Hne).
  exists path. split; [done|].
  destruct path as [|x0 path0] eqn:E; [split; [|done]; intros x Hx; by apply elem_of_nil in Hx|].
  destruct (Hne ltac:(done)) as ((_ & Hlast & _) & Hav & _). split.
  - intros x Hx Hb. destruct (Hav x Hx); [done|contradiction].
  - intros Hb Hneq. exfalso.
    assert (Hin : to ∈ x0 :: path0).
    { rewrite last_Some in Hlast. destruct Hlast as [l' ->].
      apply elem_of_app. right. left. }
    destruct (Hav to Hin); done.
Qed.

Lemma shortestPathAvoiding_excludes_witness :
  exists path, shortestPathAvoiding pair_graph "A" "B" ["B"]%string = Some path
    /\ (forall x, x ∈ path -> x ∈ ["B"]%string -> x = "A"%string)
    /\ ("B"%string ∈ ["B"]%string -> "B"%string <> "A"%string -> path = []).
Proof.
  apply (shortestPathAvoiding_excludes pair_graph "A" "B" ["B"]%string).
  apply run_mutators_ok.
Defined.

Lemma filter_agree {A} (P Q : A -> Prop) `{!forall x, Decision (P x)}
    `{!forall x, Decision (Q x)} (l : list A) :
  (forall x, x ∈ l -> (P x <-> Q x)) -> filter P l = filter Q l.
Proof.
  induction l as [|x l IH]; intros Hag; [done|].
  rewrite !filter_cons.
  assert (Hl : filter P l = filter Q l) by (apply IH; intros y Hy; apply Hag; by right).
  pose proof (Hag x ltac:(left)) as Hx.
  destruct (decide (P x)), (decide (Q x)); try tauto; by rewrite Hl.
Qed.

Lemma restrict_nil g from : restrict g from [] = g.
Proof.
  unfold restrict.
  assert (Hall : forall es : list Edge,
            filter (fun e => allowed from [] (getFirstNode e)
                             && allowed from [] (getSecondNode e) = true) es = es).
  { induction es as [|e es IH]; [done|].
    rewrite filter_cons_True; [by rewrite IH|].
    unfold allowed. simpl. by rewrite !orb_true_r. }
  rewrite Hall. by destruct g.
Qed.

(** X15: in a well-formed store with fewer than [INT_MAX] Persons,
    [shortestPathAvoiding] is [shortestPath] run on the store without the
    friendships that touch a blacklisted name other than [from]; with an
    empty blacklist the two functions return the same path. *)
Theorem shortestPathAvoiding_as_shortestPath
    (g : SocialGraph) (from to : string) (blacklist : list string) :
  store_ok g -> Z.of_nat (length (nodes g)) < INT_MAX ->
  shortestPathAvoiding g from to blacklist
  = shortestPath (restrict g from blacklist) from to
  /\ shortestPathAvoiding g from to [] = shortestPath g from to.
Proof.
  intros Hok Hsize. split.
  - rewrite shortestPathAvoiding_refines by done.
    symmetry. apply shortestPath_refines; [by apply restrict_ok|done].
  - rewrite shortestPathAvoiding_refines by done. rewrite restrict_nil.
    symmetry. by apply shortestPath_refines.
Qed.

Lemma shortestPathAvoiding_as_shortestPath_witness :
  shortestPathAvoiding diamond_graph "A" "D" ["C"]%string
  = shortestPath (restrict diamond_graph "A" ["C"]%string) "A" "D"
  /\ shortestPathAvoiding diamond_graph "A" "D" [] = shortestPath diamond_graph "A" "D".
Proof.
  apply (shortestPathAvoiding_as_shortestPath diamond_graph "A" "D" ["C"]%string).
  - apply run_mutators_ok.
  - vm_compute. reflexivity.
Defined.

(** X16: only the blacklisted names that are Persons of the store matter:
    two blacklists with the same members among the Persons (whatever the
    order, the repetitions and the unknown entries) give the same result. *)
Theorem shortestPathAvoiding_blacklist_members
    (g : SocialGraph) (from to : string) (bl1 bl2 : list string) :
  store_ok g -> (forall x, x ∈ nodes g -> (x ∈ bl1 <-> x ∈ bl2)) ->
  shortestPathAvoiding g from to bl1 = shortestPathAvoiding g from to bl2.
Proof.
  intros Hok Hsame. rewrite !shortestPathAvoiding_refines by done.
  assert (Hr : restrict g from bl1 = restrict g from bl2).
  { unfold restrict. f_equal. apply filter_agree. intros e He.
    destruct (ok_ends g Hok e He) as (H1 & H2 & _).
    rewrite !andb_true_iff, !allowed_spec.
    pose proof (Hsame _ H1). pose proof (Hsame _ H2). tauto. }
  by rewrite Hr.
Qed.

Lemma shortestPathAvoiding_blacklist_members_witness :
  shortestPathAvoiding diamond_graph "A" "D" ["C"; "B"; "C"]%string
  = shortestPathAvoiding diamond_graph "A" "D" ["B"; "C"]%string.
Proof.
  apply (shortestPathAvoiding_blacklist_members diamond_graph "A" "D").
  - apply run_mutators_ok.
  - intros x _. rewrite !elem_of_cons. tauto.
Defined.

(** ** More on shortestPath *)

Lemma linked_reverse g w : linked g w -> linked g (reverse w).
Proof.
  induction w as [|x w IH]; [done|]. intros Hl.
  rewrite reverse_cons. destruct w as [|y w]; [done|].
  destruct Hl as [Hxy Hl].
  apply (linked_snoc g _ y x); [by apply IH| |by rewrite areConnected_sym].
  by rewrite last_reverse.
Qed.

Lemma is_path_reverse g a b w : is_path g a b w -> is_path g b a (reverse w).
Proof.
  intros (Hh & Hl & Hlk). split; [by rewrite head_reverse|].
  split; [by rewrite last_reverse|by apply linked_reverse].
Qed.

Lemma linked_suffix g l1 l2 : linked g (l1 ++ l2) -> linked g l2.
Proof.
  induction l1 as [|x l1 IH]; [done|]. intros Hl. apply IH.
  simpl in Hl. destruct (l1 ++ l2); [done|tauto].
Qed.

Lemma linked_in_store g w x :
  store_ok g -> linked g w -> (2 <= length w)%nat -> x ∈ w -> x ∈ nodes g.
Proof.
  intros Hok. revert x. induction w as [|a w IH]; intros x Hl Hlen Hx; [simpl in Hlen; lia|].
  destruct w as [|b w]; [simpl in Hlen; lia|]. destruct Hl as [Hab Hl].
  destruct (areConnected_in_nodes g a b Hok Hab) as (Ha & Hb & _).
  apply elem_of_cons in Hx as [->|Hx]; [done|].
  destruct w as [|c w].
  - apply list_elem_of_singleton in Hx as ->. done.
  - apply IH; [done|simpl; lia|done].
Qed.

Lemma path_shorten g w :
  linked g w -> ~ NoDup w ->
  exists w', linked g w' /\ head w' = head w /\ last w' = last w
             /\ (length w' < length w)%nat.
Proof.
  induction w as [|x r IH]; intros Hl Hnd; [exfalso; apply Hnd, NoDup_nil_2|].
  destruct (decide (x ∈ r)) as [Hin|Hnin].
  - apply list_elem_of_split in Hin as (r1 & r2 & ->).
    exists (x :: r2). split.
    { apply (linked_suffix g (x :: r1) (x :: r2)). by rewrite <- app_comm_cons. }
    split; [done|]. split.
    { rewrite (last_cons x (r1 ++ x :: r2)).
      rewrite last_app. simpl last at 1. rewrite last_cons.
      destruct (last r2); [|done].
      by destruct (last (x :: r2)). }
    simpl. rewrite length_app. simpl. lia.
  - assert (Hr : ~ NoDup r) by (intros H; apply Hnd; by apply NoDup_cons).
    destruct r as [|y r]; [exfalso; apply Hr, NoDup_nil_2|].
    destruct Hl as [Hxy Hl].
    destruct (IH Hl Hr) as (w' & Hl' & Hh' & Hlast' & Hlen').
    destruct w' as [|y' w']; [done|]. simpl in Hh'. injection Hh' as ->.
    exists (x :: y :: w'). split; [done|]. split; [done|].
    split; [by rewrite !last_cons_cons in *|]. simpl in *. lia.
Qed.

Lemma shortestPath_char g a b :
  store_ok g -> Z.of_nat (length (nodes g)) < INT_MAX ->
  exists path, shortestPath g a b = Some path
    /\ (path = [] <-> a ∉ nodes g \/ b ∉ nodes g \/ forall w, ~ is_path g a b w)
    /\ (path <> [] -> is_path g a b path
          /\ forall w, is_path g a b w -> (length path <= length w)%nat).
Proof.
  intros Hok Hsize. rewrite shortestPath_refines by done.
  apply bfs_path_correct; [done|]. intros x y. apply elem_of_getFriends.
Qed.

(** X17: in a well-formed store the shortest paths from [a] to [b] and from
    [b] to [a] have the same length; one is empty exactly when the other is. *)
Theorem shortestPath_symmetric_length (g : SocialGraph) (a b : string) :
  store_ok g -> Z.of_nat (length (nodes g)) < INT_MAX ->
  exists p q, shortestPath g a b = Some p /\ shortestPath g b a = Some q
    /\ length p = length q.
Proof.
  intros Hok Hsize.
  destruct (shortestPath_char g a b Hok Hsize) as (p & Hp & Hpe & Hpn).
  destruct (shortestPath_char g b a Hok Hsize) as (q & Hq & Hqe & Hqn).
  exists p, q. split; [done|]. split; [done|].
  destruct (decide (p = [])) as [->|Hp0]; destruct (decide (q = [])) as [->|Hq0]; [done| | |].
  - exfalso. destruct (Hqn Hq0) as [Hpath _].
    assert (Hnb : ~ (b ∉ nodes g \/ a ∉ nodes g \/ forall w, ~ is_path g b a w))
      by (rewrite <- Hqe; done).
    destruct (proj1 Hpe eq_refl) as [?|[?|Hno]]; [tauto|tauto|].
    apply (Hno (reverse q)). by apply is_path_reverse.
  - exfalso. destruct (Hpn Hp0) as [Hpath _].
    assert (Hna : ~ (a ∉ nodes g \/ b ∉ nodes g \/ forall w, ~ is_path g a b w))
      by (rewrite <- Hpe; done).
    destruct (proj1 Hqe eq_refl) as [?|[?|Hno]]; [tauto|tauto|].
    apply (Hno (reverse p)). by apply is_path_reverse.
  - destruct (Hpn Hp0) as [Hpp Hpm]. destruct (Hqn Hq0) as [Hqp Hqm].
    pose proof (Hpm _ (is_path_reverse _ _ _ _ Hqp)) as H1.
    pose proof (Hqm _ (is_path_reverse _ _ _ _ Hpp)) as H2.
    rewrite length_reverse in H1, H2. lia.
Qed.

Lemma shortestPath_symmetric_length_witness :
  exists p q, shortestPath diamond_graph "A" "D" = Some p
    /\ shortestPath diamond_graph "D" "A" = Some q /\ length p = length q.
Proof.
  apply (shortestPath_symmetric_length diamond_graph "A" "D").
  - apply run_mutators_ok.
  - vm_compute. reflexivity.
Defined.

(** X18: in a well-formed store the shortest path between two friends is
    the two names. *)
Theorem shortestPath_friends (g : SocialGraph) (a b : string) :
  store_ok g -> Z.of_nat (length (nodes g)) < INT_MAX ->
  areConnected g a b = true ->
  shortestPath g a b = Some [a; b].
Proof.
  intros Hok Hsize Hc.
  destruct (areConnected_in_nodes g a b Hok Hc) as (Ha & Hb & Hab).
  destruct (shortestPath_char g a b Hok Hsize) as (p & Hp & Hpe & Hpn).
  rewrite Hp. f_equal.
  assert (Hab_path : is_path g a b [a; b]) by (repeat split; done).
  destruct (decide (p = [])) as [->|Hp0].
  { exfalso. destruct (proj1 Hpe eq_refl) as [?|[?|Hno]]; [done|done|].
    by apply (Hno [a; b]). }
  destruct (Hpn Hp0) as [(Hh & Hl & _) Hmin].
  specialize (Hmin _ Hab_path). simpl in Hmin.
  destruct p as [|x [|y [|z p]]]; simpl in *; [done| | |lia].
  - congruence.
  - congruence.
Qed.

Lemma shortestPath_friends_witness :
  shortestPath diamond_graph "A" "B" = Some ["A"; "B"]%string.
Proof.
  apply (shortestPath_friends diamond_graph "A" "B").
  - apply run_mutators_ok.
  - vm_compute. reflexivity.
  - vm_compute. reflexivity.
Defined.

(** X19: in a well-formed store the path returned by [shortestPath] names
    only Persons of the store and names none of them twice. *)
Theorem shortestPath_simple (g : SocialGraph) (a b : string) :
  store_ok g -> Z.of_nat (length (nodes g)) < INT_MAX ->
  exists path, shortestPath g a b = Some path
    /\ NoDup path /\ forall x, x ∈ path -> x ∈ nodes g.
Proof.
  intros Hok Hsize.
  destruct (shortestPath_char g a b Hok Hsize) as (p & Hp & Hpe & Hpn).
  exists p. split; [done|].
  destruct (decide (p = [])) as [->|Hp0].
  { split; [apply NoDup_nil_2|]. intros x Hx. by apply elem_of_nil in Hx. }
  destruct (Hpn Hp0) as [(Hh & Hl & Hlk) Hmin]. split.
  - destruct (decide (NoDup p)) as [|Hnd]; [done|]. exfalso.
    destruct (path_shorten g p Hlk Hnd) as (w' & Hl' & Hh' & Hlast' & Hlen').
    assert (Hw' : is_path g a b w') by (repeat split; congruence).
    specialize (Hmin _ Hw'). lia.
  - intros x Hx.
    assert (Ha : a ∈ nodes g).
    { destruct (decide (a ∈ nodes g)) as [|Hna]; [done|].
      exfalso. apply Hp0, Hpe. by left. }
    destruct p as [|x0 [|x1 p]]; [done| |].
    + simpl in Hh. injection Hh as ->. apply list_elem_of_singleton in Hx as ->. done.
    + apply (linked_in_store g (x0 :: x1 :: p)); [done|done|simpl; lia|done].
Qed.

Lemma shortestPath_simple_witness :
  exists path, shortestPath diamond_graph "A" "D" = Some path
    /\ NoDup path /\ forall x, x ∈ path -> x ∈ nodes diamond_graph.
Proof.
  apply (shortestPath_simple diamond_graph "A" "D").
  - apply run_mutators_ok.
  - vm_compute. reflexivity.
Defined.

(** ** More on the textual format *)

Lemma add_links_ok n words : forall g, store_ok g -> store_ok (add_links g n words).
Proof.
  induction words as [|w words IH]; intros g Hok; simpl; [done|].
  apply IH. by apply addFriend_ok, addPerson_ok.
Qed.

Lemma string_find_range c s : forall pos,
  string_find c s pos = npos
  \/ (pos <= string_find c s pos < pos + Z.of_nat (String.length s)).
Proof.
  induction s as [|a s IH]; intros pos; simpl; [by left|].
  destruct (Ascii.eqb a c); [right; lia|].
  destruct (IH (pos + 1)) as [H|H]; [by left|right; lia].
Qed.

Lemma load_line_total g line :
  store_ok g -> Z.of_nat (String.length line) <= INT_MAX ->
  exists g', load_line g line = Some g' /\ store_ok g'.
Proof.
  intros Hok Hlen. unfold load_line.
  destruct (decide (line = EmptyString)); [eauto|].
  set (colonPos := to_int (string_find ":" line 0)).
  assert (Hpos : 0 <= colonPos + 1 <= Z.of_nat (String.length line)).
  { subst colonPos. destruct (string_find_range ":" line 0) as [->|Hr].
    - change (to_int npos) with (-1). lia.
    - rewrite to_int_small by (unfold INT_MAX in *; lia). lia. }
  unfold substr, substr_from. change (to_size_t 0) with 0.
  replace (Z.of_nat (String.length line) <? 0) with false
    by (symmetry; apply Z.ltb_ge; lia).
  cbn [mbind option_bind].
  destruct (decide (colonPos + 1 <= INT_MAX)) as [_|Hov]; [|lia].
  rewrite (to_size_t_small (colonPos + 1)) by (unfold INT_MAX in *; lia).
  replace (Z.of_nat (String.length line) <? colonPos + 1) with false
    by (symmetry; apply Z.ltb_ge; lia).
  destruct (Z.of_nat (String.length (drop_chars (Z.to_nat 0) line)) <=? to_size_t colonPos);
    cbn [mbind option_bind]; eexists; (split; [reflexivity|]);
    by apply add_links_ok, addPerson_ok.
Qed.

Lemma read_lines_length text : forall line l,
  l ∈ read_lines text line ->
  (String.length l <= String.length line + String.length text)%nat.
Proof.
  induction text as [|c text IH]; intros line l Hl; simpl in Hl.
  - destruct (decide (line = EmptyString)); [by apply elem_of_nil in Hl|].
    apply list_elem_of_singleton in Hl as ->. simpl. lia.
  - destruct (Ascii.eqb c newline).
    + apply elem_of_cons in Hl as [->|Hl]; [simpl; lia|].
      apply IH in Hl. simpl in *. lia.
    + apply IH in Hl. rewrite str_length_app in Hl. simpl in *. lia.
Qed.

Lemma load_lines_total lines : forall g,
  store_ok g ->
  (forall l, l ∈ lines -> Z.of_nat (String.length l) <= INT_MAX) ->
  exists g', load_lines g lines = Some g' /\ store_ok g'.
Proof.
  induction lines as [|l lines IH]; intros g Hok Hlen; simpl; [eauto|].
  destruct (load_line_total g l Hok (Hlen l ltac:(left))) as (g1 & H1 & Hok1).
  rewrite H1. cbn [mbind option_bind]. apply IH; [done|].
  intros l' Hl'. apply Hlen. by right.
Qed.

(** X20: whatever the text (shorter than 2^31 characters), [loadFromFile]
    succeeds and leaves a well-formed store: no duplicate Persons, no
    duplicate or dangling friendships, nobody friends with themselves. *)
Theorem loadFromFile_well_formed (g0 : SocialGraph) (text : string) :
  Z.of_nat (String.length text) <= INT_MAX ->
  exists g', loadFromFile g0 text = Some g' /\ store_ok g'.
Proof.
  intros Hlen. unfold loadFromFile. apply load_lines_total.
  - apply empty_graph_ok.
  - intros l Hl. apply read_lines_length in Hl. simpl in Hl. lia.
Qed.

Lemma loadFromFile_well_formed_witness :
  exists g', loadFromFile pair_graph "A: B B A  C:D" = Some g' /\ store_ok g'.
Proof.
  apply (loadFromFile_well_formed pair_graph "A: B B A  C:D").
  vm_compute. discriminate.
Defined.

Lemma addPerson_nodes_iff g n m : m ∈ nodes (addPerson g n) <-> m ∈ nodes g \/ m = n.
Proof.
  unfold addPerson. destruct (nodeExists g n) eqn:E; simpl.
  - apply nodeExists_spec in E. split; [by left|]. intros [?| ->]; done.
  - rewrite elem_of_app, list_elem_of_singleton. done.
Qed.

Lemma add_links_nodes n words : forall g m,
  m ∈ nodes (add_links g n words) <-> m ∈ nodes g \/ m ∈ words.
Proof.
  induction words as [|w words IH]; intros g m; simpl.
  - split; [by left|]. intros [?|H]; [done|]. by apply elem_of_nil in H.
  - rewrite IH, addFriend_nodes, addPerson_nodes_iff, elem_of_cons. tauto.
Qed.

Lemma load_lines_written_nodes friends_of ns : forall g g',
  (forall n, n ∈ ns -> clean_name n
     /\ Forall (fun f => all_chars clean_char f = true) (friends_of n)) ->
  load_lines g (map (write_line friends_of) ns) = Some g' ->
  (store_ok g -> store_ok g')
  /\ forall m, m ∈ nodes g'
       <-> m ∈ nodes g \/ m ∈ ns
           \/ exists n, n ∈ ns /\ m ∈ friends_of n /\ m <> EmptyString.
Proof.
  induction ns as [|n ns IH]; intros g g' Hns Hload; simpl in Hload.
  - injection Hload as <-. split; [done|]. intros m. split; [by left|].
    intros [?|[H|(n & H & _)]]; [done| |]; by apply elem_of_nil in H.
  - destruct (Hns n ltac:(left)) as [Hn Hfs].
    rewrite load_line_written in Hload by done. cbn [mbind option_bind] in Hload.
    destruct (IH _ _ (fun k Hk => Hns k ltac:(by right)) Hload) as [IHok IHm].
    split.
    { intros Hok. by apply IHok, add_links_ok, addPerson_ok. }
    intros m. rewrite IHm.
    rewrite add_links_nodes, addPerson_nodes_iff, list_elem_of_filter. split.
    + intros [[[?| ->]|[Hne Hm]]|[Hm|(k & Hk & Hm)]].
      * by left.
      * right. left. left.
      * right. right. exists n. split; [left|done].
      * right. left. by right.
      * right. right. exists k. split; [by right|done].
    + intros [?|[Hm|(k & Hk & Hm & Hne)]].
      * by left; left; left.
      * apply elem_of_cons in Hm as [->|Hm]; [by left; left; right|by right; left].
      * apply elem_of_cons in Hk as [->|Hk]; [by left; right|].
        right. right. eauto.
Qed.

(** X21: for a well-formed store whose names are free of colons and white
    space and shorter than 2^31 - 1 characters, the store loaded from the
    saved text is well formed and has exactly the same Persons (not
    necessarily in the same order). *)
Theorem save_load_persons (g g0 : SocialGraph) :
  store_ok g -> (forall n, n ∈ nodes g -> clean_name n) ->
  exists g', loadFromFile g0 (saveToFile g) = Some g'
    /\ store_ok g'
    /\ forall m, m ∈ nodes g' <-> m ∈ nodes g.
Proof.
  intros Hok Hclean.
  destruct (load_written_connected g g0 (getFriends g) Hok Hclean (fun n => reflexivity _))
    as (g' & Hload & _).
  rewrite saveToFile_write_lines. exists g'. split; [done|].
  assert (Hfs : forall n, n ∈ nodes g ->
             clean_name n /\ Forall (fun f => all_chars clean_char f = true) (getFriends g n)).
  { intros n Hn. split; [auto|]. apply Forall_forall. intros f Hf.
    apply elem_of_getFriends in Hf.
    destruct (areConnected_in_nodes g n f Hok Hf) as (_ & Hfn & _).
    apply (Hclean f Hfn). }
  unfold loadFromFile, write_lines in Hload. rewrite read_lines_unlines in Hload.
  2:{ apply Forall_forall. intros l Hl. apply list_elem_of_In, in_map_iff in Hl as (n & <- & Hn).
      apply list_elem_of_In in Hn. destruct (Hfs n Hn). by apply write_line_no_newline. }
  destruct (load_lines_written_nodes _ _ _ _ Hfs Hload) as [Hok' Hm].
  split; [apply Hok', empty_graph_ok|].
  intros m. rewrite Hm. simpl. split.
  - intros [H|[?|(n & Hn & Hf & _)]]; [by apply elem_of_nil in H|done|].
    apply elem_of_getFriends in Hf.
    by destruct (areConnected_in_nodes g n m Hok Hf) as (_ & ? & _).
  - intros Hin. right. by left.
Qed.

Lemma save_load_persons_witness :
  exists g', loadFromFile pair_graph (saveToFile square_graph) = Some g'
    /\ store_ok g'
    /\ forall m, m ∈ nodes g' <-> m ∈ nodes square_graph.
Proof.
  apply (save_load_persons square_graph pair_graph).
  - apply run_mutators_ok.
  - intros n Hn. apply list_elem_of_In in Hn. vm_compute in Hn.
    destruct Hn as [<-|[<-|[<-|[<-|[]]]]];
      (split; [vm_compute; reflexivity | vm_compute; reflexivity]).
Defined.

(** The order of the Persons is not kept: a Person is entered when it is
    first named, as a source or as a friend. *)
Example save_load_reorders :
  let g := run_mutators [AddPerson "A"; AddPerson "B"; AddPerson "C"; AddFriend "A" "C"] in
  nodes g = ["A"; "B"; "C"]%string
  /\ nodes <$> loadFromFile g (saveToFile g) = Some ["A"; "C"; "B"]%string.
Proof. split; vm_compute; reflexivity. Qed.

Lemma string_find_none c s : forall pos,
  all_chars (fun a => negb (Ascii.eqb a c)) s = true -> string_find c s pos = npos.
Proof.
  induction s as [|a s IH]; intros pos Hs; simpl; [done|].
  simpl in Hs. apply andb_true_iff in Hs as [Ha Hs].
  apply negb_true_iff in Ha. rewrite Ha. by apply IH.
Qed.

Lemma load_line_without_colon_links (g : SocialGraph) (line : string) :
  line <> EmptyString ->
  all_chars (fun a => negb (Ascii.eqb a ":")) line = true ->
  Z.of_nat (String.length line) <= INT_MAX ->
  load_line g line
  = Some (add_links (addPerson g (erase_trailing_blanks (erase_leading_blanks line)))
                    (erase_trailing_blanks (erase_leading_blanks line))
                    (read_words line EmptyString)).
Proof.
  intros Hne Hnc Hlen. unfold load_line. rewrite decide_False by done.
  rewrite string_find_none by done. change (to_int npos) with (-1).
  unfold substr, substr_from. change (to_size_t 0) with 0. change (-1 + 1) with 0.
  change (to_size_t 0) with 0.
  replace (Z.of_nat (String.length line) <? 0) with false
    by (symmetry; apply Z.ltb_ge; lia).
  cbn [mbind option_bind]. change (Z.to_nat 0) with 0%nat. cbn [drop_chars].
  replace (Z.of_nat (String.length line) <=? to_size_t (-1)) with true; [reflexivity|].
  symmetry. apply Z.leb_le. change (to_size_t (-1)) with (2 ^ 64 - 1).
  unfold INT_MAX in Hlen. lia.
Qed.

(** A line whose first colon sits at position [INT_MAX] is not loaded: the
    [int] sum [colonPos + 1] overflows. *)
Lemma load_line_overflow (g : SocialGraph) (line : string) :
  string_find ":" line 0 = INT_MAX -> load_line g line = None.
Proof.
  intros H. unfold load_line.
  destruct (decide (line = EmptyString)) as [->|_]; [discriminate H|].
  rewrite H. change (to_int INT_MAX) with INT_MAX.
  destruct (substr line 0 INT_MAX); [|done].
  cbn [mbind option_bind]. by rewrite decide_False by (unfold INT_MAX; lia).
Qed.

(** X22: a non-empty line without a colon is not rejected.  The whole line,
    trimmed of blanks at both ends, becomes a Person, and so does every word
    of the line; every word different from the trimmed line becomes its
    friend, and nothing else changes.  The Persons afterwards are the old
    ones, the trimmed line and the words; two names are connected afterwards
    exactly when they were connected before or are the trimmed line and a
    word of the line different from it.  A word equal to the trimmed line,
    as in a one-word line, adds no friendship. *)
Theorem load_line_without_colon (g : SocialGraph) (line : string) :
  line <> EmptyString ->
  all_chars (fun a => negb (Ascii.eqb a ":")) line = true ->
  Z.of_nat (String.length line) <= INT_MAX ->
  let name := erase_trailing_blanks (erase_leading_blanks line) in
  let words := read_words line EmptyString in
  exists g',
    load_line g line = Some g'
    /\ (forall m, m ∈ nodes g' <-> m ∈ nodes g \/ m = name \/ m ∈ words)
    /\ (forall x y, areConnected g' x y = true <->
          areConnected g x y = true \/ exists w, w ∈ words /\ is_pair name w x y)
    /\ (forall w, w ∈ words -> w <> name ->
          w ∈ getFriends g' name /\ name ∈ getFriends g' w)
    /\ (forall w, w ∈ words -> w = name -> areConnected g' name w = areConnected g name w).
Proof.
  intros Hne Hnc Hlen name words.
  exists (add_links (addPerson g name) name words).
  split; [by apply load_line_without_colon_links|].
  destruct (add_links_spec name words (addPerson g name) (addPerson_present g name))
    as [_ Hconn].
  assert (Hc : forall x y, areConnected (add_links (addPerson g name) name words) x y = true <->
             areConnected g x y = true \/ exists w, w ∈ words /\ is_pair name w x y).
  { intros x y. by rewrite Hconn, addPerson_connected. }
  split; [|split; [done|split]].
  - intros m. rewrite add_links_nodes, addPerson_nodes_iff. tauto.
  - intros w Hw Hd. rewrite !elem_of_getFriends, !Hc.
    split; right; exists w; (split; [done|]); (split; [congruence|]); [by left|by right].
  - intros w Hw ->. apply eq_true_iff_eq. rewrite Hc. split; [|by left].
    intros [H|(w & _ & Hp & [[_ ->]|[-> _]])]; done.
Qed.

Lemma load_line_without_colon_witness :
  let name := erase_trailing_blanks (erase_leading_blanks " Ann Bob ") in
  let words := read_words " Ann Bob " EmptyString in
  exists g',
    load_line empty_graph " Ann Bob " = Some g'
    /\ (forall m, m ∈ nodes g' <-> m ∈ nodes empty_graph \/ m = name \/ m ∈ words)
    /\ (forall x y, areConnected g' x y = true <->
          areConnected empty_graph x y = true
          \/ exists w, w ∈ words /\ is_pair name w x y)
    /\ (forall w, w ∈ words -> w <> name ->
          w ∈ getFriends g' name /\ name ∈ getFriends g' w)
    /\ (forall w, w ∈ words -> w = name ->
          areConnected g' name w = areConnected empty_graph name w).
Proof.
  apply (load_line_without_colon empty_graph " Ann Bob ").
  - discriminate.
  - vm_compute. reflexivity.
  - vm_compute. discriminate.
Defined.

(** The line " Ann Bob " gives the Persons "Ann Bob", "Ann" and "Bob", the
    first being friends with the other two; the one-word line "Ann" gives
    the single Person "Ann" and no friendship. *)
Example load_line_two_words :
  load_line empty_graph " Ann Bob "
  = Some (mkGraph ["Ann Bob"; "Ann"; "Bob"]%string
                  [mkEdge "Ann Bob" "Ann"; mkEdge "Ann Bob" "Bob"]).
Proof. vm_compute. reflexivity. Qed.

Example load_line_one_word :
  load_line empty_graph "Ann" = Some (mkGraph ["Ann"%string] []).
Proof. vm_compute. reflexivity. Qed.

(** ** Console helpers of main.cpp *)

(** X23: the file name used for saving always ends with [".txt"]; a name
    of at least four characters that already ends with [".txt"] is kept
    unchanged, every other name gets the suffix [".txt"] appended, and
    applying the rule twice changes nothing more. *)
Theorem save_filename_txt (filename : string) :
  drop_chars (String.length (save_filename filename) - 4) (save_filename filename) = ".txt"%string
  /\ (4 <= String.length (save_filename filename))%nat
  /\ save_filename (save_filename filename) = save_filename filename
  /\ (save_filename filename = filename \/ save_filename filename = filename +:+ ".txt")
  /\ ((4 <= String.length filename)%nat
      /\ drop_chars (String.length filename - 4) filename = ".txt"%string ->
      save_filename filename = filename)
  /\ (~ ((4 <= String.length filename)%nat
         /\ drop_chars (String.length filename - 4) filename = ".txt"%string) ->
      save_filename filename = filename +:+ ".txt").
Proof.
  assert (Hfix : forall f, (4 <= String.length f)%nat ->
             drop_chars (String.length f - 4) f = ".txt"%string -> save_filename f = f).
  { intros f Hl Hd. unfold save_filename. rewrite Hd.
    replace (Z.of_nat (String.length f) <? 4) with false
      by (symmetry; apply Z.ltb_ge; lia). done. }
  assert (Hsuf : forall f, (4 <= String.length (f +:+ ".txt"))%nat
             /\ drop_chars (String.length (f +:+ ".txt") - 4) (f +:+ ".txt") = ".txt"%string).
  { intros f. rewrite str_length_app. simpl String.length. split; [lia|].
    replace (String.length f + 4 - 4)%nat with (String.length f) by lia.
    apply drop_chars_prefix. }
  assert (Hcase : (save_filename filename = filename
                    /\ (4 <= String.length filename)%nat
                    /\ drop_chars (String.length filename - 4) filename = ".txt"%string)
                  \/ (save_filename filename = filename +:+ ".txt"
                      /\ ~ ((4 <= String.length filename)%nat
                            /\ drop_chars (String.length filename - 4) filename
                               = ".txt"%string))).
  { unfold save_filename.
    destruct ((Z.of_nat (String.length filename) <? 4)
              || negb (String.eqb (drop_chars (String.length filename - 4) filename) ".txt"))
      eqn:E; [right|left].
    - split; [done|]. intros [Hl Hd].
      apply orb_true_iff in E as [E|E].
      + apply Z.ltb_lt in E. lia.
      + apply negb_true_iff, String.eqb_neq in E. done.
    - apply orb_false_iff in E as [E1 E2].
      apply Z.ltb_ge in E1. apply negb_false_iff, String.eqb_eq in E2.
      split; [done|]. split; [lia|done]. }
  destruct Hcase as [(Heq & Hl & Hd)|[Heq Hno]]; rewrite Heq.
  - split; [done|]. split; [done|]. split; [by apply Hfix|].
    split; [by left|]. split; [done|]. intros Hno. destruct Hno. done.
  - destruct (Hsuf filename) as [H1 H2].
    split; [done|]. split; [done|]. split; [by apply Hfix|].
    split; [by right|]. split; [|done]. intros Hyes. by destruct Hno.
Qed.

Lemma save_filename_txt_witness :
  save_filename "notes.txt" = "notes.txt"%string
  /\ save_filename "notes" = "notes.txt"%string
  /\ save_filename ".txt" = ".txt"%string
  /\ save_filename "txt" = "txt.txt"%string.
Proof.
  split; [|split; [|split]].
  - apply (save_filename_txt "notes.txt"). split; [vm_compute; lia|reflexivity].
  - apply (save_filename_txt "notes"). intros [_ H]. vm_compute in H. discriminate H.
  - apply (save_filename_txt ".txt"). split; [vm_compute; lia|reflexivity].
  - apply (save_filename_txt "txt"). intros [H _]. vm_compute in H. lia.
Defined.

Lemma displayAllFriendships_fold g ns out has :
  fold_left (fun '(out, hasFriendships) current =>
               let friends := getFriends g current in
               let hasFriendships :=
                 if negb (bool_decide (friends = [])) then true else hasFriendships in
               (out +:+ current +:+ ": " +:+ write_friends friends +:+ endl,
                hasFriendships))
            ns (out, has)
  = (out +:+ write_lines (getFriends g) ns,
     has || existsb (fun n => negb (bool_decide (getFriends g n = []))) ns).
Proof.
  revert out has. induction ns as [|n ns IH]; intros out has; simpl.
  - by rewrite str_app_nil_r, orb_false_r.
  - rewrite IH. unfold write_lines, write_line. simpl. f_equal.
    + by rewrite !str_app_assoc.
    + destruct (negb (bool_decide (getFriends g n = []))); simpl; [by rewrite orb_true_r|done].
Qed.

Lemma has_friendships_edges g :
  store_ok g ->
  existsb (fun n => negb (bool_decide (getFriends g n = []))) (nodes g)
  = negb (bool_decide (edgeList g = [])).
Proof.
  intros Hok. apply eq_true_iff_eq.
  rewrite existsb_exists, negb_true_iff, bool_decide_eq_false. split.
  - intros (n & _ & Hn) He. apply negb_true_iff, bool_decide_eq_false in Hn.
    apply Hn. unfold getFriends. by rewrite He.
  - intros He. destruct (edgeList g) as [|e es] eqn:E; [done|].
    assert (Hin : e ∈ edgeList g) by (rewrite E; left).
    destruct (ok_ends g Hok e Hin) as (H1 & _ & _).
    exists (getFirstNode e). split; [by apply list_elem_of_In|].
    apply negb_true_iff, bool_decide_eq_false. intros Hnil.
    assert (Hf : getSecondNode e ∈ getFriends g (getFirstNode e)).
    { apply elem_of_getFriends, some_edge_connects_spec. exists e.
      split; [done|]. apply connects_spec. by left. }
    rewrite Hnil in Hf. by apply elem_of_nil in Hf.
Qed.

(** X24: for a well-formed store, [displayAllFriendships] prints its header,
    then exactly the text that [saveToFile] writes, and the closing note
    exactly when the store holds no friendship. *)
Theorem displayAllFriendships_shows_saved_text (g : SocialGraph) :
  store_ok g ->
  displayAllFriendships g
  = friendships_header +:+ saveToFile g
    +:+ (if bool_decide (edgeList g = []) then no_friendships_note else EmptyString).
Proof.
  intros Hok. unfold displayAllFriendships.
  rewrite displayAllFriendships_fold. simpl orb.
  rewrite has_friendships_edges by done. rewrite negb_involutive.
  rewrite saveToFile_write_lines.
  destruct (bool_decide (edgeList g = [])).
  - by rewrite str_app_assoc.
  - by rewrite str_app_nil_r.
Qed.

Lemma displayAllFriendships_shows_saved_text_witness :
  displayAllFriendships pair_graph
  = friendships_header +:+ saveToFile pair_graph
    +:+ (if bool_decide (edgeList pair_graph = []) then no_friendships_note else EmptyString).
Proof.
  apply (displayAllFriendships_shows_saved_text pair_graph). apply run_mutators_ok.
Defined.
